(** * llmio: the dispatch-and-retry engine of [service.BalanceChat]

    A shallow embedding of the Go service layer (package [service]):
    the pool resolver [ProvidersBymodelsName], the capability filter, the
    retry loop with its weight map, and the tee copy to the client.

    Conventions.
    - Go [uint] is [N]; Go [int], [int64] and [time.Duration] are [Z], with
      the 64-bit wrap-around written out by [wrap64] where the code does
      arithmetic.
    - [map[uint]int] is a stdpp [gmap N Z].
    - Everything the function receives from outside (random draws, upstream
      replies, the store, the client connection, the clock) is an explicit
      input record, so each run of the function is a total computation. *)

From Stdlib Require Import ZArith NArith Lia Sorted.
From stdpp Require Import base option list gmap strings.

Local Open Scope Z_scope.

(** ** Machine integers *)

Definition int64_min : Z := - 2 ^ 63.
Definition int64_max : Z := 2 ^ 63 - 1.

Definition in_int64 (z : Z) : Prop := int64_min <= z <= int64_max.

(** Two's-complement wrap-around of a 64-bit signed result. *)
Definition wrap64 (z : Z) : Z := (z + 2 ^ 63) mod 2 ^ 64 - 2 ^ 63.

(** Go's [/] on signed integers truncates toward zero. *)
Definition go_div (a b : Z) : Z := wrap64 (Z.quot a b).
Definition go_sub (a b : Z) : Z := wrap64 (a - b).
Definition go_mul (a b : Z) : Z := wrap64 (a * b).

(** ** Errors

    Go errors are values compared by identity or carried as text; each
    [errors.New]/[fmt.Errorf] site of the source gets a constructor, which
    so records the place a run returned from.  [ErrCancelled] is the
    [ctx.Err()] that line 165 returns.  An [ErrExternal] value is opaque:
    it is whatever the store, the transport or the client connection
    returned, and for a request cancelled during such a call that may be
    the context's own error again.  No property below rests on an
    [ErrExternal] value being another error than [ctx.Err()]. *)

Inductive Err : Type :=
  | ErrReadBody                 (* io.ReadAll(c.Request.Body) failed *)
  | ErrBadRequest               (* Beforer(rawData) failed *)
  | ErrModelNotFound            (* "not found model ..." *)
  | ErrNoMappings               (* "not provider for model ..." *)
  | ErrNoProviderFound          (* "no provider found for models ..." *)
  | ErrNoProvidersForStyle      (* "no %s provider found for %s" *)
  | ErrNoEligibleMapping        (* "no provider with tool_call or ..." *)
  | ErrCancelled                (* ctx.Err(), returned by line 165 *)
  | ErrRetryTimeout             (* "retry time out !" *)
  | ErrMaxRetriesReached        (* "maximum retry attempts reached !" *)
  | ErrEmptyPool                (* balancer: nothing to pick from *)
  | ErrNoDraw                   (* balancer: no positive total to draw in *)
  | ErrShortWrite               (* io.ErrShortWrite *)
  | ErrClosedPipe               (* io.ErrClosedPipe *)
  | EOF                         (* io.EOF *)
  | ErrExternal (code : N).     (* an error value made elsewhere: store,
                                   transport, adapter, client connection *)

Global Instance Err_eq_dec : EqDecision Err.
Proof. solve_decision. Defined.

(** ** Data model (package [models]) *)

(** Modelled from the spec: the struct declarations of package [models] are
    not part of the sources at hand.  The records carry the fields that
    the service code reads and the columns that its queries name
    ([name], [model_id], [type], [deleted_at]), as in section 3. *)

Module Model.
Record t : Type := mk {
  ID : N;
  Name : string;
  MaxRetry : Z;
  TimeOut : Z;
  DeletedAt : option Z
}.
End Model.

Module Provider.
Record t : Type := mk {
  ID : N;
  Name : string;
  Type_ : string;
  Config : string;
  DeletedAt : option Z
}.
End Provider.

Module ModelWithProvider.
Record t : Type := mk {
  ID : N;
  ModelID : N;
  ProviderModel : string;
  ProviderID : N;
  ToolCall : option bool;
  StructuredOutput : option bool;
  Image : option bool;
  Weight : Z;
  DeletedAt : option Z
}.
End ModelWithProvider.

(** What the introspector ([Beforer]) extracts from the request body. *)
Record before : Type := mkBefore {
  model : string;
  stream : bool;
  toolCall : bool;
  structuredOutput : bool;
  image : bool;
  raw : list Byte.byte
}.

(** ** Pool resolution: lines 78-134 of [BalanceChat] *)

Section Resolve.
Variable style : string.
Variable bf : before.

Definition providerIds (llmproviders : list ModelWithProvider.t) : list N :=
  ModelWithProvider.ProviderID <$> llmproviders.

(** [providerMap[provider.ID] = provider] for each loaded provider, in
    order (a later row with the same ID overwrites). *)
Definition buildProviderMap (provideritems : list Provider.t)
  : gmap N Provider.t :=
  foldl (fun m p => <[Provider.ID p := p]> m) ∅ provideritems.

(** [ptr != nil && need && !*ptr] *)
Definition rejects (flag : option bool) (need : bool) : bool :=
  match flag with
  | Some b => need && negb b
  | None => false
  end.

(** The four [continue] guards of the loop over [llmproviders]; [true]
    when the mapping reaches [items[ID] = Weight]. *)
Definition keeps (providerMap : gmap N Provider.t)
    (mp : ModelWithProvider.t) : bool :=
  if rejects (ModelWithProvider.ToolCall mp) (toolCall bf) then false
  else if rejects (ModelWithProvider.StructuredOutput mp) (structuredOutput bf) then false
  else if rejects (ModelWithProvider.Image mp) (image bf) then false
  else match providerMap !! ModelWithProvider.ProviderID mp with
       | None => false
       | Some provider => bool_decide (Provider.Type_ provider = style)
       end.

Definition addItem (providerMap : gmap N Provider.t)
    (items : gmap N Z) (mp : ModelWithProvider.t) : gmap N Z :=
  if keeps providerMap mp
  then <[ModelWithProvider.ID mp := ModelWithProvider.Weight mp]> items
  else items.

Definition buildItems (providerMap : gmap N Provider.t)
    (llmproviders : list ModelWithProvider.t) : gmap N Z :=
  foldl (addItem providerMap) ∅ llmproviders.

(** [len(items) == 0] returns the "no provider with tool_call ..." error. *)
Definition checkItems (items : gmap N Z) : Err + gmap N Z :=
  if bool_decide (size items = 0%nat) then inl ErrNoEligibleMapping
  else inr items.
End Resolve.

(** ** The repository: [ProvidersBymodelsName] and the provider query *)

(** Modelled from the spec: the declarations of package [models] and the
    store behind [models.DB] are not part of the sources at hand.  Section
    6.4 gives four tables whose rows carry a nullable [deleted_at] and
    says that every read path includes [WHERE deleted_at IS NULL].  The
    web pages of the repository read the rows' fields under the names
    [ID], [ModelID], [ProviderID], [Type]: the untagged names under which
    a struct that embeds [gorm.Model] is serialised.  On such a struct the
    ORM adds [deleted_at IS NULL] to every query it builds, so a query
    here returns the live rows that satisfy the conditions written in its
    [Where] clauses; the model lookup names the condition once more. *)
Record DB : Type := mkDB {
  models : list Model.t;
  model_with_providers : list ModelWithProvider.t;
  providers : list Provider.t
}.

(** [First] returns the matching row with the smallest primary key. *)
Definition firstModel (rows : list Model.t) : option Model.t :=
  foldl (fun acc r =>
           match acc with
           | None => Some r
           | Some a => if (Model.ID r <? Model.ID a)%N then Some r else Some a
           end) None rows.

(** [Where("name = ? AND deleted_at IS NULL", modelsName).First(ctx)] *)
Definition findModelByName (db : DB) (modelsName : string) : option Model.t :=
  firstModel
    (filter (fun r => Model.Name r = modelsName ∧ Model.DeletedAt r = None)
            (models db)).

(** [Where("model_id = ?", llmmodels.ID).Find(ctx)] *)
Definition findMappingsByModelID (db : DB) (modelID : N)
  : list ModelWithProvider.t :=
  filter (fun r => ModelWithProvider.ModelID r = modelID ∧
                   ModelWithProvider.DeletedAt r = None)
         (model_with_providers db).

(** [Where("id IN ?", providerIds).Where("type = ?", style).Find(ctx)] *)
Definition findProvidersByIDsAndType (db : DB) (ids : list N) (style : string)
  : list Provider.t :=
  filter (fun r => (Provider.ID r ∈ ids ∧ Provider.Type_ r = style) ∧
                   Provider.DeletedAt r = None)
         (providers db).

(** A query can also fail in the driver; [Some code] is that failure. *)
Record DBFaults : Type := mkFaults {
  failModel : option N;
  failMappings : option N;
  failProviders : option N
}.

Definition noFaults : DBFaults := mkFaults None None None.

Record ProvidersWithlimit : Type := mkLimit {
  Providers : list ModelWithProvider.t;
  MaxRetry : Z;
  TimeOut : Z
}.

Definition ProvidersBymodelsName (db : DB) (faults : DBFaults)
    (modelsName : string) : Err + ProvidersWithlimit :=
  match failModel faults with
  | Some c => inl (ErrExternal c)
  | None =>
    match findModelByName db modelsName with
    | None => inl ErrModelNotFound
    | Some llmmodels =>
      match failMappings faults with
      | Some c => inl (ErrExternal c)
      | None =>
        let llmproviders := findMappingsByModelID db (Model.ID llmmodels) in
        match llmproviders with
        | [] => inl ErrNoMappings
        | _ => inr (mkLimit llmproviders (Model.MaxRetry llmmodels)
                                         (Model.TimeOut llmmodels))
        end
      end
    end
  end.

(** ** The balancer *)

(** Modelled from the spec: package [balancer] is not part of the sources
    at hand.  Section 4.A: an empty map is the [EmptyPool] error; otherwise
    compute the total, draw an integer in [[0, total)], scan the entries
    accumulating weights and return the first key whose running sum exceeds
    the draw.  The draw is an input ([u], reduced into range); the entries
    are scanned in the order of [map_to_list].  Outside the precondition
    (some weight below 1) there may be no range to draw in or no key
    reached, which is the [ErrNoDraw] error. *)
Fixpoint scanEntries (entries : list (N * Z)) (r acc : Z) : option N :=
  match entries with
  | [] => None
  | (k, w) :: rest =>
    if r <? acc + w then Some k else scanEntries rest r (acc + w)
  end.

Definition totalWeight (entries : list (N * Z)) : Z :=
  foldr (fun e acc => e.2 + acc) 0 entries.

Definition WeightedRandom (items : gmap N Z) (u : Z) : Err + N :=
  let entries := map_to_list items in
  match entries with
  | [] => inl ErrEmptyPool
  | _ =>
    let total := totalWeight entries in
    if total <=? 0 then inl ErrNoDraw
    else match scanEntries entries (u mod total) 0 with
         | Some k => inr k
         | None => inl ErrNoDraw
         end
  end.

(** ** Streams: [io.Reader] scripts, [io.TeeReader], [io.Pipe], [io.Copy] *)

Inductive ReadErr : Type := REOF | RFail (code : N).

(** An [io.Reader] as the sequence of results its [Read] calls return: the
    bytes of that call and its error.  Past the end every [Read] is
    [(0, io.EOF)]. *)
Definition Reader : Type := list (list Byte.byte * option ReadErr).

Definition readErr (e : ReadErr) : Err :=
  match e with
  | REOF => EOF
  | RFail c => ErrExternal c
  end.

(** [io.ReadAll]: the bytes up to the first error; [io.EOF] is not reported. *)
Fixpoint ReadAll (r : Reader) : list Byte.byte * option Err :=
  match r with
  | [] => ([], None)
  | (chunk, None) :: r' => let '(d, e) := ReadAll r' in (chunk ++ d, e)
  | (chunk, Some REOF) :: _ => (chunk, None)
  | (chunk, Some (RFail c)) :: _ => (chunk, Some (ErrExternal c))
  end.

(** The content of a response body: what reading it to the end yields. *)
Definition bodyBytes (r : Reader) : list Byte.byte := (ReadAll r).1.

(** What a [Write] on the pipe's write end does: the accounting side takes
    everything, or it has gone away ([pr.Close()]) after [n] more bytes. *)
Inductive PipeRes : Type := PipeAll | PipeClosed (n : nat).

(** What a [Write] on the client connection does: everything is accepted,
    or only [n] bytes are, with the error of the connection if any. *)
Inductive WriteRes : Type := WriteAll | WriteSome (n : nat) (e : option N).

(** [teeReader.Read]: read from the source; when bytes came, write them to
    the pipe, and on a pipe error return the pipe's count and error. *)
Definition teeRead (chunk : list Byte.byte) (rerr : option ReadErr)
    (pws : list PipeRes) (piped : list Byte.byte)
  : list Byte.byte * option Err * list Byte.byte * list PipeRes :=
  match chunk with
  | [] => ([], readErr <$> rerr, piped, pws)
  | _ =>
    match pws with
    | PipeClosed n :: pws' =>
        (take n chunk, Some ErrClosedPipe, piped ++ take n chunk, pws')
    | PipeAll :: pws' => (chunk, readErr <$> rerr, piped ++ chunk, pws')
    | [] => (chunk, readErr <$> rerr, piped ++ chunk, [])
    end
  end.

(** The write half of one round of [io.Copy]: [if nr > 0 { dst.Write ... }]. *)
Definition clientWrite (buf : list Byte.byte) (cws : list WriteRes)
    (written : list Byte.byte)
  : option Err * list Byte.byte * list WriteRes :=
  match buf with
  | [] => (None, written, cws)
  | _ =>
    match cws with
    | WriteSome n e :: cws' =>
        let nw := take n buf in
        match e with
        | Some c => (Some (ErrExternal c), written ++ nw, cws')
        | None =>
            if (length nw <? length buf)%nat
            then (Some ErrShortWrite, written ++ nw, cws')
            else (None, written ++ nw, cws')
        end
    | WriteAll :: cws' => (None, written ++ buf, cws')
    | [] => (None, written ++ buf, [])
    end
  end.

(** [io.Copy(c.Writer, tee)]: returns the error, the bytes the client has
    accepted and the bytes the pipe has accepted. *)
Fixpoint ioCopy (src : Reader) (pws : list PipeRes) (cws : list WriteRes)
    (written piped : list Byte.byte)
  : option Err * list Byte.byte * list Byte.byte :=
  match src with
  | [] => (None, written, piped)
  | (chunk, rerr) :: src' =>
    let '(buf, er, piped1, pws1) := teeRead chunk rerr pws piped in
    let '(ew, written1, cws1) := clientWrite buf cws written in
    match ew with
    | Some e => (Some e, written1, piped1)
    | None =>
      match er with
      | None => ioCopy src' pws1 cws1 written1 piped1
      | Some EOF => (None, written1, piped1)
      | Some e => (Some e, written1, piped1)
      end
    end
  end.

(** ** Chat logs *)

(** The text of a failed attempt: the transport error of [Chat], or
    ["status: %d, body: %s"]. *)
Inductive LogError : Type :=
  | TransportError (e : N)
  | StatusError (StatusCode : Z) (byteBody : list Byte.byte).

Module ChatLog.
Record t : Type := mk {
  ID : N;
  Name : string;
  ProviderModel : string;
  ProviderName : string;
  Status : string;
  Style : string;
  Retry : Z;
  Error : option LogError;
  ProxyTime : Z
}.

(** Modelled from the spec: [WithError] belongs to package [models]; a
    failed attempt's row has [status = error] and carries the error
    text. *)
Definition WithError (l : t) (e : LogError) : t :=
  mk (ID l) (Name l) (ProviderModel l) (ProviderName l) "error"
     (Style l) (Retry l) (Some e) (ProxyTime l).

Definition withID (l : t) (id : N) : t :=
  mk id (Name l) (ProviderModel l) (ProviderName l) (Status l)
     (Style l) (Retry l) (Error l) (ProxyTime l).
End ChatLog.

(** ** The dispatch loop: lines 141-303 of [BalanceChat] *)

(** The reply of [chatModel.Chat]: a transport error, or a response with
    its status code and body. *)
Inductive ChatResult : Type :=
  | ChatErr (e : N)
  | ChatResp (StatusCode : Z) (Body : Reader).

(** What one round of the loop meets outside the function. *)
Record World : Type := mkWorld {
  idle : Z;                       (* time passing before the [select] *)
  ctxDone : bool;                 (* [ctx.Done()] is ready *)
  selectFirst : bool;             (* the runtime's choice among ready cases *)
  draw : Z;                       (* the balancer's random integer *)
  newProvider : string -> string -> option N;  (* [providers.New] failing *)
  chat : N -> ChatResult;         (* [Chat] through the mapping with this ID *)
  chatTime : Z;                   (* time the call takes *)
  saveChatLog : N + N;            (* [SaveChatLog(ctx, log)]: error or row id *)
  pipeWrites : list PipeRes;
  clientWrites : list WriteRes
}.

Record State : Type := mkState {
  items : gmap N Z;               (* the weight map *)
  retryErrLog : list ChatLog.t;   (* values sent on the channel, in order *)
  chat_logs : list ChatLog.t;     (* rows created by [SaveChatLog(ctx, log)] *)
  now : Z;                        (* the clock, in nanoseconds *)
  header : list (string * string);
  flushed : bool;
  written : list Byte.byte;       (* bytes the client writer has accepted *)
  piped : list Byte.byte;         (* bytes the pipe has accepted *)
  pwClosed : option (option Err)  (* [pw.Close()], [pw.CloseWithError(err)] *)
}.

Definition setItems (s : State) (m : gmap N Z) : State :=
  mkState m (retryErrLog s) (chat_logs s) (now s) (header s) (flushed s)
          (written s) (piped s) (pwClosed s).

Definition sendRetryErrLog (s : State) (l : ChatLog.t) : State :=
  mkState (items s) (retryErrLog s ++ [l]) (chat_logs s) (now s) (header s)
          (flushed s) (written s) (piped s) (pwClosed s).

Definition createChatLog (s : State) (l : ChatLog.t) : State :=
  mkState (items s) (retryErrLog s) (chat_logs s ++ [l]) (now s) (header s)
          (flushed s) (written s) (piped s) (pwClosed s).

Definition elapse (s : State) (d : Z) : State :=
  mkState (items s) (retryErrLog s) (chat_logs s) (now s + d) (header s)
          (flushed s) (written s) (piped s) (pwClosed s).

Definition setHeaders (s : State) (h : list (string * string)) : State :=
  mkState (items s) (retryErrLog s) (chat_logs s) (now s) (header s ++ h)
          true (written s) (piped s) (pwClosed s).

Definition afterCopy (s : State) (w p : list Byte.byte) (e : option Err)
  : State :=
  mkState (items s) (retryErrLog s) (chat_logs s) (now s) (header s)
          (flushed s) w p (Some e).

Inductive PanicKind : Type :=
  | MakeChanSize          (* make(chan T, n) with n < 0 *)
  | IndexOutOfRange       (* llmproviders[-1] *)
  | NilDereference.       (* provider.Config on a nil *Provider *)

Inductive Outcome : Type :=
  | Nil                          (* return nil *)
  | Error (e : Err)              (* return err *)
  | Panic (p : PanicKind).

Inductive Step : Type :=
  | Continue (s : State)
  | Return (o : Outcome) (s : State).

(** An attempt that reached the upstream call site: the round, the pool it
    picked from, the mapping picked and the reply of [Chat]. *)
Record Attempt : Type := mkAttempt {
  a_retry : Z;
  a_pool : gmap N Z;
  a_item : N;
  a_result : ChatResult
}.

Inductive SelectCase : Type := CaseDone | CaseTimer | CaseDefault.

(** Go's [select]: among the ready communications one is chosen; [default]
    runs only when none is ready. *)
Definition select (doneReady timerReady first : bool) : SelectCase :=
  match doneReady, timerReady with
  | true, true => if first then CaseDone else CaseTimer
  | true, false => CaseDone
  | false, true => CaseTimer
  | false, false => CaseDefault
  end.

(** The channel of [time.After(d)], made at [created], can be received from
    at [polled] once [d] has passed. *)
Definition timerFired (created d polled : Z) : bool := created + d <=? polled.

(** [time.Second * time.Duration(TimeOut)] *)
Definition timeoutDuration (TimeOut : Z) : Z := go_mul 1000000000 TimeOut.

(** [slices.IndexFunc(llmproviders, func(mp) bool { return mp.ID == item })] *)
Definition IndexFunc (llmproviders : list ModelWithProvider.t) (item : N)
  : option (nat * ModelWithProvider.t) :=
  list_find (fun mp => ModelWithProvider.ID mp = item) llmproviders.

Definition http_StatusOK : Z := 200.
Definition http_StatusTooManyRequests : Z := 429.

Section Dispatch.
Variable style : string.
Variable bf : before.
Variable llmproviders : list ModelWithProvider.t.
Variable providerMap : gmap N Provider.t.
Variable TimeOut_ : Z.
Variable proxyStart : Z.

Definition responseHeaders : list (string * string) :=
  if stream bf
  then [("Content-Type", "text/event-stream"); ("Cache-Control", "no-cache")]
  else [("Content-Type", "application/json")].

(** [items[*item] -= items[*item] / 3]; reading an absent key gives 0. *)
Definition penalize (m : gmap N Z) (item : N) : gmap N Z :=
  let w := default 0 (m !! item) in
  <[item := go_sub w (go_div w 3)]> m.

(** Lines 264-298: the reply had status 200. *)
Definition succeed (w : World) (log : ChatLog.t) (Body : Reader)
    (s : State) : Step :=
  match saveChatLog w with
  | inl c => Return (Error (ErrExternal c)) s
  | inr logId =>
    let s1 := createChatLog s (ChatLog.withID log logId) in
    let s2 := setHeaders s1 responseHeaders in
    let '(err, wr, pi) :=
      ioCopy Body (pipeWrites w) (clientWrites w) (written s2) (piped s2) in
    match err with
    | Some e => Return (Error e) (afterCopy s2 wr pi (Some e))
    | None => Return Nil (afterCopy s2 wr pi None)
    end
  end.

(** Lines 220-261: classify the reply of [Chat]. *)
Definition classify (w : World) (log : ChatLog.t) (item : N)
    (res : ChatResult) (s : State) : Step :=
  match res with
  | ChatErr e =>
    let s1 := sendRetryErrLog s (ChatLog.WithError log (TransportError e)) in
    Continue (setItems s1 (delete item (items s1)))
  | ChatResp StatusCode Body =>
    if bool_decide (StatusCode ≠ http_StatusOK) then
      let byteBody := bodyBytes Body in
      let s1 := sendRetryErrLog s
                  (ChatLog.WithError log (StatusError StatusCode byteBody)) in
      if bool_decide (StatusCode = http_StatusTooManyRequests)
      then Continue (setItems s1 (penalize (items s1) item))
      else Continue (setItems s1 (delete item (items s1)))
    else succeed w log Body s
  end.

(** One round: the body of the [for] loop. *)
Definition iteration (w : World) (retry : Z) (s0 : State)
  : Step * option Attempt :=
  let s := elapse s0 (idle w) in
  match select (ctxDone w)
               (timerFired (now s) (timeoutDuration TimeOut_) (now s))
               (selectFirst w) with
  | CaseDone => (Return (Error ErrCancelled) s, None)
  | CaseTimer => (Return (Error ErrRetryTimeout) s, None)
  | CaseDefault =>
    match WeightedRandom (items s) (draw w) with
    | inl e => (Return (Error e) s, None)
    | inr item =>
      match IndexFunc llmproviders item with
      | None => (Return (Panic IndexOutOfRange) s, None)
      | Some (_, modelWithProvider) =>
        match providerMap !! ModelWithProvider.ProviderID modelWithProvider with
        | None => (Return (Panic NilDereference) s, None)
        | Some provider =>
          match newProvider w style (Provider.Config provider) with
          | Some c => (Return (Error (ErrExternal c)) s, None)
          | None =>
            let log :=
              ChatLog.mk 0%N (model bf)
                (ModelWithProvider.ProviderModel modelWithProvider)
                (Provider.Name provider) "success" style retry None
                (now s - proxyStart) in
            let res := chat w (ModelWithProvider.ID modelWithProvider) in
            let s1 := elapse s (chatTime w) in
            (classify w log item res s1,
             Some (mkAttempt retry (items s) item res))
          end
        end
      end
    end
  end.

(** [for retry := 0; retry < MaxRetry; retry++]: [n] rounds remain. *)
Fixpoint loop (world : nat -> World) (n retry : nat) (s : State)
  : Outcome * State * list Attempt :=
  match n with
  | O => (Error ErrMaxRetriesReached, s, [])
  | S n' =>
    let '(st, a) := iteration (world retry) (Z.of_nat retry) s in
    match st with
    | Return o s' => (o, s', option_list a)
    | Continue s' =>
      let '(o, s'', tr) := loop world n' (S retry) s' in
      (o, s'', option_list a ++ tr)
    end
  end.

(** What a round that stops before the upstream call returns. *)
Inductive earlyReturn (w : World) (s : State) : Outcome -> Prop :=
  | early_cancel : ctxDone w = true -> earlyReturn w s (Error ErrCancelled)
  | early_timer :
      timerFired (now s + idle w) (timeoutDuration TimeOut_)
                 (now s + idle w) = true ->
      earlyReturn w s (Error ErrRetryTimeout)
  | early_pick e :
      WeightedRandom (items s) (draw w) = inl e -> earlyReturn w s (Error e)
  | early_index item :
      WeightedRandom (items s) (draw w) = inr item ->
      IndexFunc llmproviders item = None ->
      earlyReturn w s (Panic IndexOutOfRange)
  | early_nil item :
      WeightedRandom (items s) (draw w) = inr item ->
      earlyReturn w s (Panic NilDereference)
  | early_new item c :
      WeightedRandom (items s) (draw w) = inr item ->
      earlyReturn w s (Error (ErrExternal c)).
End Dispatch.

(** The fields a round leaves alone unless it reaches the success path. *)
Definition sameClientSide (s s1 : State) : Prop :=
  chat_logs s1 = chat_logs s ∧ header s1 = header s ∧
  flushed s1 = flushed s ∧ written s1 = written s ∧ piped s1 = piped s ∧
  pwClosed s1 = pwClosed s.

(** The state in which the loop starts. *)
Definition initState (m : gmap N Z) (t0 : Z) : State :=
  mkState m [] [] t0 [] false [] [] None.

(** ** [BalanceChat] *)

(** What lines 58-134 hand to the loop. *)
Record Pool : Type := mkPool {
  p_llmproviders : list ModelWithProvider.t;
  p_providerMap : gmap N Provider.t;
  p_items : gmap N Z;
  p_MaxRetry : Z;
  p_TimeOut : Z
}.

(** Lines 58-134: load the mappings and providers, build the weight map. *)
Definition resolvePool (db : DB) (faults : DBFaults) (style : string)
    (bf : before) : Err + Pool :=
  match ProvidersBymodelsName db faults (model bf) with
  | inl e => inl e
  | inr llmProvidersWithLimit =>
    let llmproviders := Providers llmProvidersWithLimit in
    match llmproviders with
    | [] => inl ErrNoProviderFound
    | _ =>
      match failProviders faults with
      | Some c => inl (ErrExternal c)
      | None =>
        let provideritems :=
          findProvidersByIDsAndType db (providerIds llmproviders) style in
        match provideritems with
        | [] => inl ErrNoProvidersForStyle
        | _ =>
          let providerMap := buildProviderMap provideritems in
          match checkItems (buildItems style bf providerMap llmproviders) with
          | inl e => inl e
          | inr items0 =>
            inr (mkPool llmproviders providerMap items0
                        (MaxRetry llmProvidersWithLimit)
                        (TimeOut llmProvidersWithLimit))
          end
        end
      end
    end
  end.

(** Lines 141-303: make the log channel and run the loop.  [make] panics
    on a negative capacity.  It panics as well on a capacity whose buffer
    would pass the allocation limit of the platform; that limit depends
    on the size of [models.ChatLog], whose declaration is not part of the
    sources at hand, and is left out here: for such a [MaxRetry] the loop
    below is not reached in the program.  The properties of the loop are
    stated for the capacities that [make] accepts. *)
Definition dispatch (style : string) (bf : before) (pool : Pool) (t0 : Z)
    (world : nat -> World) : Outcome * State * list Attempt :=
  if p_MaxRetry pool <? 0
  then (Panic MakeChanSize, initState (p_items pool) t0, [])
  else loop style bf (p_llmproviders pool) (p_providerMap pool)
            (p_TimeOut pool) t0 world (Z.to_nat (p_MaxRetry pool)) 0
            (initState (p_items pool) t0).

Definition BalanceChat (db : DB) (faults : DBFaults) (style : string)
    (Beforer : list Byte.byte -> option before)
    (body : option (list Byte.byte)) (t0 : Z) (world : nat -> World)
  : Outcome * State * list Attempt :=
  let fail e := (Error e, initState ∅ t0, []) in
  match body with
  | None => fail ErrReadBody
  | Some rawData =>
    match Beforer rawData with
    | None => fail ErrBadRequest
    | Some bf =>
      match resolvePool db faults style bf with
      | inl e => fail e
      | inr pool => dispatch style bf pool t0 world
      end
    end
  end.

(** The three components of a run. *)
Definition outcome (r : Outcome * State * list Attempt) : Outcome := r.1.1.
Definition final (r : Outcome * State * list Attempt) : State := r.1.2.
Definition attempts (r : Outcome * State * list Attempt) : list Attempt := r.2.

(** ** Vocabulary of the properties *)

(** HTTP 2xx. *)
Definition is2xx (StatusCode : Z) : Prop := 200 <= StatusCode < 300.

(** The attempt did not take the success path of [classify]. *)
Definition failedResult (r : ChatResult) : Prop :=
  match r with
  | ChatErr _ => True
  | ChatResp StatusCode _ => StatusCode ≠ http_StatusOK
  end.

Global Instance failedResult_dec r : Decision (failedResult r).
Proof. destruct r; simpl; apply _. Defined.

Definition failedAttempt (a : Attempt) : Prop := failedResult (a_result a).

Global Instance failedAttempt_dec a : Decision (failedAttempt a).
Proof. unfold failedAttempt. apply _. Defined.

(** A transport error, or a status that is neither 429 nor 2xx. *)
Definition hardFailure (r : ChatResult) : Prop :=
  match r with
  | ChatErr _ => True
  | ChatResp StatusCode _ =>
      StatusCode ≠ http_StatusTooManyRequests ∧ ¬ is2xx StatusCode
  end.

(** The failure log of an attempt: status [error], the attempt's round. *)
Definition errorLogOf (a : Attempt) (l : ChatLog.t) : Prop :=
  ChatLog.Status l = "error" ∧ ChatLog.Retry l = a_retry a ∧
  is_Some (ChatLog.Error l).

(** Every key of the weight map is the ID of a loaded mapping. *)
Definition keysLoaded (llmproviders : list ModelWithProvider.t)
    (m : gmap N Z) : Prop :=
  forall k, is_Some (m !! k) ->
    exists mp, mp ∈ llmproviders ∧ ModelWithProvider.ID mp = k.

(** The capability filter of section 4.C: a needed capability must be
    [null] or [true] on the mapping. *)
Definition allows (flag : option bool) (need : bool) : Prop :=
  need = true -> flag = None ∨ flag = Some true.

(** Eligibility as the specification words it. *)
Definition eligible (style : string) (bf : before)
    (provideritems : list Provider.t) (mp : ModelWithProvider.t) : Prop :=
  (exists p, p ∈ provideritems ∧
             Provider.ID p = ModelWithProvider.ProviderID mp ∧
             Provider.Type_ p = style) ∧
  allows (ModelWithProvider.ToolCall mp) (toolCall bf) ∧
  allows (ModelWithProvider.StructuredOutput mp) (structuredOutput bf) ∧
  allows (ModelWithProvider.Image mp) (image bf).

(** ** Scenarios

    Concrete stores, requests and worlds, after section 8 of the
    specification; the examples below run the functions on them. *)

Module Scenario.
Definition openai : string := "openai".

Definition modelM (maxRetry timeOut : Z) : Model.t :=
  Model.mk 1 "m" maxRetry timeOut None.

Definition provA : Provider.t := Provider.mk 10 "A" openai "{}" None.
Definition provB : Provider.t := Provider.mk 11 "B" openai "{}" None.

Definition mapA (weight : Z) : ModelWithProvider.t :=
  ModelWithProvider.mk 1 1 "up-a" 10 None None None weight None.
Definition mapB (weight : Z) : ModelWithProvider.t :=
  ModelWithProvider.mk 2 1 "up-b" 11 None None None weight None.

(** Two mappings A and B with the given weights. *)
Definition store (maxRetry timeOut wA wB : Z) : DB :=
  mkDB [modelM maxRetry timeOut] [mapA wA; mapB wB] [provA; provB].

Definition request : before := mkBefore "m" false false false false [].
Definition requestWithTools : before :=
  mkBefore "m" false true false false [].

Definition Beforer (bf : before) (_ : list Byte.byte) : option before :=
  Some bf.

(** A world in which nothing fails but what [chat] says; every call
    takes [d] nanoseconds and the balancer draws [u]. *)
Definition world (u d : Z) (chat : N -> ChatResult) : World :=
  mkWorld 0 false true u (fun _ _ => None) chat d (inr 7%N) [] [].

Definition bodyOf (bs : list Byte.byte) : Reader := [(bs, None)].

(** A answers [statusA], B answers 200. *)
Definition chatAthenB (statusA : Z) (id : N) : ChatResult :=
  if (id =? 1)%N then ChatResp statusA (bodyOf [Byte.x61])
  else ChatResp 200 (bodyOf [Byte.x62]).

(** Every upstream answers [status]. *)
Definition chatAll (status : Z) (_ : N) : ChatResult :=
  ChatResp status (bodyOf [Byte.x65]).

(** Two seconds pass before each [select]; every call takes 0.3 s and is
    answered 429; the balancer's draw lands on A. *)
Definition stalledWorld : World :=
  mkWorld 2000000000 false true 3 (fun _ _ => None) (chatAll 429)
          300000000 (inr 7%N) [] [].

(** The store rejects the success row. *)
Definition worldStoreDown (u : Z) (chat : N -> ChatResult) : World :=
  mkWorld 0 false true u (fun _ _ => None) chat 0 (inl 5%N) [] [].

(** The pool of section 8, scenario 6: A has [tool_call = false], B has
    [tool_call = null]. *)
Definition mapNoTools : ModelWithProvider.t :=
  ModelWithProvider.mk 1 1 "up-a" 10 (Some false) None None 1 None.

(** A store whose only mapping and provider are soft-deleted. *)
Definition mapDeleted : ModelWithProvider.t :=
  ModelWithProvider.mk 1 1 "up-a" 10 None None None 6 (Some 1700000000).
Definition provDeleted : Provider.t :=
  Provider.mk 10 "A" openai "{}" (Some 1700000000).
Definition storeDeleted : DB :=
  mkDB [modelM 3 30] [mapDeleted] [provDeleted].

(** The same model, soft-deleted itself. *)
Definition storeModelDeleted : DB :=
  mkDB [Model.mk 1 "m" 3 30 (Some 1700000000)] [mapA 1] [provA].

(** Live and soft-deleted rows side by side: an older model of the same
    name, the mapping to A and provider C are soft-deleted. *)
Definition mapC : ModelWithProvider.t :=
  ModelWithProvider.mk 3 2 "up-c" 12 None None None 1 None.
Definition storeMixed : DB :=
  mkDB [Model.mk 1 "m" 9 90 (Some 1700000000); Model.mk 2 "m" 3 30 None]
       [ModelWithProvider.mk 1 2 "up-a" 10 None None None 6 (Some 1700000000);
        ModelWithProvider.mk 2 2 "up-b" 11 None None None 3 None;
        mapC]
       [provA; provB; Provider.mk 12 "C" openai "{}" (Some 1700000000)].

(** The pool that [resolvePool] builds from [storeMixed]. *)
Definition poolMixed : Pool :=
  mkPool [ModelWithProvider.mk 2 2 "up-b" 11 None None None 3 None; mapC]
         (buildProviderMap [provB]) (<[2%N := 3]> ∅) 3 30.

(** The pool that [resolvePool] builds from [store]. *)
Definition pool (maxRetry timeOut wA wB : Z) : Pool :=
  mkPool [mapA wA; mapB wB] (buildProviderMap [provA; provB])
         (<[1%N := wA]> (<[2%N := wB]> ∅)) maxRetry timeOut.

(** A whole request against a store. *)
Definition run (db : DB) (bf : before) (w : nat -> World)
  : Outcome * State * list Attempt :=
  BalanceChat db noFaults openai (Beforer bf) (Some []) 0 w.
End Scenario.

(** ** Middleware: package [middleware] *)

(** The byte 0x20. *)
Definition space : Ascii.ascii :=
  Ascii.Ascii false false false false false true false false.

(** [strings.Cut] on a one-byte separator: the text before and after its
    first occurrence. *)
Fixpoint cutByte (sep : Ascii.ascii) (s : string) : option (string * string) :=
  match s with
  | EmptyString => None
  | String c s' =>
    if Ascii.eqb c sep then Some (EmptyString, s')
    else match cutByte sep s' with
         | Some (a, b) => Some (String c a, b)
         | None => None
         end
  end.

(** [strings.SplitN(s, sep, n)] for a one-byte [sep]: at most [n] pieces,
    the last one the unsplit remainder; [n = 0] gives no piece. *)
Fixpoint SplitN (s : string) (sep : Ascii.ascii) (n : nat) : list string :=
  match n with
  | O => []
  | S O => [s]
  | S n' =>
    match cutByte sep s with
    | Some (a, b) => a :: SplitN b sep n'
    | None => [s]
    end
  end.

(** What a handler does to the chain: it returns and the next handler
    runs, or it answers through [common.ErrorWithHttpStatus(c, httpStatus,
    code, msg)] and calls [c.Abort()]. *)
Inductive HandlerResult : Type :=
  | Next
  | Abort (httpStatus code : Z) (msg : string).

Definition http_StatusUnauthorized : Z := 401.

(** [Auth(token)] applied to a request whose [Authorization] header is
    [authHeader] ([c.GetHeader] gives the empty string when it is absent). *)
Definition Auth (token authHeader : string) : HandlerResult :=
  if bool_decide (token = "") then Next
  else if bool_decide (authHeader = "") then
    Abort http_StatusUnauthorized http_StatusUnauthorized
          "Authorization header is missing"
  else
    match SplitN authHeader space 2 with
    | [scheme; tokenString] =>
      if bool_decide (scheme = "Bearer") then
        if bool_decide (tokenString ≠ token) then
          Abort http_StatusUnauthorized http_StatusUnauthorized "Invalid token"
        else Next
      else
        Abort http_StatusUnauthorized http_StatusUnauthorized
              "Invalid authorization header"
    | _ =>
      Abort http_StatusUnauthorized http_StatusUnauthorized
            "Invalid authorization header"
    end.

(** [AuthAnthropic(koken)] applied to a request whose [x-api-key] header is
    [authHeader]. *)
Definition AuthAnthropic (koken authHeader : string) : HandlerResult :=
  if bool_decide (koken = "") then Next
  else if bool_decide (authHeader = "") then
    Abort http_StatusUnauthorized http_StatusUnauthorized
          "x-api-key header is missing"
  else if bool_decide (authHeader ≠ koken) then
    Abort http_StatusUnauthorized http_StatusUnauthorized "Invalid token"
  else Next.

(** A value of Go's [any] as [GetRequestID] tells them apart: a string, or
    something else. *)
Inductive any : Type :=
  | AnyString (s : string)
  | AnyOther (tag : N).

Definition RequestIDKey : string := "request_id".

(** The [Keys] of a [gin.Context]: [c.Set] and [c.Get]. *)
Definition Context_Set (keys : gmap string any) (key : string) (value : any)
  : gmap string any := <[key := value]> keys.

Definition Context_Get (keys : gmap string any) (key : string) : option any :=
  keys !! key.

Definition GetRequestID (keys : gmap string any) : string :=
  match Context_Get keys RequestIDKey with
  | Some (AnyString id) => id
  | _ => ""
  end.

Inductive Level : Type := LevelInfo | LevelWarn | LevelError.

(** The level at which [RequestLogger] logs ["request_completed"]. *)
Definition completionLevel (statusCode : Z) : Level :=
  if 500 <=? statusCode then LevelError
  else if 400 <=? statusCode then LevelWarn
  else LevelInfo.

(** [RequestLogger]: store the fresh id, run the rest of the chain
    ([c.Next()], which yields the keys and the response status), then log
    the completion.  The result is the keys after the chain and the level
    of the completion log. *)
Definition RequestLogger (requestID : string)
    (next : gmap string any -> gmap string any * Z)
    (keys : gmap string any) : gmap string any * Level :=
  let keys1 := Context_Set keys RequestIDKey (AnyString requestID) in
  let '(keys2, statusCode) := next keys1 in
  (keys2, completionLevel statusCode).

(** The three answers with which [Auth] and [AuthAnthropic] reject. *)
Definition missingHeader : HandlerResult :=
  Abort http_StatusUnauthorized http_StatusUnauthorized
        "Authorization header is missing".

Definition invalidFormat : HandlerResult :=
  Abort http_StatusUnauthorized http_StatusUnauthorized
        "Invalid authorization header".

Definition invalidToken : HandlerResult :=
  Abort http_StatusUnauthorized http_StatusUnauthorized "Invalid token".

(** ** Vocabulary of the further properties *)

(** The reply makes [classify] delete the mapping: a transport error, or a
    status other than 200 and 429. *)
Definition dropsMapping (r : ChatResult) : Prop :=
  match r with
  | ChatErr _ => True
  | ChatResp StatusCode _ =>
      StatusCode ≠ http_StatusOK ∧ StatusCode ≠ http_StatusTooManyRequests
  end.

Global Instance dropsMapping_dec r : Decision (dropsMapping r).
Proof. destruct r; simpl; apply _. Defined.

Definition droppedAttempt (a : Attempt) : Prop := dropsMapping (a_result a).

Global Instance droppedAttempt_dec a : Decision (droppedAttempt a).
Proof. unfold droppedAttempt. apply _. Defined.

(** Every weight is a positive Go [int]. *)
Definition validWeights (m : gmap N Z) : Prop :=
  forall k w, m !! k = Some w -> 1 <= w <= int64_max.

(** [m'] holds only keys of [m], each with a weight that is at most the
    one in [m], at least 1, and at least 2 when it started at 2 or more. *)
Definition penalizedFrom (m m' : gmap N Z) : Prop :=
  forall k w', m' !! k = Some w' ->
    exists w, m !! k = Some w ∧ 1 <= w' <= w ∧ (2 <= w -> 2 <= w').

(** The outcome of a copy that returned [err]. *)
Definition copyOutcome (err : option Err) : Outcome :=
  match err with
  | Some e => Error e
  | None => Nil
  end.

(** For every key of the pool, the mapping that [IndexFunc] finds has a
    loaded provider. *)
Definition providersKnown (llmproviders : list ModelWithProvider.t)
    (providerMap : gmap N Provider.t) (m : gmap N Z) : Prop :=
  forall k i mp, is_Some (m !! k) ->
    IndexFunc llmproviders k = Some (i, mp) ->
    is_Some (providerMap !! ModelWithProvider.ProviderID mp).

(** The error text that [classify] logs for a failed reply. *)
Definition errorTextOf (r : ChatResult) : LogError :=
  match r with
  | ChatErr e => TransportError e
  | ChatResp StatusCode Body => StatusError StatusCode (bodyBytes Body)
  end.

(** The log names the request's model and style and the upstream that
    [IndexFunc] and [providerMap] give for the attempt's mapping. *)
Definition namesUpstream (style : string) (bf : before)
    (llmproviders : list ModelWithProvider.t)
    (providerMap : gmap N Provider.t) (a : Attempt) (l : ChatLog.t) : Prop :=
  exists i mp p,
    IndexFunc llmproviders (a_item a) = Some (i, mp) ∧
    providerMap !! ModelWithProvider.ProviderID mp = Some p ∧
    ChatLog.Name l = model bf ∧ ChatLog.Style l = style ∧
    ChatLog.ProviderModel l = ModelWithProvider.ProviderModel mp ∧
    ChatLog.ProviderName l = Provider.Name p ∧
    ChatLog.Retry l = a_retry a.

(** The log of a failed attempt: it names the upstream and carries the
    error text of the reply. *)
Definition failureLogOf (style : string) (bf : before)
    (llmproviders : list ModelWithProvider.t)
    (providerMap : gmap N Provider.t) (a : Attempt) (l : ChatLog.t) : Prop :=
  namesUpstream style bf llmproviders providerMap a l ∧
  ChatLog.Status l = "error" ∧
  ChatLog.Error l = Some (errorTextOf (a_result a)).

(** A client that is there for the first round and gone from the second
    on, while every upstream answers 500. *)
Definition cancelledWorld (i : nat) : World :=
  mkWorld 0 (bool_decide (1 <= i)%nat) true 1 (fun _ _ => None)
          (Scenario.chatAll 500) 0 (inr 7%N) [] [].

(** A read of the body that reports no error, or the end of the body. *)
Definition cleanBody (Body : Reader) : Prop :=
  Forall (fun ev => ev.2 = None ∨ ev.2 = Some REOF) Body.

(** Nothing around the round fails: the context is not done,
    [providers.New] builds the client, [SaveChatLog] creates the row, the
    pipe and the client accept every write, and a body that comes with
    status 200 is read without error. *)
Definition healthyRound (style : string) (w : World) : Prop :=
  ctxDone w = false ∧
  (forall config, newProvider w style config = None) ∧
  (exists logId, saveChatLog w = inr logId) ∧
  Forall (fun r => r = PipeAll) (pipeWrites w) ∧
  Forall (fun r => r = WriteAll) (clientWrites w) ∧
  (forall k Body, chat w k = ChatResp http_StatusOK Body -> cleanBody Body).

(** ** The log writer: lines 141-150 of [BalanceChat] *)

(** The clock at which the loop was through with the upstream call of the
    attempt that [l] records: [ProxyTime] was taken before the call (line
    209) and the call took [chatTime].  That is when a failure log is
    sent on the channel (lines 228 and 246) and when the success row is
    created (line 270). *)
Definition handedOver (t0 : Z) (world : nat -> World) (l : ChatLog.t) : Z :=
  t0 + ChatLog.ProxyTime l + chatTime (world (Z.to_nat (ChatLog.Retry l))).

(** Modelled from the spec: [created_at] is a column of [chat_logs]
    (section 3) that no code under [src/] sets; the store stamps a row
    with its clock when the row is created.

    The goroutine of lines 143-150 receives the logs in the order sent
    and creates one row after the other with
    [SaveChatLog(context.Background(), log)].  The channel holds
    [MaxRetry] logs, so a send never waits for the writer.  When the
    writer gets to a log is up to the scheduler and the store: [lag i] is
    the time from the moment log [i] can be received (it has been sent,
    and the row before it has been created) to the moment its row is
    created.  [free] is the moment from which the writer can receive.
    The result is the [created_at] of the rows, in the order created. *)
Fixpoint writerCreatedAt (lag : nat -> Z) (i : nat) (free : Z)
    (sent : list Z) : list Z :=
  match sent with
  | [] => []
  | t :: sent' =>
    let created := Z.max t free + lag i in
    created :: writerCreatedAt lag (S i) created sent'
  end.

(** The moments at which the failure logs of a run were sent. *)
Definition failureSentAt (t0 : Z) (world : nat -> World) (s' : State)
  : list Z :=
  handedOver t0 world <$> retryErrLog s'.

(** The [created_at] of the failure rows of a run, in the order of the
    attempts, and of its success row. *)
Definition failureCreatedAt (lag : nat -> Z) (t0 : Z) (world : nat -> World)
    (s' : State) : list Z :=
  writerCreatedAt lag 0 t0 (failureSentAt t0 world s').

Definition successCreatedAt (t0 : Z) (world : nat -> World) (s' : State)
  : list Z :=
  handedOver t0 world <$> chat_logs s'.

(** Every element of [before] is at most every element of [after]. *)
Definition notAfter (before after : list Z) : Prop :=
  forall c T, c ∈ before -> T ∈ after -> c <= T.

(** * Verification *)

(** ** Arithmetic and the balancer *)

Lemma wrap64_id z : in_int64 z -> wrap64 z = z.
Proof.
  unfold in_int64, int64_min, int64_max, wrap64. intros Hz.
  rewrite Z.mod_small by lia. lia.
Qed.

Lemma penalty_value w :
  1 <= w <= int64_max -> go_sub w (go_div w 3) = Z.max 1 (w - w / 3).
Proof.
  intros Hw. unfold go_sub, go_div.
  assert (Hq : Z.quot w 3 = w / 3) by (apply Z.quot_div_nonneg; lia).
  assert (0 <= w / 3 <= w).
  { split; [apply Z.div_pos; lia|]. apply Z.div_le_upper_bound; lia. }
  assert (3 * (w / 3) <= w) by (apply Z.mul_div_le; lia).
  unfold int64_max in Hw.
  rewrite Hq, (wrap64_id (w / 3)) by (unfold in_int64, int64_min, int64_max; lia).
  rewrite wrap64_id by (unfold in_int64, int64_min, int64_max; lia).
  lia.
Qed.

Lemma scanEntries_elem es : forall r acc k,
  scanEntries es r acc = Some k -> exists w, (k, w) ∈ es.
Proof.
  induction es as [|[k0 w0] es IH]; intros r acc k; simpl; [done|].
  destruct (r <? acc + w0).
  - intros [= <-]. exists w0. apply list_elem_of_here.
  - intros H. destruct (IH _ _ _ H) as [w Hw]. exists w.
    by apply list_elem_of_further.
Qed.

Lemma WeightedRandom_lookup (m : gmap N Z) u k :
  WeightedRandom m u = inr k -> is_Some (m !! k).
Proof.
  unfold WeightedRandom.
  destruct (map_to_list m) as [|e es] eqn:E; [done|].
  destruct (totalWeight (e :: es) <=? 0); [done|].
  destruct (scanEntries (e :: es) _ 0) as [k'|] eqn:Hs; [|done].
  intros [= <-]. apply scanEntries_elem in Hs as [w Hw].
  rewrite <- E in Hw. apply elem_of_map_to_list in Hw. eauto.
Qed.

Lemma WeightedRandom_empty u : WeightedRandom (∅ : gmap N Z) u = inl ErrEmptyPool.
Proof. unfold WeightedRandom. by rewrite map_to_list_empty. Qed.

Lemma WeightedRandom_EmptyPool (m : gmap N Z) u :
  WeightedRandom m u = inl ErrEmptyPool -> m = ∅.
Proof.
  unfold WeightedRandom.
  destruct (map_to_list m) as [|e es] eqn:E.
  - intros _. by apply map_to_list_empty_iff.
  - destruct (totalWeight (e :: es) <=? 0); [done|].
    by destruct (scanEntries (e :: es) _ 0).
Qed.

Lemma teeRead_spec chunk rerr pws piped buf er piped1 pws1 :
  teeRead chunk rerr pws piped = (buf, er, piped1, pws1) ->
  buf `prefix_of` chunk ∧
  ((er = readErr <$> rerr ∧ buf = chunk) ∨ er = Some ErrClosedPipe).
Proof.
  unfold teeRead. destruct chunk as [|b chunk].
  - intros [= <- <- <- <-]. split; [done|]. by left.
  - destruct pws as [|[|n] pws'].
    + intros [= <- <- <- <-]. split; [done|]. by left.
    + intros [= <- <- <- <-]. split; [done|]. by left.
    + intros [= <- <- <- <-]. split; [apply prefix_take|]. by right.
Qed.

Lemma clientWrite_spec buf cws written ew written1 cws1 :
  clientWrite buf cws written = (ew, written1, cws1) ->
  exists nw, written1 = written ++ nw ∧ nw `prefix_of` buf ∧
             (ew = None -> nw = buf).
Proof.
  unfold clientWrite. destruct buf as [|b buf].
  - intros [= <- <- <-]. exists []. by rewrite app_nil_r.
  - destruct cws as [|[|n [c|]] cws'].
    + intros [= <- <- <-]. by exists (b :: buf).
    + intros [= <- <- <-]. by exists (b :: buf).
    + intros [= <- <- <-]. exists (take n (b :: buf)).
      split; [done|]. split; [apply prefix_take | done].
    + destruct (_ <? _)%nat eqn:Hlt.
      * intros [= <- <- <-]. exists (take n (b :: buf)).
        split; [done|]. split; [apply prefix_take | done].
      * intros [= <- <- <-]. exists (take n (b :: buf)).
        split; [done|]. split; [apply prefix_take |]. intros _.
        apply Nat.ltb_ge in Hlt. apply take_ge.
        rewrite length_take in Hlt. lia.
Qed.

Lemma bodyBytes_cons chunk rerr src :
  bodyBytes ((chunk, rerr) :: src) =
  match rerr with None => chunk ++ bodyBytes src | Some _ => chunk end.
Proof.
  unfold bodyBytes. simpl. destruct rerr as [[|c]|]; [done..|].
  by destruct (ReadAll src).
Qed.

Lemma ioCopy_spec src : forall pws cws written piped err wr pi,
  ioCopy src pws cws written piped = (err, wr, pi) ->
  exists d, wr = written ++ d ∧ d `prefix_of` bodyBytes src ∧
            (err = None -> d = bodyBytes src).
Proof.
  induction src as [|[chunk rerr] src IH];
    intros pws cws written piped err wr pi.
  - simpl. intros [= <- <- <-]. exists []. by rewrite app_nil_r.
  - simpl.
    destruct (teeRead chunk rerr pws piped)
      as [[[buf er] piped1] pws1] eqn:Ht.
    destruct (clientWrite buf cws written) as [[ew written1] cws1] eqn:Hc.
    apply teeRead_spec in Ht as [Hpre Her].
    apply clientWrite_spec in Hc as (nw & -> & Hnw & Hfull).
    rewrite bodyBytes_cons.
    set (whole := match rerr with
                  | None => chunk ++ bodyBytes src
                  | Some _ => chunk
                  end).
    assert (Hchunk : chunk `prefix_of` whole).
    { unfold whole. destruct rerr; [done | by apply prefix_app_r]. }
    destruct ew as [e|].
    { (* the client write failed *)
      intros [= <- <- <-]. exists nw. split; [done|]. split; [|done].
      by repeat (etrans; [eassumption|]). }
    rewrite (Hfull eq_refl) in *. clear Hfull Hnw nw.
    destruct er as [e|].
    + (* the read reported an error: the copy ends here *)
      assert (Heof : e = EOF -> buf = whole).
      { intros ->. destruct Her as [[He ->]|He]; [|done].
        unfold whole. by destruct rerr as [[|c]|]. }
      intros H. exists buf.
      destruct e; injection H as <- <- <-;
        (split; [done|]); (split; [by etrans|]); auto; done.
    + (* the read went well: the copy goes on *)
      destruct Her as [[He ->]|He]; [|done].
      unfold whole. destruct rerr; [done|].
      intros H. apply IH in H as (d & -> & Hd & Hfull).
      exists (chunk ++ d). rewrite app_assoc. split; [done|].
      split; [by apply prefix_app|]. intros ->%Hfull. done.
Qed.

Lemma teeRead_piped chunk rerr pws piped buf er piped1 pws1 :
  teeRead chunk rerr pws piped = (buf, er, piped1, pws1) ->
  piped1 = piped ++ buf.
Proof.
  unfold teeRead. destruct chunk as [|b chunk].
  - intros [= <- <- <- <-]. by rewrite app_nil_r.
  - destruct pws as [|[|n] pws']; by intros [= <- <- <- <-].
Qed.

(** The pipe is fed first: what the client has received is a prefix of
    what the accounting side was given. *)
Lemma ioCopy_tee src : forall pws cws written piped err wr pi,
  ioCopy src pws cws written piped = (err, wr, pi) ->
  exists d r, wr = written ++ d ∧ pi = piped ++ d ++ r.
Proof.
  induction src as [|[chunk rerr] src IH];
    intros pws cws written piped err wr pi; simpl.
  - intros [= <- <- <-]. exists [], []. by rewrite !app_nil_r.
  - destruct (teeRead chunk rerr pws piped)
      as [[[buf er] piped1] pws1] eqn:Ht.
    destruct (clientWrite buf cws written) as [[ew written1] cws1] eqn:Hc.
    apply teeRead_piped in Ht as ->.
    apply clientWrite_spec in Hc as (nw & -> & [r0 ->] & Hfull).
    destruct ew as [e|]; [intros [= <- <- <-]; by exists nw, r0|].
    assert (r0 = []) as ->.
    { specialize (Hfull eq_refl). apply (f_equal length) in Hfull.
      rewrite length_app in Hfull. destruct r0; [done | simpl in Hfull; lia]. }
    rewrite app_nil_r.
    destruct er as [e|].
    + intros H. exists nw, [].
      destruct e; injection H as <- <- <-; by rewrite app_nil_r.
    + intros H. apply IH in H as (d & r & -> & ->).
      exists (nw ++ d), r. by rewrite !app_assoc.
Qed.

Lemma WeightedRandom_error (m : gmap N Z) u e :
  WeightedRandom m u = inl e -> (e = ErrEmptyPool ∧ m = ∅) ∨ e = ErrNoDraw.
Proof.
  unfold WeightedRandom.
  destruct (map_to_list m) as [|x xs] eqn:E.
  - intros [= <-]. left. split; [done|]. by apply map_to_list_empty_iff.
  - destruct (totalWeight (x :: xs) <=? 0); [intros [= <-]; by right|].
    destruct (scanEntries (x :: xs) _ 0); [done|]. intros [= <-]. by right.
Qed.

Lemma IndexFunc_Some l item i mp :
  IndexFunc l item = Some (i, mp) ->
  l !! i = Some mp ∧ ModelWithProvider.ID mp = item.
Proof. unfold IndexFunc. intros H. apply list_find_Some in H. tauto. Qed.

Lemma IndexFunc_None l item :
  IndexFunc l item = None ->
  forall mp, mp ∈ l -> ModelWithProvider.ID mp ≠ item.
Proof.
  unfold IndexFunc. intros H mp Hin.
  apply list_find_None in H. rewrite Forall_forall in H. by apply H.
Qed.

Lemma ioCopy_error src : forall pws cws written piped e wr pi,
  ioCopy src pws cws written piped = (Some e, wr, pi) ->
  e = ErrShortWrite ∨ e = ErrClosedPipe ∨ exists c, e = ErrExternal c.
Proof.
  induction src as [|[chunk rerr] src IH]; intros pws cws written piped e wr pi;
    simpl; [done|].
  destruct (teeRead chunk rerr pws piped) as [[[buf er] piped1] pws1] eqn:Ht.
  destruct (clientWrite buf cws written) as [[ew written1] cws1] eqn:Hc.
  apply teeRead_spec in Ht as [_ Her].
  destruct ew as [e'|].
  - intros [= -> <- <-]. unfold clientWrite in Hc.
    destruct buf; [done|]. destruct cws as [|[|n [c|]] cws']; try done.
    + injection Hc as <- _ _. right; right; eauto.
    + destruct (_ <? _)%nat; [|done]. injection Hc as <- _ _. by left.
  - destruct er as [e'|]; [|by apply IH].
    assert (e' = EOF ∨ e' = ErrClosedPipe ∨ exists c, e' = ErrExternal c) as Hk.
    { destruct Her as [[He _]|[= ->]]; [|by right; left].
      destruct rerr as [[|c]|]; simplify_eq/=; [by left | right; right; eauto]. }
    destruct Hk as [->|[->|[c ->]]]; [done| |].
    + intros [= <- _ _]. by right; left.
    + intros [= <- _ _]. right; right; eauto.
Qed.

(** ** One round and the whole loop *)

Section DispatchFacts.
Variable style : string.
Variable bf : before.
Variable llmproviders : list ModelWithProvider.t.
Variable providerMap : gmap N Provider.t.
Variable TimeOut_ : Z.
Variable proxyStart : Z.

Local Abbreviation round :=
  (iteration style bf llmproviders providerMap TimeOut_ proxyStart).
Local Abbreviation rounds :=
  (loop style bf llmproviders providerMap TimeOut_ proxyStart).
Local Abbreviation classified := (classify bf).
Local Abbreviation succeeded := (succeed bf).

Local Abbreviation early := (earlyReturn llmproviders TimeOut_).

Lemma iteration_inv w retry s st a :
  round w retry s = (st, a) ->
  (a = None ∧ exists o, st = Return o (elapse s (idle w)) ∧ early w s o)
  ∨ (exists item log,
       WeightedRandom (items s) (draw w) = inr item ∧
       a = Some (mkAttempt retry (items s) item (chat w item)) ∧
       ChatLog.Retry log = retry ∧ ChatLog.Status log = "success" ∧
       ChatLog.Error log = None ∧
       st = classified w log item (chat w item)
              (elapse (elapse s (idle w)) (chatTime w))).
Proof.
  unfold iteration. simpl.
  destruct (ctxDone w) eqn:Hd, (timerFired _ _ _) eqn:Ht; simpl.
  - destruct (selectFirst w); intros [= <- <-]; left; split; try done;
      eexists; split; try done; by constructor.
  - intros [= <- <-]; left; split; try done;
      eexists; split; try done; by constructor.
  - intros [= <- <-]; left; split; try done;
      eexists; split; try done; by constructor.
  - destruct (WeightedRandom (items s) (draw w)) as [e|item] eqn:Hp.
    { intros [= <- <-]; left; split; try done;
        eexists; split; try done; by constructor. }
    destruct (IndexFunc llmproviders item) as [[i mp]|] eqn:Hi.
    2:{ intros [= <- <-]; left; split; try done;
        eexists; split; try done; by econstructor. }
    destruct (providerMap !! _) as [p|].
    2:{ intros [= <- <-]; left; split; try done;
        eexists; split; try done; by econstructor. }
    destruct (newProvider w style _) as [c|].
    { intros [= <- <-]; left; split; try done;
        eexists; split; try done; by econstructor. }
    apply IndexFunc_Some in Hi as [_ Hid]. rewrite Hid.
    intros [= <- <-]. right. eexists _, _.
    split; [done|]. split; [done|]. split; [|split; [|split]]; [| | |done]; done.
Qed.

(** The success path always returns. *)
Lemma succeed_inv w log Body s :
  (exists c, saveChatLog w = inl c ∧
             succeeded w log Body s = Return (Error (ErrExternal c)) s)
  ∨ (exists logId err wr pi,
       saveChatLog w = inr logId ∧
       ioCopy Body (pipeWrites w) (clientWrites w) (written s) (piped s)
         = (err, wr, pi) ∧
       succeeded w log Body s =
         Return (match err with Some e => Error e | None => Nil end)
           (afterCopy (setHeaders (createChatLog s (ChatLog.withID log logId))
                                  (responseHeaders bf)) wr pi err)).
Proof.
  unfold succeed. destruct (saveChatLog w) as [c|logId].
  - left. eauto.
  - right. simpl.
    destruct (ioCopy Body _ _ _ _) as [[err wr] pi] eqn:Hc.
    exists logId, err, wr, pi. split; [done|]. split; [done|].
    by destruct err.
Qed.

(** A failed reply always continues: one log is sent and the pool is
    updated. *)
Lemma classify_failed w log item res s :
  failedResult res ->
  exists l m,
    classified w log item res s = Continue (setItems (sendRetryErrLog s l) m) ∧
    ChatLog.Status l = "error" ∧ ChatLog.Retry l = ChatLog.Retry log ∧
    is_Some (ChatLog.Error l) ∧
    (m = delete item (items s) ∨
     (m = penalize (items s) item ∧
      exists Body, res = ChatResp http_StatusTooManyRequests Body)) ∧
    (hardFailure res -> m = delete item (items s)) ∧
    (forall Body, res = ChatResp http_StatusTooManyRequests Body ->
                  m = penalize (items s) item).
Proof.
  unfold classify. destruct res as [e|code Body]; simpl.
  - intros _. eexists _, _. split; [done|]. repeat split; eauto. done.
  - intros Hne. rewrite bool_decide_eq_true_2 by done.
    case_bool_decide as H429.
    + eexists _, _. split; [done|]. repeat split; eauto.
      * right. subst. eauto.
      * intros [? _]. done.
    + eexists _, _. split; [done|]. repeat split; eauto.
      intros B [= ?]. done.
Qed.

Lemma classify_ok w log item Body s :
  classified w log item (ChatResp http_StatusOK Body) s = succeeded w log Body s.
Proof. unfold classify. by rewrite bool_decide_eq_false_2 by (intros H; by apply H). Qed.

Lemma failedResult_or_ok res :
  failedResult res ∨ exists Body, res = ChatResp http_StatusOK Body.
Proof.
  destruct res as [e|code Body]; simpl; [by left|].
  destruct (decide (code = http_StatusOK)) as [->|]; [right; eauto | by left].
Qed.

Lemma iteration_continue w retry s s1 a :
  round w retry s = (Continue s1, a) ->
  exists att l,
    a = Some att ∧ a_retry att = retry ∧ a_pool att = items s ∧
    a_result att = chat w (a_item att) ∧
    WeightedRandom (items s) (draw w) = inr (a_item att) ∧
    failedResult (a_result att) ∧
    retryErrLog s1 = retryErrLog s ++ [l] ∧ errorLogOf att l ∧
    sameClientSide s s1 ∧
    (items s1 = delete (a_item att) (items s) ∨
     (items s1 = penalize (items s) (a_item att) ∧
      exists Body, a_result att = ChatResp http_StatusTooManyRequests Body)) ∧
    (hardFailure (a_result att) ->
     items s1 = delete (a_item att) (items s)) ∧
    (forall Body, a_result att = ChatResp http_StatusTooManyRequests Body ->
                  items s1 = penalize (items s) (a_item att)).
Proof.
  intros H. apply iteration_inv in H as [(_ & o & [=] & _)|H].
  destruct H as (item & log & Hp & -> & Hr & Hs & He & Hc).
  destruct (failedResult_or_ok (chat w item)) as [Hf|[Body HB]].
  2:{ rewrite HB, classify_ok in Hc.
      destruct (succeed_inv w log Body (elapse (elapse s (idle w)) (chatTime w)))
        as [(c & _ & Hsu)|(? & ? & ? & ? & _ & _ & Hsu)]; congruence. }
  destruct (classify_failed w log item _ (elapse (elapse s (idle w)) (chatTime w)) Hf)
    as (l & m & Hcl & Hst & Hrt & Her & Hm & Hhard & Hpen).
  rewrite Hcl in Hc. injection Hc as ->.
  exists (mkAttempt retry (items s) item (chat w item)), l. simpl.
  repeat split; try done. simpl. congruence.
Qed.

Lemma iteration_return w retry s o s1 a :
  round w retry s = (Return o s1, a) ->
  items s1 = items s ∧ retryErrLog s1 = retryErrLog s ∧
  ((a = None ∧ early w s o ∧ sameClientSide s s1)
   ∨ (exists att Body,
        a = Some att ∧ a_retry att = retry ∧ a_pool att = items s ∧
        WeightedRandom (items s) (draw w) = inr (a_item att) ∧
        a_result att = ChatResp http_StatusOK Body ∧
        ((exists c, saveChatLog w = inl c ∧ o = Error (ErrExternal c) ∧
                    sameClientSide s s1)
         ∨ (exists logId err,
              saveChatLog w = inr logId ∧
              ioCopy Body (pipeWrites w) (clientWrites w) (written s) (piped s)
                = (err, written s1, piped s1) ∧
              o = match err with Some e => Error e | None => Nil end ∧
              header s1 = header s ++ responseHeaders bf ∧
              flushed s1 = true ∧ pwClosed s1 = Some err ∧
              exists row, chat_logs s1 = chat_logs s ++ [row] ∧
                          ChatLog.ID row = logId ∧
                          ChatLog.Status row = "success" ∧
                          ChatLog.Retry row = retry)))).
Proof.
  intros H. apply iteration_inv in H as [(-> & o' & [= -> ->] & He)|H].
  { split; [done|]. split; [done|]. left. done. }
  destruct H as (item & log & Hp & -> & Hr & Hs & He & Hc).
  destruct (failedResult_or_ok (chat w item)) as [Hf|[Body HB]].
  { destruct (classify_failed w log item _ (elapse (elapse s (idle w)) (chatTime w)) Hf)
      as (l & m & Hcl & _). congruence. }
  rewrite HB, classify_ok in Hc.
  destruct (succeed_inv w log Body (elapse (elapse s (idle w)) (chatTime w)))
    as [(c & Hsv & Hsu)|(logId & err & wr & pi & Hsv & Hio & Hsu)];
    rewrite Hsu in Hc; injection Hc as -> ->.
  - split; [done|]. split; [done|]. right.
    exists (mkAttempt retry (items s) item (ChatResp http_StatusOK Body)), Body.
    rewrite HB. repeat split; try done. left. exists c. done.
  - split; [done|]. split; [done|]. right.
    exists (mkAttempt retry (items s) item (ChatResp http_StatusOK Body)), Body.
    rewrite HB. repeat split; try done. right. exists logId, err. simpl.
    repeat split; try done.
    eexists. split; [done|]. simpl. done.
Qed.

Lemma loop_O world retry s :
  rounds world 0 retry s = (Error ErrMaxRetriesReached, s, []).
Proof. done. Qed.

(** Induction over the rounds of a run. *)
Lemma loop_rounds_ind (world : nat -> World)
    (P : nat -> nat -> State -> Outcome -> State -> list Attempt -> Prop) :
  (forall retry s, P 0%nat retry s (Error ErrMaxRetriesReached) s []) ->
  (forall n retry s o s1 a,
      round (world retry) (Z.of_nat retry) s = (Return o s1, a) ->
      P (S n) retry s o s1 (option_list a)) ->
  (forall n retry s s1 a o s2 tr,
      round (world retry) (Z.of_nat retry) s = (Continue s1, a) ->
      rounds world n (S retry) s1 = (o, s2, tr) ->
      P n (S retry) s1 o s2 tr ->
      P (S n) retry s o s2 (option_list a ++ tr)) ->
  forall n retry s o s' tr,
    rounds world n retry s = (o, s', tr) -> P n retry s o s' tr.
Proof.
  intros H0 HR HC. induction n as [|n IH]; intros retry s o s' tr.
  - intros [= <- <- <-]. apply H0.
  - simpl.
    destruct (round (world retry) (Z.of_nat retry) s) as [[s1|o1 s1] a] eqn:Hit.
    + destruct (rounds world n (S retry) s1) as [[o2 s2] tr2] eqn:Hl.
      intros [= <- <- <-]. eapply HC; eauto.
    + intros [= <- <- <-]. by apply HR.
Qed.

Lemma penalize_dom (m : gmap N Z) item :
  is_Some (m !! item) -> dom (penalize m item) = dom m.
Proof.
  intros Hin. unfold penalize. rewrite dom_insert_L.
  apply elem_of_dom in Hin. set_solver.
Qed.

(** A round never adds a key to the pool. *)
Lemma iteration_continue_dom w retry s s1 a :
  round w retry s = (Continue s1, a) -> dom (items s1) ⊆ dom (items s).
Proof.
  intros H. destruct (iteration_continue _ _ _ _ _ H)
    as (att & l & _ & _ & _ & _ & Hp & _ & _ & _ & _ & [Hm|[Hm _]] & _);
    rewrite Hm.
  - rewrite dom_delete_L. set_solver.
  - rewrite penalize_dom; [done|]. by eapply WeightedRandom_lookup.
Qed.

Lemma loop_pools world n retry s o s' tr :
  rounds world n retry s = (o, s', tr) ->
  dom (items s') ⊆ dom (items s) ∧
  Forall (fun b => dom (a_pool b) ⊆ dom (items s) ∧
                   a_item b ∈ dom (a_pool b)) tr.
Proof.
  revert n retry s o s' tr. apply loop_rounds_ind.
  - intros retry s. split; [done | constructor].
  - intros n retry s o s1 a H.
    destruct (iteration_return _ _ _ _ _ _ H)
      as (Hi & _ & [(Ha & _)|(att & B & Ha & _ & Hp & Hpick & _)]); subst a.
    + rewrite Hi. split; [done | constructor].
    + rewrite Hi. split; [done|]. simpl. constructor; [|constructor].
      rewrite Hp. split; [done|]. apply elem_of_dom.
      by eapply WeightedRandom_lookup.
  - intros n retry s s1 a o s2 tr Hit _ [IH1 IH2].
    pose proof (iteration_continue_dom _ _ _ _ _ Hit) as Hsub.
    destruct (iteration_continue _ _ _ _ _ Hit)
      as (att & l & -> & _ & Hp & _ & Hpick & _).
    split; [by etrans|]. simpl. constructor.
    + rewrite Hp. split; [done|]. apply elem_of_dom.
      by eapply WeightedRandom_lookup.
    + eapply Forall_impl; [exact IH2|]. simpl. intros b [Hb ?].
      split; [by etrans | done].
Qed.

Lemma loop_hard_failure world n retry s o s' tr :
  rounds world n retry s = (o, s', tr) ->
  forall pre a post,
    tr = pre ++ a :: post -> hardFailure (a_result a) ->
    (a_item a ∉ dom (items s')) ∧
    Forall (fun b => a_item a ∉ dom (a_pool b) ∧ a_item b ≠ a_item a) post.
Proof.
  revert n retry s o s' tr.
  apply (loop_rounds_ind world (fun _ _ _ _ s' tr =>
    forall pre a post,
      tr = pre ++ a :: post -> hardFailure (a_result a) ->
      (a_item a ∉ dom (items s')) ∧
      Forall (fun b => a_item a ∉ dom (a_pool b) ∧ a_item b ≠ a_item a) post)).
  - intros retry s [|x pre] a post; discriminate.
  - intros n retry s o s1 a H pre a0 post Htr Hhard.
    destruct (iteration_return _ _ _ _ _ _ H)
      as (_ & _ & [(Ha & _)|(att & B & Ha & _ & _ & _ & Hres & _)]); subst a.
    + destruct pre; discriminate.
    + destruct pre as [|? [|??]]; simplify_eq/=.
      rewrite Hres in Hhard. destruct Hhard as [_ Hn]. exfalso. apply Hn.
      unfold is2xx, http_StatusOK. lia.
  - intros n retry s s1 a o s2 tr Hit Hl IH pre a0 post Htr Hhard.
    destruct (iteration_continue _ _ _ _ _ Hit)
      as (att & l & -> & _ & _ & _ & _ & _ & _ & _ & _ & _ & Hdel & _).
    destruct pre as [|x pre]; simplify_eq/=.
    + apply loop_pools in Hl as [H1 H2].
      rewrite (Hdel Hhard), dom_delete_L in H1, H2.
      split; [set_solver|].
      eapply Forall_impl; [exact H2|]. simpl. intros b [Hb Hin].
      split; [set_solver|]. intros Heq. rewrite Heq in Hin. set_solver.
    + by eapply IH.
Qed.

Lemma earlyReturn_not_max w s :
  ¬ early w s (Error ErrMaxRetriesReached).
Proof.
  inversion 1 as [| |e He| | |]; subst.
  by apply WeightedRandom_error in He as [[? _]|?].
Qed.

Lemma earlyReturn_empty w s :
  early w s (Error ErrEmptyPool) -> items s = ∅.
Proof.
  inversion 1 as [| |e He| | |]; subst.
  by apply WeightedRandom_EmptyPool in He.
Qed.

(** What the copy can return is never one of the rounds's own errors. *)
Lemma copy_outcome Body pws cws wr0 pi0 err wr pi :
  ioCopy Body pws cws wr0 pi0 = (err, wr, pi) ->
  let o := match err with Some e => Error e | None => Nil end in
  o ≠ Error ErrMaxRetriesReached ∧ o ≠ Error ErrEmptyPool ∧
  o ≠ Error ErrRetryTimeout ∧ (forall p, o ≠ Panic p).
Proof.
  intros H. destruct err as [e|]; simpl; [|done].
  apply ioCopy_error in H as [->|[->|[c ->]]]; done.
Qed.

Lemma loop_accounting world n retry s o s' tr :
  rounds world n retry s = (o, s', tr) ->
  (length tr <= n)%nat ∧
  (exists logs, retryErrLog s' = retryErrLog s ++ logs ∧
                Forall2 errorLogOf (filter failedAttempt tr) logs) ∧
  (o = Error ErrMaxRetriesReached <->
   length tr = n ∧ Forall failedAttempt tr) ∧
  (o = Error ErrEmptyPool ->
   items s' = ∅ ∧ Forall failedAttempt tr ∧ (length tr < n)%nat).
Proof.
  revert n retry s o s' tr. apply loop_rounds_ind.
  - intros retry s. split; [done|]. split.
    { exists []. rewrite app_nil_r. split; [done | constructor]. }
    split; [|done]. split; [done|]. by intros _.
  - intros n retry s o s1 a H.
    destruct (iteration_return _ _ _ _ _ _ H)
      as (Hi & Hl & [(-> & He & _)|(att & B & -> & _ & _ & _ & Hres & Hs)]); simpl.
    + split; [lia|]. split.
      { exists []. rewrite app_nil_r, Hl. split; [done | constructor]. }
      split.
      * split; [|intros [[=] _]].
        intros ->. by apply earlyReturn_not_max in He.
      * intros ->. apply earlyReturn_empty in He. rewrite Hi.
        split; [done|]. split; [constructor | lia].
    + assert (Hnf : ¬ failedAttempt att).
      { unfold failedAttempt. rewrite Hres. simpl. by intros ?. }
      assert (Ho : o ≠ Error ErrMaxRetriesReached ∧ o ≠ Error ErrEmptyPool).
      { destruct Hs as [(c & _ & -> & _)|(logId & err & _ & Hc & -> & _)]; [done|].
        apply copy_outcome in Hc. simpl in Hc. tauto. }
      split; [lia|]. split.
      { exists []. rewrite app_nil_r, Hl. split; [done|].
        rewrite filter_cons_False by done. constructor. }
      split; [|tauto]. split; [tauto|].
      intros [_ Hall]. by apply Forall_cons in Hall as [? _].
  - intros n retry s s1 a o s2 tr Hit _ (IHlen & (logs & IHlog & IHf2) & IHmax & IHemp).
    destruct (iteration_continue _ _ _ _ _ Hit)
      as (att & l & -> & _ & _ & _ & _ & Hf & Hlog & Hel & _).
    simpl. split; [lia|]. split.
    { exists (l :: logs). rewrite IHlog, Hlog, <- app_assoc. split; [done|].
      rewrite filter_cons_True by done. by constructor. }
    split.
    + rewrite IHmax. split.
      * intros [<- ?]. split; [done | by constructor].
      * intros [[= <-] [_ ?]%Forall_cons]. done.
    + intros Ho. destruct (IHemp Ho) as (? & ? & ?).
      split; [done|]. split; [by constructor | lia].
Qed.

(** A run that made fewer attempts than it had rounds, all of them failed,
    was stopped by a round that returned before the upstream call. *)
Lemma loop_stops_early world n retry s o s' tr :
  rounds world n retry s = (o, s', tr) ->
  (length tr < n)%nat -> Forall failedAttempt tr ->
  exists w s0, early w s0 o ∧ items s0 = items s'.
Proof.
  revert n retry s o s' tr.
  apply (loop_rounds_ind world (fun n _ _ o s' tr =>
    (length tr < n)%nat -> Forall failedAttempt tr ->
    exists w s0, early w s0 o ∧ items s0 = items s')).
  - intros retry s Hlen. simpl in Hlen. lia.
  - intros n retry s o s1 a H _ Hall.
    destruct (iteration_return _ _ _ _ _ _ H)
      as (Hi & _ & [(-> & He & _)|(att & B & -> & _ & _ & _ & Hres & _)]).
    + by exists (world retry), s.
    + apply Forall_cons in Hall as [Hf _].
      unfold failedAttempt in Hf. rewrite Hres in Hf. by simpl in Hf.
  - intros n retry s s1 a o s2 tr Hit _ IH Hlen Hall.
    destruct (iteration_continue _ _ _ _ _ Hit) as (att & l & -> & _).
    simpl in Hlen, Hall. apply Forall_cons in Hall as [_ Hall].
    apply IH; [lia | done].
Qed.

(** From an empty pool a round can only be cancelled, time out, or return
    the balancer's empty-pool error. *)
Lemma early_empty_pool w s o :
  early w s o -> items s = ∅ ->
  o = Error ErrEmptyPool ∨ o = Error ErrCancelled ∨ o = Error ErrRetryTimeout.
Proof.
  intros He Hempty.
  destruct He as [| |e Hp|item Hp _|item Hp|item c Hp];
    try rewrite Hempty, WeightedRandom_empty in Hp; simplify_eq; eauto.
Qed.

(** An attempt answered with status 200 ends the run, and what the
    client has then received comes from that reply alone. *)
Lemma loop_forwarding world n retry s o s' tr :
  rounds world n retry s = (o, s', tr) ->
  forall a Body,
    a ∈ tr -> a_result a = ChatResp http_StatusOK Body ->
    exists d, written s' = written s ++ d ∧ d `prefix_of` bodyBytes Body ∧
              (o = Nil -> d = bodyBytes Body).
Proof.
  revert n retry s o s' tr.
  apply (loop_rounds_ind world (fun _ _ s o s' tr =>
    forall a Body,
      a ∈ tr -> a_result a = ChatResp http_StatusOK Body ->
      exists d, written s' = written s ++ d ∧ d `prefix_of` bodyBytes Body ∧
                (o = Nil -> d = bodyBytes Body))).
  - intros retry s a Body Hin. by apply elem_of_nil in Hin.
  - intros n retry s o s1 a H a0 Body Hin Hres.
    destruct (iteration_return _ _ _ _ _ _ H)
      as (_ & _ & [(-> & _)|(att & B & -> & _ & _ & _ & Hres' & Hs)]); simpl in Hin.
    { by apply elem_of_nil in Hin. }
    apply list_elem_of_singleton in Hin as ->.
    rewrite Hres in Hres'. injection Hres' as <-.
    destruct Hs as [(c & _ & -> & Hsame)|(logId & err & _ & Hc & -> & _)].
    + exists []. rewrite app_nil_r.
      split; [apply Hsame|]. split; [apply prefix_nil | done].
    + apply ioCopy_spec in Hc as (d & Hw & Hp & Hfull).
      exists d. split; [done|]. split; [done|].
      intros Ho. apply Hfull. by destruct err.
  - intros n retry s s1 a o s2 tr Hit _ IH a0 Body Hin Hres.
    destruct (iteration_continue _ _ _ _ _ Hit)
      as (att & l & -> & _ & _ & _ & _ & Hf & _ & _ & Hsame & _).
    simpl in Hin. apply elem_of_cons in Hin as [->|Hin].
    + unfold failedAttempt in Hf. rewrite Hres in Hf. by simpl in Hf.
    + destruct (IH _ _ Hin Hres) as (d & Hw & ?).
      exists d. split; [|done]. rewrite Hw. f_equal. apply Hsame.
Qed.

(** Whatever the run, the client side never gets ahead of the pipe. *)
Lemma loop_tee world n retry s o s' tr :
  rounds world n retry s = (o, s', tr) ->
  exists d r, written s' = written s ++ d ∧ piped s' = piped s ++ d ++ r.
Proof.
  revert n retry s o s' tr. apply loop_rounds_ind.
  - intros retry s. exists [], []. by rewrite !app_nil_r.
  - intros n retry s o s1 a H.
    destruct (iteration_return _ _ _ _ _ _ H)
      as (_ & _ & [(_ & _ & Hsame)|(att & B & _ & _ & _ & _ & _ & Hs)]).
    + destruct Hsame as (_ & _ & _ & -> & -> & _).
      exists [], []. by rewrite !app_nil_r.
    + destruct Hs as [(c & _ & _ & Hsame)|(logId & err & _ & Hc & _)].
      * destruct Hsame as (_ & _ & _ & -> & -> & _).
        exists [], []. by rewrite !app_nil_r.
      * by apply ioCopy_tee in Hc.
  - intros n retry s s1 a o s2 tr Hit _ (d & r & Hw & Hp).
    destruct (iteration_continue _ _ _ _ _ Hit)
      as (att & l & _ & _ & _ & _ & _ & _ & _ & _ & Hsame & _).
    destruct Hsame as (_ & _ & _ & Hw1 & Hp1 & _).
    exists d, r. by rewrite Hw, Hp, Hw1, Hp1.
Qed.

Lemma sameClientSide_trans s1 s2 s3 :
  sameClientSide s1 s2 -> sameClientSide s2 s3 -> sameClientSide s1 s3.
Proof.
  unfold sameClientSide. intros (?&?&?&?&?&?) (?&?&?&?&?&?).
  repeat split; congruence.
Qed.

Lemma sameClientSide_refl s : sameClientSide s s.
Proof. by repeat split. Qed.

Lemma loop_store_failure world n retry s o s' tr :
  rounds world n retry s = (o, s', tr) ->
  forall a Body c,
    a ∈ tr -> a_result a = ChatResp http_StatusOK Body ->
    saveChatLog (world (Z.to_nat (a_retry a))) = inl c ->
    o = Error (ErrExternal c) ∧ sameClientSide s s'.
Proof.
  revert n retry s o s' tr.
  apply (loop_rounds_ind world (fun _ _ s o s' tr =>
    forall a Body c,
      a ∈ tr -> a_result a = ChatResp http_StatusOK Body ->
      saveChatLog (world (Z.to_nat (a_retry a))) = inl c ->
      o = Error (ErrExternal c) ∧ sameClientSide s s')).
  - intros retry s a Body c Hin. by apply elem_of_nil in Hin.
  - intros n retry s o s1 a H a0 Body c Hin Hres Hsave.
    destruct (iteration_return _ _ _ _ _ _ H)
      as (_ & _ & [(-> & _)|(att & B & -> & Hr & _ & _ & _ & Hs)]); simpl in Hin.
    { by apply elem_of_nil in Hin. }
    apply list_elem_of_singleton in Hin as ->.
    rewrite Hr, Nat2Z.id in Hsave.
    destruct Hs as [(c' & Hsv & -> & Hsame)|(logId & err & Hsv & _)];
      rewrite Hsave in Hsv; [|done].
    injection Hsv as <-. done.
  - intros n retry s s1 a o s2 tr Hit _ IH a0 Body c Hin Hres Hsave.
    destruct (iteration_continue _ _ _ _ _ Hit)
      as (att & l & -> & _ & _ & _ & _ & Hf & _ & _ & Hsame & _).
    simpl in Hin. apply elem_of_cons in Hin as [->|Hin].
    + unfold failedAttempt in Hf. rewrite Hres in Hf. by simpl in Hf.
    + destruct (IH _ _ _ Hin Hres Hsave) as [-> ?].
      split; [done|]. by eapply sameClientSide_trans.
Qed.

Lemma keysLoaded_subseteq (m1 m2 : gmap N Z) :
  dom m1 ⊆ dom m2 -> keysLoaded llmproviders m2 -> keysLoaded llmproviders m1.
Proof.
  intros Hsub H k Hk. apply H. apply elem_of_dom. apply Hsub.
  by apply elem_of_dom.
Qed.

Lemma keysLoaded_IndexFunc (m : gmap N Z) k :
  keysLoaded llmproviders m -> is_Some (m !! k) ->
  is_Some (IndexFunc llmproviders k).
Proof.
  intros H Hk. destruct (IndexFunc llmproviders k) as [r|] eqn:E; [eauto|].
  destruct (H k Hk) as (mp & Hin & Hid).
  by destruct (IndexFunc_None _ _ E mp Hin).
Qed.

Lemma loop_index_safe world n retry s o s' tr :
  rounds world n retry s = (o, s', tr) ->
  keysLoaded llmproviders (items s) ->
  o ≠ Panic IndexOutOfRange ∧
  Forall (fun a => keysLoaded llmproviders (a_pool a) ∧
                   is_Some (IndexFunc llmproviders (a_item a))) tr ∧
  keysLoaded llmproviders (items s').
Proof.
  revert n retry s o s' tr.
  apply (loop_rounds_ind world (fun _ _ s o s' tr =>
    keysLoaded llmproviders (items s) ->
    o ≠ Panic IndexOutOfRange ∧
    Forall (fun a => keysLoaded llmproviders (a_pool a) ∧
                     is_Some (IndexFunc llmproviders (a_item a))) tr ∧
    keysLoaded llmproviders (items s'))).
  - intros retry s Hk. split; [done|]. split; [constructor | done].
  - intros n retry s o s1 a H Hk.
    destruct (iteration_return _ _ _ _ _ _ H)
      as (Hi & _ & [(-> & He & _)|(att & B & -> & _ & Hp & Hpick & _ & Hs)]);
      rewrite Hi; simpl.
    + split; [|split; [constructor | done]].
      intros ->. inversion He as [| | |item Hpick Hnone| |]; subst.
      apply WeightedRandom_lookup in Hpick.
      destruct (keysLoaded_IndexFunc _ _ Hk Hpick) as [r Hr]. congruence.
    + split.
      { destruct Hs as [(c & _ & -> & _)|(logId & err & _ & Hc & -> & _)]; [done|].
        apply copy_outcome in Hc. simpl in Hc. apply Hc. }
      split; [|done]. constructor; [|constructor]. rewrite Hp.
      split; [done|]. eapply keysLoaded_IndexFunc; [done|].
      by eapply WeightedRandom_lookup.
  - intros n retry s s1 a o s2 tr Hit _ IH Hk.
    pose proof (iteration_continue_dom _ _ _ _ _ Hit) as Hsub.
    destruct (iteration_continue _ _ _ _ _ Hit)
      as (att & l & -> & _ & Hp & _ & Hpick & _).
    destruct IH as (? & ? & ?); [by eapply keysLoaded_subseteq|].
    split; [done|]. split; [|done]. simpl. constructor; [|done].
    rewrite Hp. split; [done|]. apply (keysLoaded_IndexFunc (items s)); [done|].
    by eapply WeightedRandom_lookup.
Qed.

Lemma timer_never_fired t :
  1 <= TimeOut_ <= 9223372036 ->
  timerFired t (timeoutDuration TimeOut_) t = false.
Proof.
  intros H. unfold timerFired, timeoutDuration, go_mul.
  rewrite wrap64_id by (unfold in_int64, int64_min, int64_max; lia).
  apply Z.leb_gt. lia.
Qed.

(** With a timeout of at least one second the timer case of the
    [select] is never taken. *)
Lemma loop_never_times_out world n retry s o s' tr :
  1 <= TimeOut_ <= 9223372036 ->
  rounds world n retry s = (o, s', tr) ->
  o ≠ Error ErrRetryTimeout.
Proof.
  intros HT. revert n retry s o s' tr. apply loop_rounds_ind.
  - done.
  - intros n retry s o s1 a H.
    destruct (iteration_return _ _ _ _ _ _ H)
      as (_ & _ & [(-> & He & _)|(att & B & -> & _ & _ & _ & _ & Hs)]).
    + intros ->. inversion He as [|Hf|e He'| | |]; subst.
      * by rewrite timer_never_fired in Hf.
      * by apply WeightedRandom_error in He' as [[? _]|?].
    + destruct Hs as [(c & _ & -> & _)|(logId & err & _ & Hc & -> & _)]; [done|].
      apply copy_outcome in Hc. simpl in Hc. apply Hc.
  - done.
Qed.
(** Whether the timer of a [select] is ready does not depend on when the
    [select] runs: the timer is made there. *)
Lemma timerFired_same t t' d : timerFired t d t = timerFired t' d t'.
Proof.
  unfold timerFired.
  destruct (Z.leb_spec (t + d) t), (Z.leb_spec (t' + d) t'); (done || lia).
Qed.

Lemma timer_ready_returns w retry s :
  timerFired (now s + idle w) (timeoutDuration TimeOut_) (now s + idle w)
    = true ->
  exists o, round w retry s = (Return o (elapse s (idle w)), None).
Proof.
  unfold iteration. simpl. intros ->.
  destruct (ctxDone w); simpl; [destruct (selectFirst w)|]; eauto.
Qed.

(** The retry-timeout error is returned before any attempt or not at
    all. *)
Lemma loop_timeout_no_attempt world n retry s o s' tr :
  rounds world n retry s = (o, s', tr) ->
  o = Error ErrRetryTimeout ->
  tr = [] ∧ timerFired 0 (timeoutDuration TimeOut_) 0 = true.
Proof.
  revert n retry s o s' tr.
  apply (loop_rounds_ind world (fun _ _ _ o _ tr =>
    o = Error ErrRetryTimeout ->
    tr = [] ∧ timerFired 0 (timeoutDuration TimeOut_) 0 = true)).
  - done.
  - intros n retry s o s1 a H ->.
    destruct (iteration_return _ _ _ _ _ _ H)
      as (_ & _ & [(-> & He & _)|(att & B & _ & _ & _ & _ & _ & Hs)]).
    + split; [done|]. inversion He as [|Hf|e Hp| | |]; subst.
      * by rewrite (timerFired_same 0 (now s + idle (world retry))).
      * by apply WeightedRandom_error in Hp as [[? _]|?].
    + destruct Hs as [(c & _ & [=] & _)|(logId & err & _ & Hc & Ho & _)].
      apply copy_outcome in Hc. simpl in Hc.
      destruct Hc as (_ & _ & Hnt & _). by rewrite <- Ho in Hnt.
  - intros n retry s s1 a o s2 tr Hit _ IH Ho.
    destruct (IH Ho) as [_ Hf].
    rewrite (timerFired_same 0 (now s + idle (world retry))) in Hf.
    destruct (timer_ready_returns (world retry) (Z.of_nat retry) s Hf)
      as [o' Heq].
    rewrite Heq in Hit. discriminate Hit.
Qed.
End DispatchFacts.

(** ** Pool resolution *)

Section ResolveFacts.
Variable style : string.
Variable bf : before.

Lemma rejects_allows flag need : rejects flag need = false <-> allows flag need.
Proof.
  unfold rejects, allows.
  destruct flag as [[|]|], need; simpl; naive_solver.
Qed.

Lemma providerMap_fold_lookup l : forall (m0 : gmap N Provider.t) k p,
  foldl (fun m p => <[Provider.ID p := p]> m) m0 l !! k = Some p ->
  (p ∈ l ∧ Provider.ID p = k) ∨ m0 !! k = Some p.
Proof.
  induction l as [|x l IH]; intros m0 k p; simpl; [by right|].
  intros H. apply IH in H as [[Hin Hid]|H].
  - left. split; [by apply list_elem_of_further | done].
  - destruct (decide (Provider.ID x = k)) as [Heq|Hne].
    + rewrite <- Heq, lookup_insert_eq in H. injection H as <-.
      left. split; [apply list_elem_of_here | done].
    + rewrite lookup_insert_ne in H by done. by right.
Qed.

Lemma providerMap_fold_keep l : forall (m0 : gmap N Provider.t) k,
  is_Some (m0 !! k) ->
  is_Some (foldl (fun m p => <[Provider.ID p := p]> m) m0 l !! k).
Proof.
  induction l as [|x l IH]; intros m0 k Hk; simpl; [done|].
  apply IH. destruct (decide (Provider.ID x = k)) as [<-|Hne].
  - rewrite lookup_insert_eq. eauto.
  - by rewrite lookup_insert_ne.
Qed.

Lemma providerMap_fold_mem l : forall (m0 : gmap N Provider.t) p,
  p ∈ l ->
  is_Some (foldl (fun m p => <[Provider.ID p := p]> m) m0 l !! Provider.ID p).
Proof.
  induction l as [|x l IH]; intros m0 p Hin; simpl.
  - by apply elem_of_nil in Hin.
  - apply elem_of_cons in Hin as [->|Hin]; [|by apply IH].
    apply providerMap_fold_keep. rewrite lookup_insert_eq. eauto.
Qed.

Lemma buildProviderMap_lookup provideritems k p :
  buildProviderMap provideritems !! k = Some p ->
  p ∈ provideritems ∧ Provider.ID p = k.
Proof.
  intros H. by apply providerMap_fold_lookup in H as [?|H].
Qed.

Lemma findProviders_elem db ids p :
  p ∈ findProvidersByIDsAndType db ids style ->
  p ∈ providers db ∧ Provider.ID p ∈ ids ∧ Provider.Type_ p = style.
Proof.
  unfold findProvidersByIDsAndType. rewrite list_elem_of_filter. tauto.
Qed.

(** On the providers the query returns, the guards of the loop are the
    eligibility of the specification. *)
Lemma keeps_eligible db ids mp :
  let provideritems := findProvidersByIDsAndType db ids style in
  keeps style bf (buildProviderMap provideritems) mp = true <->
  eligible style bf provideritems mp.
Proof.
  intros provideritems. unfold keeps, eligible.
  rewrite <- !rejects_allows.
  destruct (rejects (ModelWithProvider.ToolCall mp) _);
    [split; [done | intros (_ & ? & _); done]|].
  destruct (rejects (ModelWithProvider.StructuredOutput mp) _);
    [split; [done | intros (_ & _ & ? & _); done]|].
  destruct (rejects (ModelWithProvider.Image mp) _);
    [split; [done | intros (_ & _ & _ & ?); done]|].
  destruct (buildProviderMap provideritems !! _) as [p|] eqn:Hp.
  - pose proof (buildProviderMap_lookup _ _ _ Hp) as [Hin Hid].
    pose proof (findProviders_elem _ _ _ Hin) as (_ & _ & Hty).
    rewrite bool_decide_eq_true. split; [|done].
    intros _. split; [|done]. by exists p.
  - split; [done|]. intros [(p & Hin & Hid & _) _].
    apply (providerMap_fold_mem _ ∅) in Hin as [q Hq].
    unfold buildProviderMap in Hp. rewrite Hid in Hq. congruence.
Qed.

Section Items.
Variable pm : gmap N Provider.t.

Lemma buildItems_fold_lookup l : forall (m0 : gmap N Z) k w,
  foldl (addItem style bf pm) m0 l !! k = Some w ->
  (exists mp, mp ∈ l ∧ ModelWithProvider.ID mp = k ∧
              keeps style bf pm mp = true ∧
              ModelWithProvider.Weight mp = w)
  ∨ m0 !! k = Some w.
Proof.
  induction l as [|x l IH]; intros m0 k w; simpl; [by right|].
  intros H. apply IH in H as [(mp & Hin & ?)|H].
  - left. exists mp. split; [by apply list_elem_of_further | done].
  - unfold addItem in H. destruct (keeps style bf pm x) eqn:Hk; [|by right].
    destruct (decide (ModelWithProvider.ID x = k)) as [Heq|Hne].
    + rewrite <- Heq, lookup_insert_eq in H. injection H as <-.
      left. exists x. split; [apply list_elem_of_here | done].
    + rewrite lookup_insert_ne in H by done. by right.
Qed.

Lemma buildItems_fold_keep l : forall (m0 : gmap N Z) k,
  is_Some (m0 !! k) -> is_Some (foldl (addItem style bf pm) m0 l !! k).
Proof.
  induction l as [|x l IH]; intros m0 k Hk; simpl; [done|].
  apply IH. unfold addItem. destruct (keeps style bf pm x); [|done].
  destruct (decide (ModelWithProvider.ID x = k)) as [<-|Hne].
  - rewrite lookup_insert_eq. eauto.
  - by rewrite lookup_insert_ne.
Qed.

Lemma buildItems_fold_kept l : forall (m0 : gmap N Z) mp,
  mp ∈ l -> keeps style bf pm mp = true ->
  is_Some (foldl (addItem style bf pm) m0 l !! ModelWithProvider.ID mp).
Proof.
  induction l as [|x l IH]; intros m0 mp Hin Hk; simpl.
  - by apply elem_of_nil in Hin.
  - apply elem_of_cons in Hin as [->|Hin]; [|by apply IH].
    apply buildItems_fold_keep. unfold addItem. rewrite Hk.
    rewrite lookup_insert_eq. eauto.
Qed.

Lemma buildItems_keys l k :
  is_Some (buildItems style bf pm l !! k) <->
  exists mp, mp ∈ l ∧ ModelWithProvider.ID mp = k ∧
             keeps style bf pm mp = true.
Proof.
  split.
  - intros [w H]. apply buildItems_fold_lookup in H as [(mp & ? & ? & ? & _)|H];
      [eauto | by rewrite lookup_empty in H].
  - intros (mp & Hin & <- & Hk). by apply buildItems_fold_kept.
Qed.

Lemma buildItems_keysLoaded l : keysLoaded l (buildItems style bf pm l).
Proof.
  intros k Hk. apply buildItems_keys in Hk as (mp & ? & ? & _). eauto.
Qed.
End Items.

Lemma NoDup_fmap_eq {A B} (f : A -> B) (l : list A) x y :
  NoDup (f <$> l) -> x ∈ l -> y ∈ l -> f x = f y -> x = y.
Proof.
  induction l as [|z l IH]; simpl; [by intros _ ?%elem_of_nil|].
  intros [Hz Hnd]%NoDup_cons [->|Hx]%elem_of_cons [->|Hy]%elem_of_cons Hf;
    [done | | | by apply IH].
  - destruct Hz. rewrite Hf. by apply list_elem_of_fmap_2.
  - destruct Hz. rewrite <- Hf. by apply list_elem_of_fmap_2.
Qed.

Lemma checkItems_inr (m m' : gmap N Z) : checkItems m = inr m' -> m' = m.
Proof. unfold checkItems. case_bool_decide; congruence. Qed.

Lemma resolvePool_keysLoaded db faults pool :
  resolvePool db faults style bf = inr pool ->
  keysLoaded (p_llmproviders pool) (p_items pool).
Proof.
  unfold resolvePool.
  destruct (ProvidersBymodelsName db faults (model bf)) as [e|lim]; [done|].
  destruct (Providers lim) as [|mp l] eqn:El; [done|].
  destruct (failProviders faults); [done|].
  destruct (findProvidersByIDsAndType _ _ _) as [|p ps]; [done|].
  destruct (checkItems _) as [e|m] eqn:Hc; [done|].
  intros [= <-]. simpl. apply checkItems_inr in Hc as ->.
  apply buildItems_keysLoaded.
Qed.
End ResolveFacts.

(** ** Whole runs *)

Import Scenario.

Lemma scenario_pool maxRetry timeOut :
  resolvePool (store maxRetry timeOut 1 1) noFaults openai request
  = inr (pool maxRetry timeOut 1 1).
Proof. vm_compute. reflexivity. Qed.

Lemma dispatch_inv style bf pool t0 world o s' tr :
  dispatch style bf pool t0 world = (o, s', tr) ->
  (p_MaxRetry pool < 0 ∧ o = Panic MakeChanSize ∧
   s' = initState (p_items pool) t0 ∧ tr = [])
  ∨ (0 <= p_MaxRetry pool ∧
     loop style bf (p_llmproviders pool) (p_providerMap pool) (p_TimeOut pool)
          t0 world (Z.to_nat (p_MaxRetry pool)) 0 (initState (p_items pool) t0)
     = (o, s', tr)).
Proof.
  unfold dispatch. destruct (p_MaxRetry pool <? 0) eqn:E.
  - apply Z.ltb_lt in E. intros [= <- <- <-]. by left.
  - apply Z.ltb_ge in E. right. done.
Qed.

(** With a timeout between one second and the largest that
    [time.Second * TimeOut] can hold, no run returns the retry-timeout
    error, whatever time passes between or during the attempts. *)
Lemma dispatch_never_times_out style bf pool t0 world o s' tr :
  1 <= p_TimeOut pool <= 9223372036 ->
  dispatch style bf pool t0 world = (o, s', tr) ->
  o ≠ Error ErrRetryTimeout.
Proof.
  intros HT H.
  apply dispatch_inv in H as [(_ & -> & _)|[_ H]]; [done|].
  by eapply loop_never_times_out.
Qed.

Lemma errorLogs_status xs logs :
  Forall2 errorLogOf xs logs ->
  Forall (fun l => ChatLog.Status l = "error") logs.
Proof.
  induction 1 as [|a l xs logs [Hs _] _ IH]; constructor; done.
Qed.

(** ** The repository *)

Lemma firstModel_elem rows m : firstModel rows = Some m -> m ∈ rows.
Proof.
  unfold firstModel.
  assert (forall acc,
            foldl (fun acc r =>
                     match acc with
                     | None => Some r
                     | Some a => if (Model.ID r <? Model.ID a)%N
                                 then Some r else Some a
                     end) acc rows = Some m ->
            m ∈ rows ∨ acc = Some m) as H.
  { induction rows as [|r rows IH]; intros acc; simpl; [by right|].
    intros Hf. apply IH in Hf as [Hin|Hacc].
    - left. by apply list_elem_of_further.
    - destruct acc as [a|].
      + destruct (Model.ID r <? Model.ID a)%N; simplify_eq.
        * left. apply list_elem_of_here.
        * by right.
      + simplify_eq. left. apply list_elem_of_here. }
  intros Hf. by apply H in Hf as [?|?].
Qed.

(** The model lookup, which names [deleted_at] in its condition, never
    returns a soft-deleted row. *)
Lemma findModelByName_not_deleted db modelsName m :
  findModelByName db modelsName = Some m ->
  m ∈ models db ∧ Model.Name m = modelsName ∧ Model.DeletedAt m = None.
Proof.
  unfold findModelByName. intros H%firstModel_elem.
  apply list_elem_of_filter in H. tauto.
Qed.

Lemma deleted_model_not_found db faults modelsName lim :
  ProvidersBymodelsName db faults modelsName = inr lim ->
  exists m, m ∈ models db ∧ Model.Name m = modelsName ∧
            Model.DeletedAt m = None ∧ MaxRetry lim = Model.MaxRetry m.
Proof.
  unfold ProvidersBymodelsName. destruct (failModel faults); [done|].
  destruct (findModelByName db modelsName) as [m|] eqn:Hm; [|done].
  destruct (failMappings faults); [done|].
  destruct (findMappingsByModelID db (Model.ID m)); [done|].
  intros [= <-]. exists m. apply findModelByName_not_deleted in Hm. tauto.
Qed.

Lemma findMappings_elem db modelID mp :
  mp ∈ findMappingsByModelID db modelID <->
  mp ∈ model_with_providers db ∧ ModelWithProvider.ModelID mp = modelID ∧
  ModelWithProvider.DeletedAt mp = None.
Proof. unfold findMappingsByModelID. rewrite list_elem_of_filter. tauto. Qed.

Lemma findProviders_not_deleted db ids style p :
  p ∈ findProvidersByIDsAndType db ids style ->
  p ∈ providers db ∧ Provider.DeletedAt p = None.
Proof. unfold findProvidersByIDsAndType. rewrite list_elem_of_filter. tauto. Qed.

Lemma keeps_provider style bf pm mp :
  keeps style bf pm mp = true ->
  is_Some (pm !! ModelWithProvider.ProviderID mp).
Proof.
  unfold keeps.
  destruct (rejects _ _); [done|]. destruct (rejects _ _); [done|].
  destruct (rejects _ _); [done|].
  destruct (pm !! _); [eauto | done].
Qed.

(** What a pool that [resolvePool] returns was built from. *)
Lemma resolvePool_inv db faults style bf pool :
  resolvePool db faults style bf = inr pool ->
  exists m,
    findModelByName db (model bf) = Some m ∧
    p_llmproviders pool = findMappingsByModelID db (Model.ID m) ∧
    p_providerMap pool =
      buildProviderMap
        (findProvidersByIDsAndType db (providerIds (p_llmproviders pool)) style) ∧
    p_items pool = buildItems style bf (p_providerMap pool) (p_llmproviders pool) ∧
    p_MaxRetry pool = Model.MaxRetry m ∧ p_TimeOut pool = Model.TimeOut m.
Proof.
  unfold resolvePool, ProvidersBymodelsName.
  destruct (failModel faults); [done|].
  destruct (findModelByName db (model bf)) as [m|]; [|done].
  destruct (failMappings faults); [done|].
  destruct (findMappingsByModelID db (Model.ID m)) as [|mp0 l] eqn:El; [done|].
  cbn [Providers MaxRetry TimeOut].
  destruct (failProviders faults); [done|].
  destruct (findProvidersByIDsAndType _ _ _) as [|p ps] eqn:Ep; [done|].
  destruct (checkItems _) as [e|m0] eqn:Hc; [done|].
  intros [= <-]. apply checkItems_inr in Hc as ->.
  exists m. cbn [p_llmproviders p_providerMap p_items p_MaxRetry p_TimeOut].
  by rewrite Ep.
Qed.

(** The two stores of deleted rows are refused: a live model whose only
    mapping is soft-deleted has no mapping, and a soft-deleted model is
    not found. *)
Example soft_deleted_store_is_refused :
  outcome (run storeDeleted request (fun _ => world 0 0 (chatAll 200)))
    = Error ErrNoMappings ∧
  outcome (run storeModelDeleted request (fun _ => world 0 0 (chatAll 200)))
    = Error ErrModelNotFound.
Proof. split; vm_compute; reflexivity. Qed.

(** ** The clock and the log writer *)

Section ClockFacts.
Variable style : string.
Variable bf : before.
Variable llmproviders : list ModelWithProvider.t.
Variable providerMap : gmap N Provider.t.
Variable TimeOut_ : Z.
Variable proxyStart : Z.

Local Abbreviation round :=
  (iteration style bf llmproviders providerMap TimeOut_ proxyStart).
Local Abbreviation rounds :=
  (loop style bf llmproviders providerMap TimeOut_ proxyStart).

(** What a round does to the clock, and the times its log carries. *)
Lemma round_clock w retry s st a :
  round w retry s = (st, a) ->
  (exists s1 l,
     st = Continue s1 ∧ retryErrLog s1 = retryErrLog s ++ [l] ∧
     chat_logs s1 = chat_logs s ∧
     now s1 = now s + idle w + chatTime w ∧
     ChatLog.ProxyTime l = now s + idle w - proxyStart ∧
     ChatLog.Retry l = retry)
  ∨ (exists o s1,
       st = Return o s1 ∧ retryErrLog s1 = retryErrLog s ∧
       ((chat_logs s1 = chat_logs s ∧
         (now s1 = now s + idle w ∨ now s1 = now s + idle w + chatTime w))
        ∨ (exists row,
             chat_logs s1 = chat_logs s ++ [row] ∧
             now s1 = now s + idle w + chatTime w ∧
             ChatLog.ProxyTime row = now s + idle w - proxyStart ∧
             ChatLog.Retry row = retry))).
Proof.
  unfold iteration. simpl.
  destruct (select _ _ _);
    [intros [= <- <-]; right; eexists _, _; split; [done|]; split; [done|];
     left; split; [done | by left]..|].
  destruct (WeightedRandom (items s) (draw w)) as [e|item].
  { intros [= <- <-]. right. eexists _, _. split; [done|]. split; [done|].
    left. split; [done | by left]. }
  destruct (IndexFunc llmproviders item) as [[i mp]|].
  2:{ intros [= <- <-]. right. eexists _, _. split; [done|]. split; [done|].
      left. split; [done | by left]. }
  destruct (providerMap !! _) as [p|].
  2:{ intros [= <- <-]. right. eexists _, _. split; [done|]. split; [done|].
      left. split; [done | by left]. }
  destruct (newProvider w style _) as [c|].
  { intros [= <- <-]. right. eexists _, _. split; [done|]. split; [done|].
    left. split; [done | by left]. }
  intros [= <- <-].
  unfold classify. destruct (chat w (ModelWithProvider.ID mp)) as [e|code Body].
  - left. eexists _, _. by repeat split.
  - case_bool_decide as Hcode.
    + left. case_bool_decide; eexists _, _; by repeat split.
    + right. unfold succeed. destruct (saveChatLog w) as [c|logId].
      * eexists _, _. split; [done|]. split; [done|]. left.
        split; [done | by right].
      * simpl. destruct (ioCopy Body _ _ _ _) as [[err wr] pi].
        destruct err as [e|]; eexists _, _; (split; [done|]);
          (split; [done|]); right; eexists; by repeat split.
Qed.

(** Along a run the clock only advances; each failure log was sent
    between the start and the end, later logs later; the success row is
    created at the end. *)
Lemma loop_clock world n retry s o s' tr :
  (forall i, 0 <= idle (world i) ∧ 0 <= chatTime (world i)) ->
  rounds world n retry s = (o, s', tr) ->
  now s <= now s' ∧
  exists logs rows,
    retryErrLog s' = retryErrLog s ++ logs ∧
    chat_logs s' = chat_logs s ++ rows ∧
    Forall (fun t => now s <= t <= now s')
           (handedOver proxyStart world <$> logs) ∧
    StronglySorted Z.le (handedOver proxyStart world <$> logs) ∧
    Forall (fun T => T = now s') (handedOver proxyStart world <$> rows).
Proof.
  intros Hpos. revert n retry s o s' tr.
  apply (loop_rounds_ind style bf llmproviders providerMap TimeOut_ proxyStart
           world (fun _ _ s _ s' _ =>
    now s <= now s' ∧
    exists logs rows,
      retryErrLog s' = retryErrLog s ++ logs ∧
      chat_logs s' = chat_logs s ++ rows ∧
      Forall (fun t => now s <= t <= now s')
             (handedOver proxyStart world <$> logs) ∧
      StronglySorted Z.le (handedOver proxyStart world <$> logs) ∧
      Forall (fun T => T = now s') (handedOver proxyStart world <$> rows))).
  - intros retry s. split; [lia|]. exists [], []. rewrite !app_nil_r.
    repeat split; constructor.
  - intros n retry s o s1 a H. destruct (Hpos retry) as [Hi Hc].
    destruct (round_clock _ _ _ _ _ H)
      as [(s2 & l & [=] & _)|(o' & s2 & [= <- <-] & Hl & Hrows)].
    destruct Hrows as [[Hcl Hn]|(row & Hcl & Hn & Hpt & Hrt)].
    + split; [lia|]. exists [], []. rewrite !app_nil_r.
      repeat split; try done; constructor.
    + split; [lia|]. exists [], [row]. rewrite app_nil_r.
      split; [done|]. split; [done|]. split; [constructor|].
      split; [constructor|]. constructor; [|constructor].
      unfold handedOver. rewrite Hpt, Hrt, Nat2Z.id, Hn. lia.
  - intros n retry s s1 a o s2 tr Hit _ (Hle & logs & rows & Hl & Hc & Hb & Hs & Hr).
    destruct (Hpos retry) as [Hi Hct].
    destruct (round_clock _ _ _ _ _ Hit)
      as [(s1' & l & [= <-] & Hl1 & Hc1 & Hn & Hpt & Hrt)|(o' & s1' & [=] & _)].
    assert (Hh : handedOver proxyStart world l = now s1).
    { unfold handedOver. rewrite Hpt, Hrt, Nat2Z.id, Hn. lia. }
    split; [lia|]. exists (l :: logs), rows.
    rewrite Hl, Hl1, Hc, Hc1, <- app_assoc. split; [done|]. split; [done|].
    rewrite fmap_cons, Hh. split.
    { constructor; [lia|]. eapply Forall_impl; [exact Hb|]. simpl. lia. }
    split; [|done]. constructor; [done|].
    eapply Forall_impl; [exact Hb|]. simpl. lia.
Qed.
End ClockFacts.

Lemma writerCreatedAt_spec lag :
  (forall i, 0 <= lag i) ->
  forall sent i free,
    Forall2 Z.le sent (writerCreatedAt lag i free sent) ∧
    Forall (Z.le free) (writerCreatedAt lag i free sent) ∧
    StronglySorted Z.le (writerCreatedAt lag i free sent).
Proof.
  intros Hlag. induction sent as [|t sent IH]; intros i free; simpl.
  { repeat split; constructor. }
  specialize (Hlag i).
  destruct (IH (S i) (Z.max t free + lag i)) as (H2 & Hf & Hs).
  split; [constructor; [lia | done]|]. split.
  - constructor; [lia|]. eapply Forall_impl; [exact Hf|]. simpl. lia.
  - by constructor.
Qed.

(** A writer that creates each row the moment it can creates it the
    moment it was sent. *)
Lemma writerCreatedAt_no_lag lag :
  (forall i, lag i = 0) ->
  forall sent i free,
    StronglySorted Z.le sent -> Forall (Z.le free) sent ->
    writerCreatedAt lag i free sent = sent.
Proof.
  intros Hlag. induction sent as [|t sent IH]; intros i free Hs Hf; [done|].
  simpl. apply StronglySorted_inv in Hs as [Hs Ht].
  apply Forall_cons in Hf as [Hft _].
  rewrite Hlag, Z.add_0_r, Z.max_l by lia. f_equal. by apply IH.
Qed.

(** ** The claims *)

(** C1, amended.  The claim speaks of every 2xx reply, but [classify]
    takes the success path for status 200 only.  For every run and every
    attempt of it whose upstream replied 200: the bytes the client has
    received are a prefix of that reply's body, and when the run returns
    [nil] (the copy ended without error) they are the whole body, in
    order; they are also a prefix of what the tee gave the pipe. *)
Theorem client_bytes_prefix_of_upstream
    style bf pool t0 world o s' tr a Body :
  dispatch style bf pool t0 world = (o, s', tr) ->
  a ∈ tr -> a_result a = ChatResp http_StatusOK Body ->
  written s' `prefix_of` bodyBytes Body ∧
  (o = Nil -> written s' = bodyBytes Body) ∧
  written s' `prefix_of` piped s'.
Proof.
  intros H Hin Hres.
  apply dispatch_inv in H as [(_ & _ & _ & ->)|[_ H]].
  { by apply elem_of_nil in Hin. }
  destruct (loop_forwarding _ _ _ _ _ _ _ _ _ _ _ _ _ H a Body Hin Hres)
    as (d & Hw & Hp & Hfull).
  destruct (loop_tee _ _ _ _ _ _ _ _ _ _ _ _ _ H) as (d' & r & Hw' & Hp').
  simpl in Hw, Hw', Hp'. rewrite Hw. split; [done|]. split; [done|].
  rewrite <- Hw, Hw', Hp'. by exists r.
Qed.

Lemma client_bytes_prefix_of_upstream_witness :
  let r := dispatch openai request (pool 3 1 1 1) 0
             (fun _ => world 1 0 (chatAthenB 500)) in
  written (final r) `prefix_of` bodyBytes (bodyOf [Byte.x62]) ∧
  (outcome r = Nil -> written (final r) = bodyBytes (bodyOf [Byte.x62])) ∧
  written (final r) `prefix_of` piped (final r).
Proof.
  intros r.
  apply (client_bytes_prefix_of_upstream openai request (pool 3 1 1 1) 0
           (fun _ => world 1 0 (chatAthenB 500)) (outcome r) (final r)
           (attempts r)
           (mkAttempt 1 (<[2%N := 1]> ∅) 2 (ChatResp 200 (bodyOf [Byte.x62])))).
  - vm_compute. reflexivity.
  - vm_compute. apply list_elem_of_further, list_elem_of_here.
  - reflexivity.
Defined.

(** C1 as stated fails for a 2xx status other than 200: A replies 201 with
    body "a", is dropped from the pool like any failure, and the client
    receives B's body "b", which is no prefix of A's. *)
Lemma client_bytes_2xx_counterexample :
  let r := run (store 3 1 1 1) request (fun _ => world 1 0 (chatAthenB 201)) in
  exists a Body,
    a ∈ attempts r ∧ a_result a = ChatResp 201 Body ∧ is2xx 201 ∧
    ¬ (written (final r) `prefix_of` bodyBytes Body).
Proof.
  intros r.
  exists (mkAttempt 0 (<[1%N := 1]> (<[2%N := 1]> ∅)) 1
            (ChatResp 201 (bodyOf [Byte.x61]))), (bodyOf [Byte.x61]).
  split; [vm_compute; apply list_elem_of_here|].
  split; [reflexivity|]. split; [unfold is2xx; lia|].
  vm_compute. intros [k Hk]. discriminate Hk.
Qed.

(** C2.  In a round that reached the upstream call with a mapping of weight
    [w], [1 <= w] (and [w] a Go [int]), and got status 429: the round
    continues, the mapping stays in the weight map with weight
    [max 1 (w - w / 3)], every other entry is unchanged, and one failure
    log of that round is sent on the log channel. *)
Theorem rate_limit_penalizes
    style bf llmproviders providerMap TimeOut_ proxyStart
    w retry s st att weight Body :
  iteration style bf llmproviders providerMap TimeOut_ proxyStart w retry s
    = (st, Some att) ->
  a_result att = ChatResp http_StatusTooManyRequests Body ->
  a_pool att !! a_item att = Some weight ->
  1 <= weight <= int64_max ->
  exists s1 l,
    st = Continue s1 ∧
    items s1 = <[a_item att := Z.max 1 (weight - weight / 3)]> (a_pool att) ∧
    items s1 !! a_item att = Some (Z.max 1 (weight - weight / 3)) ∧
    retryErrLog s1 = retryErrLog s ++ [l] ∧ errorLogOf att l.
Proof.
  intros Hit Hres Hw Hrange. destruct st as [s1|o s1].
  - destruct (iteration_continue _ _ _ _ _ _ _ _ _ _ _ Hit)
      as (att' & l & [= <-] & _ & Hp & _ & _ & _ & Hlog & Hel & _ & _ & _ & Hpen).
    exists s1, l. split; [done|].
    assert (items s1 = <[a_item att := Z.max 1 (weight - weight / 3)]> (a_pool att))
      as Hitems.
    { rewrite (Hpen _ Hres). unfold penalize. rewrite <- Hp, Hw. simpl.
      by rewrite penalty_value. }
    split; [done|]. split; [by rewrite Hitems, lookup_insert_eq | done].
  - destruct (iteration_return _ _ _ _ _ _ _ _ _ _ _ _ Hit)
      as (_ & _ & [([=] & _)|(att' & B & [= <-] & _ & _ & _ & Hres' & _)]).
    rewrite Hres in Hres'. discriminate Hres'.
Qed.

Lemma rate_limit_penalizes_witness :
  let s := initState (<[1%N := 6]> (<[2%N := 3]> ∅)) 0 in
  let att := mkAttempt 0 (items s) 1 (ChatResp 429 (bodyOf [Byte.x65])) in
  let st := (iteration openai request [mapA 6; mapB 3]
               (buildProviderMap [provA; provB]) 1 0
               (world 3 0 (chatAll 429)) 0 s).1 in
  exists s1 l,
    st = Continue s1 ∧
    items s1 = <[a_item att := Z.max 1 (6 - 6 / 3)]> (a_pool att) ∧
    items s1 !! a_item att = Some (Z.max 1 (6 - 6 / 3)) ∧
    retryErrLog s1 = retryErrLog s ++ [l] ∧ errorLogOf att l.
Proof.
  intros s att st.
  apply (rate_limit_penalizes openai request [mapA 6; mapB 3]
           (buildProviderMap [provA; provB]) 1 0 (world 3 0 (chatAll 429)) 0
           s st att 6 (bodyOf [Byte.x65])).
  - vm_compute. reflexivity.
  - reflexivity.
  - vm_compute. reflexivity.
  - unfold int64_max. lia.
Defined.

(** C3.  When an attempt ends in a transport error or in a status that is
    neither 429 nor 2xx, the picked key is deleted from the weight map: it
    is absent from the pool of every later attempt of the run (so no later
    attempt picks it) and from the pool the run ends with. *)
Theorem hard_failure_removes_mapping
    style bf pool t0 world o s' tr pre a post :
  dispatch style bf pool t0 world = (o, s', tr) ->
  tr = pre ++ a :: post -> hardFailure (a_result a) ->
  (a_item a ∉ dom (items s')) ∧
  Forall (fun b => a_item a ∉ dom (a_pool b) ∧ a_item b ≠ a_item a) post.
Proof.
  intros H Htr Hhard.
  apply dispatch_inv in H as [(_ & _ & _ & ->)|[_ H]].
  { destruct pre; discriminate. }
  by eapply loop_hard_failure.
Qed.

Lemma hard_failure_removes_mapping_witness :
  let r := dispatch openai request (pool 3 1 1 1) 0
             (fun _ => world 1 0 (chatAthenB 500)) in
  (1%N ∉ dom (items (final r))) ∧
  Forall (fun b => 1%N ∉ dom (a_pool b) ∧ a_item b ≠ 1%N)
         [mkAttempt 1 (<[2%N := 1]> ∅) 2 (ChatResp 200 (bodyOf [Byte.x62]))].
Proof.
  intros r.
  apply (hard_failure_removes_mapping openai request (pool 3 1 1 1) 0
           (fun _ => world 1 0 (chatAthenB 500)) (outcome r) (final r)
           (attempts r) []
           (mkAttempt 0 (<[1%N := 1]> (<[2%N := 1]> ∅)) 1
              (ChatResp 500 (bodyOf [Byte.x61])))).
  - vm_compute. reflexivity.
  - vm_compute. reflexivity.
  - simpl. split; [done|]. unfold is2xx. lia.
Defined.

(** C4, amended.  A run makes at most [MaxRetry] attempts and sends exactly
    one failure log per failed attempt, in order; when all attempts failed
    the number of failure logs is the number of attempts.  It returns
    "maximum retry attempts reached" exactly when [MaxRetry] attempts were
    made and all failed.  When the pool runs empty after fewer attempts,
    the error returned is the balancer's empty-pool error instead (unless
    the request is cancelled first), and that error is returned in no
    other case.  The retry-timeout error is returned only before any
    attempt, so it never follows a pool that ran empty. *)
Theorem retry_bound_and_error_logs style bf pool t0 world o s' tr :
  0 <= p_MaxRetry pool ->
  dispatch style bf pool t0 world = (o, s', tr) ->
  Z.of_nat (length tr) <= p_MaxRetry pool ∧
  Forall2 errorLogOf (filter failedAttempt tr) (retryErrLog s') ∧
  (Forall failedAttempt tr -> length (retryErrLog s') = length tr) ∧
  (o = Error ErrMaxRetriesReached <->
   Z.of_nat (length tr) = p_MaxRetry pool ∧ Forall failedAttempt tr) ∧
  (o = Error ErrEmptyPool ->
   items s' = ∅ ∧ Forall failedAttempt tr ∧
   Z.of_nat (length tr) < p_MaxRetry pool) ∧
  (items s' = ∅ -> Forall failedAttempt tr ->
   Z.of_nat (length tr) < p_MaxRetry pool ->
   o = Error ErrEmptyPool ∨ o = Error ErrCancelled ∨ o = Error ErrRetryTimeout) ∧
  (o = Error ErrRetryTimeout -> tr = []).
Proof.
  intros Hmax H.
  apply dispatch_inv in H as [(? & _)|[_ H]]; [lia|].
  assert (Htimer : o = Error ErrRetryTimeout -> tr = []).
  { intros Ho.
    by destruct (loop_timeout_no_attempt _ _ _ _ _ _ _ _ _ _ _ _ _ H Ho). }
  assert (Hearly : items s' = ∅ -> Forall failedAttempt tr ->
            Z.of_nat (length tr) < p_MaxRetry pool ->
            o = Error ErrEmptyPool ∨ o = Error ErrCancelled ∨
            o = Error ErrRetryTimeout).
  { intros Hempty Hall Hlt.
    destruct (loop_stops_early _ _ _ _ _ _ _ _ _ _ _ _ _ H)
      as (w & s0 & He & Hi); [lia | done |].
    eapply early_empty_pool; [exact He | congruence]. }
  apply loop_accounting in H
    as (Hlen & (logs & Hlogs & Hf2) & Hmaxed & Hempty).
  simpl in Hlogs. subst logs.
  split; [lia|]. split; [done|]. split.
  { intros Hall. apply Forall2_length in Hf2. rewrite <- Hf2.
    f_equal. clear -Hall. induction Hall as [|x l Hx _ IH]; [done|].
    by rewrite filter_cons_True, IH by done. }
  split.
  - rewrite Hmaxed. split; intros [? ?]; (split; [lia | done]).
  - split; [|split; [exact Hearly | exact Htimer]].
    intros Ho. destruct (Hempty Ho) as (? & ? & ?).
    split; [done|]. split; [done | lia].
Qed.

Lemma retry_bound_and_error_logs_witness :
  let r := dispatch openai request (pool 5 1 1 1) 0
             (fun _ => world 1 0 (chatAll 500)) in
  Z.of_nat (length (attempts r)) <= 5 ∧
  Forall2 errorLogOf (filter failedAttempt (attempts r)) (retryErrLog (final r)) ∧
  (Forall failedAttempt (attempts r) ->
   length (retryErrLog (final r)) = length (attempts r)) ∧
  (outcome r = Error ErrMaxRetriesReached <->
   Z.of_nat (length (attempts r)) = 5 ∧ Forall failedAttempt (attempts r)) ∧
  (outcome r = Error ErrEmptyPool ->
   items (final r) = ∅ ∧ Forall failedAttempt (attempts r) ∧
   Z.of_nat (length (attempts r)) < 5) ∧
  (items (final r) = ∅ -> Forall failedAttempt (attempts r) ->
   Z.of_nat (length (attempts r)) < 5 ->
   outcome r = Error ErrEmptyPool ∨ outcome r = Error ErrCancelled ∨
   outcome r = Error ErrRetryTimeout) ∧
  (outcome r = Error ErrRetryTimeout -> attempts r = []).
Proof.
  intros r.
  apply (retry_bound_and_error_logs openai request (pool 5 1 1 1) 0
           (fun _ => world 1 0 (chatAll 500)) (outcome r) (final r) (attempts r)).
  - simpl. lia.
  - vm_compute. reflexivity.
Defined.

(** C4 as stated fails on scenario 4 of the specification: two mappings,
    [MaxRetry = 5], every reply 500.  After two failed attempts the pool is
    empty and the third pick returns the balancer's error, not "maximum
    retry attempts reached". *)
Lemma exhausted_pool_counterexample :
  let r := run (store 5 1 1 1) request (fun _ => world 1 0 (chatAll 500)) in
  items (final r) = ∅ ∧ Forall failedAttempt (attempts r) ∧
  length (attempts r) = 2%nat ∧ length (retryErrLog (final r)) = 2%nat ∧
  outcome r ≠ Error ErrMaxRetriesReached.
Proof.
  intros r. split; [vm_compute; reflexivity|].
  split.
  { vm_compute. repeat constructor; discriminate. }
  split; [vm_compute; reflexivity|]. split; [vm_compute; reflexivity|].
  vm_compute. discriminate.
Qed.

(** C5, evaluated where it fails.  Timeout 1 s, [MaxRetry = 5]; before each
    [select] two seconds pass, every call takes 0.3 s and is answered 429.
    The timer of each [select] is new at that [select], so [default] runs
    every time: after 11.5 s the run has made five attempts and returns
    "maximum retry attempts reached", never the retry-timeout error. *)
Example retry_timer_never_fires :
  let r := run (store 5 1 6 3) request (fun _ => stalledWorld) in
  timeoutDuration 1 = 1000000000 ∧
  idle stalledWorld = 2000000000 ∧
  now (final r) = 11500000000 ∧
  a_item <$> attempts r = [1%N; 1%N; 1%N; 1%N; 1%N] ∧
  outcome r = Error ErrMaxRetriesReached ∧
  outcome r ≠ Error ErrRetryTimeout.
Proof.
  intros r. split; [vm_compute; reflexivity|]. split; [reflexivity|].
  split; [vm_compute; reflexivity|]. split; [vm_compute; reflexivity|].
  split; [vm_compute; reflexivity|]. vm_compute. discriminate.
Qed.

(** C6.  With the providers that the query by ids and type returned, the
    keys of the weight map are exactly the IDs of the eligible mappings:
    provider loaded with the request's style, and every capability the
    request needs [null] or [true] on the mapping.  With distinct mapping
    IDs, a mapping is in the map with its weight iff it is eligible, and a
    mapping that is not (an explicit [false] on a needed capability, or no
    loaded provider) is absent.  When no mapping is eligible the result is
    the no-eligible-mapping error. *)
Theorem pool_resolution_keeps_eligible style bf db ids llmproviders :
  let provideritems := findProvidersByIDsAndType db ids style in
  let items0 := buildItems style bf (buildProviderMap provideritems) llmproviders in
  (forall k, is_Some (items0 !! k) <->
             exists mp, mp ∈ llmproviders ∧ ModelWithProvider.ID mp = k ∧
                        eligible style bf provideritems mp) ∧
  (NoDup (ModelWithProvider.ID <$> llmproviders) ->
   forall mp, mp ∈ llmproviders ->
     (items0 !! ModelWithProvider.ID mp = Some (ModelWithProvider.Weight mp) <->
      eligible style bf provideritems mp) ∧
     (¬ eligible style bf provideritems mp ->
      items0 !! ModelWithProvider.ID mp = None)) ∧
  ((forall mp, mp ∈ llmproviders -> ¬ eligible style bf provideritems mp) ->
   checkItems items0 = inl ErrNoEligibleMapping).
Proof.
  intros provideritems items0.
  assert (Hkeys : forall k, is_Some (items0 !! k) <->
             exists mp, mp ∈ llmproviders ∧ ModelWithProvider.ID mp = k ∧
                        eligible style bf provideritems mp).
  { intros k. unfold items0. rewrite buildItems_keys.
    split; intros (mp & ? & ? & Hk); exists mp; (split; [done|]); (split; [done|]);
      by apply (keeps_eligible style bf db ids mp). }
  split; [exact Hkeys|]. split.
  - intros Hnd mp Hin.
    assert (Hnone : ¬ eligible style bf provideritems mp ->
                    items0 !! ModelWithProvider.ID mp = None).
    { intros Hne. apply eq_None_not_Some. intros Hs.
      apply Hkeys in Hs as (mp' & Hin' & Hid & He).
      apply Hne. by rewrite <- (NoDup_fmap_eq _ _ _ _ Hnd Hin' Hin Hid). }
    split; [|exact Hnone]. split.
    + intros Hl.
      assert (is_Some (items0 !! ModelWithProvider.ID mp)) as Hs
        by (rewrite Hl; eauto).
      apply Hkeys in Hs as (mp' & Hin' & Hid & He).
      by rewrite <- (NoDup_fmap_eq _ _ _ _ Hnd Hin' Hin Hid).
    + intros He.
      assert (is_Some (items0 !! ModelWithProvider.ID mp)) as [w Hw].
      { apply Hkeys. by exists mp. }
      rewrite Hw. f_equal.
      apply buildItems_fold_lookup in Hw as [(mp' & Hin' & Hid & _ & <-)|Hw];
        [|by rewrite lookup_empty in Hw].
      by rewrite (NoDup_fmap_eq _ _ _ _ Hnd Hin' Hin Hid).
  - intros Hnone. unfold checkItems.
    rewrite bool_decide_eq_true_2; [done|].
    apply map_size_empty_iff, map_empty. intros k.
    apply eq_None_not_Some. intros Hs.
    apply Hkeys in Hs as (mp & Hin & _ & He). by apply (Hnone mp).
Qed.

Lemma pool_resolution_keeps_eligible_witness :
  let llmproviders := [mapNoTools; mapB 1] in
  let provideritems :=
    findProvidersByIDsAndType (store 3 1 1 1) [10%N; 11%N] openai in
  let items0 :=
    buildItems openai requestWithTools (buildProviderMap provideritems)
               llmproviders in
  items0 = <[2%N := 1]> ∅ ∧
  (items0 !! 2%N = Some 1 <->
   eligible openai requestWithTools provideritems (mapB 1)) ∧
  (¬ eligible openai requestWithTools provideritems mapNoTools ->
   items0 !! 1%N = None).
Proof.
  intros llmproviders provideritems items0.
  split; [vm_compute; reflexivity|].
  destruct (pool_resolution_keeps_eligible openai requestWithTools
              (store 3 1 1 1) [10%N; 11%N] llmproviders) as (_ & Hmp & _).
  assert (Hnd : NoDup (ModelWithProvider.ID <$> llmproviders)).
  { vm_compute. repeat constructor; set_solver. }
  split.
  - apply (Hmp Hnd (mapB 1)). apply list_elem_of_further, list_elem_of_here.
  - apply (Hmp Hnd mapNoTools). apply list_elem_of_here.
Defined.

(** C7.  Each of the three lookups of a request returns live rows only:
    the model lookup by name, the mapping lookup by [model_id] and the
    provider lookup by ids and type.  So in the pool that [resolvePool]
    builds, the limits are those of a live model of the requested name,
    the mappings are exactly the live mappings of that model, every
    provider of the provider map is a live row, and every key of the
    weight map is the ID of a live mapping whose provider is live: no
    soft-deleted model, mapping or provider appears in a request's
    pool. *)
Theorem soft_deleted_rows_never_reach_the_pool db faults style bf pool :
  resolvePool db faults style bf = inr pool ->
  (forall m, findModelByName db (model bf) = Some m ->
             Model.DeletedAt m = None) ∧
  (forall modelID,
     Forall (fun mp => ModelWithProvider.DeletedAt mp = None)
            (findMappingsByModelID db modelID)) ∧
  (forall ids,
     Forall (fun p => Provider.DeletedAt p = None)
            (findProvidersByIDsAndType db ids style)) ∧
  (exists m, m ∈ models db ∧ Model.Name m = model bf ∧
     Model.DeletedAt m = None ∧
     p_MaxRetry pool = Model.MaxRetry m ∧ p_TimeOut pool = Model.TimeOut m ∧
     forall mp, mp ∈ p_llmproviders pool <->
       mp ∈ model_with_providers db ∧
       ModelWithProvider.ModelID mp = Model.ID m ∧
       ModelWithProvider.DeletedAt mp = None) ∧
  (forall k p, p_providerMap pool !! k = Some p ->
     p ∈ providers db ∧ Provider.ID p = k ∧ Provider.DeletedAt p = None) ∧
  (forall k, is_Some (p_items pool !! k) ->
     exists mp p,
       mp ∈ p_llmproviders pool ∧ ModelWithProvider.ID mp = k ∧
       ModelWithProvider.DeletedAt mp = None ∧
       p_providerMap pool !! ModelWithProvider.ProviderID mp = Some p ∧
       Provider.DeletedAt p = None).
Proof.
  intros Hr.
  destruct (resolvePool_inv _ _ _ _ _ Hr)
    as (m & Hm & Hl & Hpm & Hitems & Hmax & Htime).
  assert (Hprov : forall k p, p_providerMap pool !! k = Some p ->
            p ∈ providers db ∧ Provider.ID p = k ∧ Provider.DeletedAt p = None).
  { intros k p Hk. rewrite Hpm in Hk.
    apply buildProviderMap_lookup in Hk as [Hin Hid].
    apply findProviders_not_deleted in Hin. tauto. }
  split.
  { intros m' Hm'. by apply findModelByName_not_deleted in Hm' as (_ & _ & ?). }
  split.
  { intros modelID. apply Forall_forall. intros mp Hin.
    by apply findMappings_elem in Hin as (_ & _ & ?). }
  split.
  { intros ids. apply Forall_forall. intros p Hin.
    by apply findProviders_not_deleted in Hin as [_ ?]. }
  split.
  { exists m. apply findModelByName_not_deleted in Hm as (? & ? & ?).
    repeat (split; [done|]). intros mp. rewrite Hl. apply findMappings_elem. }
  split; [exact Hprov|].
  intros k Hk. rewrite Hitems in Hk.
  apply buildItems_keys in Hk as (mp & Hin & Hid & Hkeep).
  destruct (keeps_provider _ _ _ _ Hkeep) as [p Hp].
  exists mp, p. split; [done|]. split; [done|]. split.
  - rewrite Hl in Hin. by apply findMappings_elem in Hin as (_ & _ & ?).
  - split; [done|]. by destruct (Hprov _ _ Hp) as (_ & _ & ?).
Qed.

Lemma soft_deleted_rows_never_reach_the_pool_witness :
  resolvePool storeMixed noFaults openai request = inr poolMixed ∧
  (forall k, is_Some (p_items poolMixed !! k) ->
     exists mp p,
       mp ∈ p_llmproviders poolMixed ∧ ModelWithProvider.ID mp = k ∧
       ModelWithProvider.DeletedAt mp = None ∧
       p_providerMap poolMixed !! ModelWithProvider.ProviderID mp = Some p ∧
       Provider.DeletedAt p = None).
Proof.
  split; [vm_compute; reflexivity|].
  apply (soft_deleted_rows_never_reach_the_pool storeMixed noFaults openai
           request poolMixed).
  vm_compute. reflexivity.
Defined.

(** C8, amended.  The failure logs are handed to a writer that runs on
    its own, so the claim's order of [created_at] holds only for a writer
    that keeps up.  For every run, with a clock that does not go back:
    each failure log was sent no later than the success row was created;
    the writer creates the failure rows in the order of the attempts,
    none before it was sent, so their [created_at] are monotonic among
    themselves; and when the writer creates each row the moment it was
    sent, every failure row's [created_at] is at most the success
    row's. *)
Theorem failure_logs_sent_before_success_row
    style bf pool t0 world lag o s' tr :
  (forall i, 0 <= idle (world i) ∧ 0 <= chatTime (world i)) ->
  (forall i, 0 <= lag i) ->
  dispatch style bf pool t0 world = (o, s', tr) ->
  notAfter (failureSentAt t0 world s') (successCreatedAt t0 world s') ∧
  Forall2 Z.le (failureSentAt t0 world s') (failureCreatedAt lag t0 world s') ∧
  StronglySorted Z.le (failureCreatedAt lag t0 world s') ∧
  ((forall i, lag i = 0) ->
   notAfter (failureCreatedAt lag t0 world s') (successCreatedAt t0 world s')).
Proof.
  intros Hpos Hlag H.
  destruct (writerCreatedAt_spec lag Hlag (failureSentAt t0 world s') 0%nat t0)
    as (H2 & _ & Hsorted).
  assert (Hclock : notAfter (failureSentAt t0 world s')
                            (successCreatedAt t0 world s') ∧
                   StronglySorted Z.le (failureSentAt t0 world s') ∧
                   Forall (Z.le t0) (failureSentAt t0 world s')).
  { apply dispatch_inv in H as [(_ & _ & -> & _)|[_ H]].
    { split; [intros c T Hc; by apply elem_of_nil in Hc|].
      split; constructor. }
    destruct (loop_clock _ _ _ _ _ _ _ _ _ _ _ _ _ Hpos H)
      as (_ & logs & rows & Hl & Hc & Hb & Hs & Hr).
    simpl in Hl, Hc, Hb. unfold failureSentAt, successCreatedAt.
    rewrite Hl, Hc. split; [|split; [done|]].
    - intros c T Hin HT.
      rewrite Forall_forall in Hb. rewrite Forall_forall in Hr.
      rewrite (Hr T HT). by destruct (Hb c Hin).
    - eapply Forall_impl; [exact Hb|]. simpl. lia. }
  destruct Hclock as (Hsent & Hss & Hge).
  split; [done|]. split; [done|]. split; [done|].
  intros Hzero. unfold failureCreatedAt.
  by rewrite (writerCreatedAt_no_lag lag Hzero _ _ _ Hss Hge).
Qed.

Lemma failure_logs_sent_before_success_row_witness :
  let w := fun _ : nat => world 1 300000000 (chatAthenB 500) in
  let lag := fun _ : nat => 1000000000 in
  let r := dispatch openai request (pool 3 1 1 1) 0 w in
  (failureSentAt 0 w (final r) = [300000000] ∧
   failureCreatedAt lag 0 w (final r) = [1300000000] ∧
   successCreatedAt 0 w (final r) = [600000000]) ∧
  notAfter (failureSentAt 0 w (final r)) (successCreatedAt 0 w (final r)) ∧
  Forall2 Z.le (failureSentAt 0 w (final r))
          (failureCreatedAt lag 0 w (final r)) ∧
  StronglySorted Z.le (failureCreatedAt lag 0 w (final r)) ∧
  ((forall i, lag i = 0) ->
   notAfter (failureCreatedAt lag 0 w (final r))
            (successCreatedAt 0 w (final r))).
Proof.
  intros w lag r. split; [repeat split; vm_compute; reflexivity|].
  apply (failure_logs_sent_before_success_row openai request (pool 3 1 1 1) 0
           w lag (outcome r) (final r) (attempts r)).
  - intros i. simpl. lia.
  - intros i. unfold lag. lia.
  - vm_compute. reflexivity.
Defined.

(** C8 as stated fails when the writer lags.  A answers 500 and B answers
    200, each call taking 0.3 s: the failure log of attempt 0 is sent at
    0.3 s and the success row of attempt 1 is created at 0.6 s.  A
    writer that takes one second to create the failure row stamps it
    1.3 s, after the success row. *)
Lemma slow_writer_counterexample :
  let w := fun _ : nat => world 1 300000000 (chatAthenB 500) in
  let lag := fun _ : nat => 1000000000 in
  let r := run (store 3 1 1 1) request w in
  outcome r = Nil ∧
  a_retry <$> filter failedAttempt (attempts r) = [0] ∧
  ChatLog.Retry <$> chat_logs (final r) = [1] ∧
  (forall i, 0 <= lag i) ∧
  failureCreatedAt lag 0 w (final r) = [1300000000] ∧
  successCreatedAt 0 w (final r) = [600000000] ∧
  ¬ notAfter (failureCreatedAt lag 0 w (final r))
             (successCreatedAt 0 w (final r)).
Proof.
  intros w lag r.
  assert (Hf : failureCreatedAt lag 0 w (final r) = [1300000000])
    by (vm_compute; reflexivity).
  assert (Hs : successCreatedAt 0 w (final r) = [600000000])
    by (vm_compute; reflexivity).
  split; [vm_compute; reflexivity|]. split; [vm_compute; reflexivity|].
  split; [vm_compute; reflexivity|]. split; [intros i; unfold lag; lia|].
  split; [done|]. split; [done|].
  rewrite Hf, Hs. intros Hna.
  specialize (Hna 1300000000 600000000
                  (list_elem_of_here _ _) (list_elem_of_here _ _)).
  lia.
Qed.

(** C9.  From the pool that [resolvePool] builds, at every attempt of a run
    every key of the weight map is the ID of a loaded mapping, the
    [IndexFunc] lookup of the picked ID finds an index, and the run never
    ends in the index-out-of-range panic; the invariant still holds in the
    final state. *)
Theorem picked_id_is_loaded db faults style bf pool t0 world o s' tr :
  resolvePool db faults style bf = inr pool ->
  dispatch style bf pool t0 world = (o, s', tr) ->
  o ≠ Panic IndexOutOfRange ∧
  Forall (fun a => keysLoaded (p_llmproviders pool) (a_pool a) ∧
                   is_Some (IndexFunc (p_llmproviders pool) (a_item a))) tr ∧
  keysLoaded (p_llmproviders pool) (items s').
Proof.
  intros Hr H. apply resolvePool_keysLoaded in Hr.
  apply dispatch_inv in H as [(_ & -> & -> & ->)|[_ H]].
  - split; [done|]. split; [constructor | done].
  - by eapply loop_index_safe.
Qed.

Lemma picked_id_is_loaded_witness :
  let r := dispatch openai request (pool 3 1 1 1) 0
             (fun _ => world 1 0 (chatAthenB 500)) in
  outcome r ≠ Panic IndexOutOfRange ∧
  Forall (fun a => keysLoaded (p_llmproviders (pool 3 1 1 1)) (a_pool a) ∧
                   is_Some (IndexFunc (p_llmproviders (pool 3 1 1 1)) (a_item a)))
         (attempts r) ∧
  keysLoaded (p_llmproviders (pool 3 1 1 1)) (items (final r)).
Proof.
  intros r.
  apply (picked_id_is_loaded (store 3 1 1 1) noFaults openai request
           (pool 3 1 1 1) 0 (fun _ => world 1 0 (chatAthenB 500))
           (outcome r) (final r) (attempts r)).
  - vm_compute. reflexivity.
  - vm_compute. reflexivity.
Defined.

(** C10.  If the upstream replied with the success status and creating the
    success row then fails, the run returns that store error; no header
    was set, nothing was flushed, no byte was written to the client or the
    pipe, no success row exists, and every log on the channel is a failure
    log. *)
Theorem store_failure_returns_before_forwarding
    style bf pool t0 world o s' tr a Body c :
  dispatch style bf pool t0 world = (o, s', tr) ->
  a ∈ tr -> a_result a = ChatResp http_StatusOK Body ->
  saveChatLog (world (Z.to_nat (a_retry a))) = inl c ->
  o = Error (ErrExternal c) ∧
  header s' = [] ∧ flushed s' = false ∧ written s' = [] ∧ piped s' = [] ∧
  chat_logs s' = [] ∧
  Forall (fun l => ChatLog.Status l = "error") (retryErrLog s').
Proof.
  intros H Hin Hres Hsave.
  apply dispatch_inv in H as [(_ & _ & _ & ->)|[_ H]].
  { by apply elem_of_nil in Hin. }
  destruct (loop_store_failure _ _ _ _ _ _ _ _ _ _ _ _ _ H a Body c Hin Hres Hsave)
    as (-> & Hlogs & Hh & Hf & Hw & Hp & _).
  apply loop_accounting in H as (_ & (logs & Hl & Hf2) & _).
  simpl in *. subst logs. repeat split; try done.
  by eapply errorLogs_status.
Qed.

Lemma store_failure_returns_before_forwarding_witness :
  let r := dispatch openai request (pool 3 1 1 1) 0
             (fun _ => worldStoreDown 1 (chatAthenB 500)) in
  outcome r = Error (ErrExternal 5) ∧
  header (final r) = [] ∧ flushed (final r) = false ∧
  written (final r) = [] ∧ piped (final r) = [] ∧
  chat_logs (final r) = [] ∧
  Forall (fun l => ChatLog.Status l = "error") (retryErrLog (final r)).
Proof.
  intros r.
  apply (store_failure_returns_before_forwarding openai request
           (pool 3 1 1 1) 0 (fun _ => worldStoreDown 1 (chatAthenB 500))
           (outcome r) (final r) (attempts r)
           (mkAttempt 1 (<[2%N := 1]> ∅) 2 (ChatResp 200 (bodyOf [Byte.x62])))
           (bodyOf [Byte.x62]) 5%N).
  - vm_compute. reflexivity.
  - vm_compute. apply list_elem_of_further, list_elem_of_here.
  - reflexivity.
  - reflexivity.
Defined.

(** * Further properties *)

(** ** The middleware *)

Lemma cutByte_Some sep s a b :
  cutByte sep s = Some (a, b) ->
  s = a +:+ String sep b ∧ cutByte sep a = None.
Proof.
  revert a b. induction s as [|c s IH]; intros a b; simpl; [done|].
  destruct (Ascii.eqb c sep) eqn:E.
  - apply Ascii.eqb_eq in E as ->. intros [= <- <-]. done.
  - destruct (cutByte sep s) as [[a' b']|]; [|done].
    intros [= <- <-]. destruct (IH a' b' eq_refl) as [-> Hn].
    split; [done|]. simpl. by rewrite E, Hn.
Qed.

Lemma cutByte_app sep a b :
  cutByte sep a = None -> cutByte sep (a +:+ String sep b) = Some (a, b).
Proof.
  induction a as [|c a IH]; simpl.
  - intros _. by rewrite Ascii.eqb_refl.
  - destruct (Ascii.eqb c sep); [done|].
    destruct (cutByte sep a) as [[x y]|]; [done|].
    intros _. by rewrite IH.
Qed.

Lemma SplitN_2_pair s sep a b :
  SplitN s sep 2 = [a; b] <-> s = a +:+ String sep b ∧ cutByte sep a = None.
Proof.
  simpl. split.
  - destruct (cutByte sep s) as [[a' b']|] eqn:E; [|done].
    intros [= <- <-]. by apply cutByte_Some.
  - intros [-> Hn]. by rewrite cutByte_app.
Qed.

Lemma SplitN_2_length s sep :
  SplitN s sep 2 = [s] ∨ exists a b, SplitN s sep 2 = [a; b].
Proof. simpl. destruct (cutByte sep s) as [[a b]|]; eauto. Qed.

Lemma Bearer_split t : SplitN ("Bearer " +:+ t) space 2 = ["Bearer"; t].
Proof. reflexivity. Qed.

(** X1.  [Auth] passes a request on to the next handler exactly when no
    token is configured or the [Authorization] header is the text
    ["Bearer "] followed by the configured token, byte for byte: the scheme
    is case-sensitive, one space separates it from the token, and a token
    that holds spaces is compared whole. *)
Theorem Auth_accepts_iff token authHeader :
  Auth token authHeader = Next <->
  token = "" ∨ authHeader = "Bearer " +:+ token.
Proof.
  unfold Auth. case_bool_decide as Ht; [naive_solver|].
  case_bool_decide as Hh.
  { split; [done|]. intros [? | ->]; done. }
  split.
  - destruct (SplitN authHeader space 2) as [|scheme [|tok [|x y]]] eqn:E; try done.
    case_bool_decide as Hs; [|done]. case_bool_decide as Hk; [done|].
    intros _. right. apply SplitN_2_pair in E as [-> _].
    by subst.
  - intros [? | ->]; [done|]. rewrite Bearer_split.
    rewrite bool_decide_eq_true_2 by done.
    by rewrite bool_decide_eq_false_2 by (intros H; by apply H).
Qed.


Lemma Auth_cases token authHeader :
  token ≠ "" ->
  (authHeader = "" ∧ Auth token authHeader = missingHeader)
  ∨ (authHeader = "Bearer " +:+ token ∧ Auth token authHeader = Next)
  ∨ (exists t, t ≠ token ∧ authHeader = "Bearer " +:+ t ∧
               Auth token authHeader = invalidToken)
  ∨ (authHeader ≠ "" ∧ (forall t, authHeader ≠ "Bearer " +:+ t) ∧
     Auth token authHeader = invalidFormat).
Proof.
  intros Ht. unfold Auth. rewrite (bool_decide_eq_false_2 _ Ht).
  case_bool_decide as Hh; [by left|]. right.
  assert (Hnot : forall scheme tok,
            SplitN authHeader space 2 = [scheme; tok] -> scheme ≠ "Bearer" ->
            forall t, authHeader ≠ "Bearer " +:+ t).
  { intros scheme tok E Hs t ->. rewrite Bearer_split in E. congruence. }
  destruct (SplitN_2_length authHeader space) as [E|(scheme & tok & E)];
    rewrite E.
  - right; right. split; [done|]. split; [|done].
    intros t ->. rewrite Bearer_split in E. discriminate E.
  - case_bool_decide as Hs.
    + subst scheme. apply SplitN_2_pair in E as [-> _].
      case_bool_decide as Hk.
      * right; left. by exists tok.
      * left. by subst.
    + right; right. split; [done|]. split; [|done]. by eapply Hnot.
Qed.

(** X2.  With a token configured, the three rejections of [Auth] tell the
    three faults apart: "missing" exactly for the empty header, "Invalid
    token" exactly for ["Bearer "] followed by another token, "Invalid
    authorization header" exactly for a non-empty header that does not
    start with ["Bearer "]; and every rejection carries status 401. *)
Theorem Auth_rejection_reason token authHeader :
  token ≠ "" ->
  (Auth token authHeader = missingHeader <-> authHeader = "") ∧
  (Auth token authHeader = invalidToken <->
   exists t, t ≠ token ∧ authHeader = "Bearer " +:+ t) ∧
  (Auth token authHeader = invalidFormat <->
   authHeader ≠ "" ∧ forall t, authHeader ≠ "Bearer " +:+ t) ∧
  (Auth token authHeader = Next ∨
   exists msg, Auth token authHeader =
               Abort http_StatusUnauthorized http_StatusUnauthorized msg).
Proof.
  intros Ht.
  destruct (Auth_cases token authHeader Ht)
    as [[Hh ->]|[[Hh ->]|[(t & Hne & Hh & ->)|(Hh & Hall & ->)]]].
  - subst. split; [done|]. split.
    { split; [done | intros (t & _ & [=])]. }
    split; [split; [done | by intros [? _]] | right; by eexists].
  - split; [split; [done | by subst]|]. split.
    { split; [done|]. intros (t & Hne & Heq). subst.
      apply (f_equal (fun s => SplitN s space 2)) in Heq.
      rewrite !Bearer_split in Heq. congruence. }
    split; [|by left]. split; [done|]. intros [_ Hall]. by destruct (Hall token).
  - split; [split; [done | by subst]|]. split.
    { split; [|done]. intros _. by exists t. }
    split; [|right; by eexists]. split; [done|]. intros [_ Hall]. by destruct (Hall t).
  - split; [split; [done | intros ?; by subst]|]. split.
    { split; [done|]. intros (t & _ & Heq). by destruct (Hall t). }
    split; [done|]. right; by eexists.
Qed.

Lemma Auth_rejection_reason_witness :
  (Auth "12345" "Bearer" = invalidFormat <->
   "Bearer" ≠ "" ∧ forall t, "Bearer" ≠ "Bearer " +:+ t) ∧
  (Auth "12345" "bearer 12345" = invalidFormat <->
   "bearer 12345" ≠ "" ∧ forall t, "bearer 12345" ≠ "Bearer " +:+ t).
Proof.
  split.
  - apply (Auth_rejection_reason "12345" "Bearer"). discriminate.
  - apply (Auth_rejection_reason "12345" "bearer 12345"). discriminate.
Defined.

(** X3.  [AuthAnthropic] passes a request on exactly when no key is
    configured or the [x-api-key] header equals the key; that is, exactly
    when [Auth] with the same token accepts the header prefixed with
    ["Bearer "].  Every rejection carries status 401. *)
Theorem AuthAnthropic_accepts_iff koken authHeader :
  (AuthAnthropic koken authHeader = Next <-> koken = "" ∨ authHeader = koken) ∧
  (AuthAnthropic koken authHeader = Next <->
   Auth koken ("Bearer " +:+ authHeader) = Next) ∧
  (AuthAnthropic koken authHeader = Next ∨
   exists msg, AuthAnthropic koken authHeader =
               Abort http_StatusUnauthorized http_StatusUnauthorized msg).
Proof.
  assert (H1 : AuthAnthropic koken authHeader = Next <->
               koken = "" ∨ authHeader = koken).
  { unfold AuthAnthropic. case_bool_decide as Hk; [naive_solver|].
    case_bool_decide as Hh; [split; [done | intros [? | ?]; congruence]|].
    case_bool_decide as He; [split; [done | intros [? | ?]; done]|].
    split; [|done]. intros _. by right. }
  split; [exact H1|]. split.
  - rewrite H1. unfold Auth. case_bool_decide as Hk; [naive_solver|].
    rewrite bool_decide_eq_false_2 by done.
    rewrite Bearer_split, bool_decide_eq_true_2 by done.
    case_bool_decide as Hne.
    + split; [intros [? | ?]; congruence | done].
    + split; [done|]. intros _. by right.
  - unfold AuthAnthropic. repeat case_bool_decide; eauto.
Qed.

(** X4.  The id that [RequestLogger] stores is the one [GetRequestID]
    reads back, so a handler that runs inside [c.Next()] sees the logger's
    id; setting another key does not change it; and [GetRequestID] gives
    the empty string when the key is absent or holds a value that is not a
    string. *)
Theorem request_id_round_trip (keys : gmap string any) requestID :
  GetRequestID (Context_Set keys RequestIDKey (AnyString requestID)) = requestID ∧
  (forall f : string -> gmap string any * Z,
     RequestLogger requestID (fun k => f (GetRequestID k)) keys
     = ((f requestID).1, completionLevel (f requestID).2)) ∧
  (forall key value, key ≠ RequestIDKey ->
     GetRequestID (Context_Set keys key value) = GetRequestID keys) ∧
  (Context_Get keys RequestIDKey = None -> GetRequestID keys = "") ∧
  (forall tag, Context_Get keys RequestIDKey = Some (AnyOther tag) ->
     GetRequestID keys = "").
Proof.
  assert (H1 : GetRequestID (Context_Set keys RequestIDKey (AnyString requestID))
               = requestID).
  { unfold GetRequestID, Context_Get, Context_Set. by rewrite lookup_insert_eq. }
  split; [exact H1|]. split.
  { intros f. unfold RequestLogger. rewrite H1. by destruct (f requestID). }
  split.
  { intros key value Hne. unfold GetRequestID, Context_Get, Context_Set.
    by rewrite lookup_insert_ne. }
  unfold GetRequestID. split; [by intros -> | by intros tag ->].
Qed.

(** ** The copy to the client *)

Lemma ioCopy_nil src : forall pws cws written piped wr pi,
  ioCopy src pws cws written piped = (None, wr, pi) ->
  wr = written ++ bodyBytes src ∧ pi = piped ++ bodyBytes src.
Proof.
  induction src as [|[chunk rerr] src IH];
    intros pws cws written piped wr pi; simpl.
  - intros [= <- <-]. unfold bodyBytes. simpl. by rewrite !app_nil_r.
  - destruct (teeRead chunk rerr pws piped)
      as [[[buf er] piped1] pws1] eqn:Ht.
    destruct (clientWrite buf cws written) as [[ew written1] cws1] eqn:Hc.
    pose proof (teeRead_piped _ _ _ _ _ _ _ _ Ht) as ->.
    apply teeRead_spec in Ht as [_ Her].
    apply clientWrite_spec in Hc as (nw & -> & _ & Hfull).
    destruct ew as [e|]; [done|]. rewrite (Hfull eq_refl).
    rewrite bodyBytes_cons.
    destruct er as [e|].
    + destruct Her as [[He ->]|[= ->]]; [|done].
      destruct rerr as [[|c]|]; simplify_eq/=; [|done].
      by intros [= <- <-].
    + destruct Her as [[He ->]|?]; [|done].
      destruct rerr; [done|].
      intros H. apply IH in H as [-> ->]. by rewrite !app_assoc.
Qed.

(** X5.  When the reading side of the pipe is closed while the tee writes
    a non-empty chunk, of which the pipe took [n] bytes, [io.Copy] returns
    an error: the pipe holds those [n] bytes more and the client gets at
    most those; if the client's writer accepts them, the error is that of
    the closed pipe.  Nothing of the later chunks reaches either side. *)
Theorem closed_pipe_stops_the_copy chunk rerr src n pws cws written piped err wr pi :
  chunk ≠ [] ->
  ioCopy ((chunk, rerr) :: src) (PipeClosed n :: pws) cws written piped
    = (err, wr, pi) ->
  err ≠ None ∧ pi = piped ++ take n chunk ∧
  wr `prefix_of` written ++ take n chunk ∧
  (head cws = None ∨ head cws = Some WriteAll ->
   err = Some ErrClosedPipe ∧ wr = written ++ take n chunk).
Proof.
  intros Hne. simpl. destruct chunk as [|b chunk]; [done|].
  unfold teeRead.
  destruct (clientWrite (take n (b :: chunk)) cws written)
    as [[ew written1] cws1] eqn:Hc.
  pose proof (clientWrite_spec _ _ _ _ _ _ Hc) as (nw & -> & Hnw & Hfull).
  destruct ew as [e|].
  - intros [= <- <- <-]. split; [done|]. split; [done|].
    split; [by apply prefix_app|].
    intros Hhead. exfalso. unfold clientWrite in Hc.
    destruct (take n (b :: chunk)); [done|].
    destruct cws as [|[|k [c|]] cws']; simpl in Hhead; try done;
      by destruct Hhead.
  - intros [= <- <- <-]. rewrite (Hfull eq_refl). done.
Qed.

Lemma closed_pipe_stops_the_copy_witness :
  let r := ioCopy [([Byte.x61; Byte.x62; Byte.x63], None); ([Byte.x64], None)]
                  [PipeClosed 2] [] [] [] in
  r.1.1 ≠ None ∧ r.2 = [] ++ take 2 [Byte.x61; Byte.x62; Byte.x63] ∧
  r.1.2 `prefix_of` [] ++ take 2 [Byte.x61; Byte.x62; Byte.x63] ∧
  (head (@nil WriteRes) = None ∨ head (@nil WriteRes) = Some WriteAll ->
   r.1.1 = Some ErrClosedPipe ∧
   r.1.2 = [] ++ take 2 [Byte.x61; Byte.x62; Byte.x63]).
Proof.
  intros r.
  apply (closed_pipe_stops_the_copy [Byte.x61; Byte.x62; Byte.x63] None
           [([Byte.x64], None)] 2 [] [] [] []).
  - discriminate.
  - reflexivity.
Defined.

(** A copy that meets no failure delivers everything. *)
Lemma ioCopy_clean src : forall pws cws written piped,
  cleanBody src ->
  Forall (fun r => r = PipeAll) pws ->
  Forall (fun r => r = WriteAll) cws ->
  ioCopy src pws cws written piped
  = (None, written ++ bodyBytes src, piped ++ bodyBytes src).
Proof.
  intros pws cws written piped Hsrc. revert pws cws written piped.
  induction Hsrc as [|[chunk rerr] src Hev _ IH];
    intros pws cws written piped Hp Hc.
  { simpl. unfold bodyBytes. simpl. by rewrite !app_nil_r. }
  simpl. rewrite bodyBytes_cons.
  assert (Ht : exists pws', Forall (fun r => r = PipeAll) pws' ∧
            teeRead chunk rerr pws piped
            = (chunk, readErr <$> rerr, piped ++ chunk, pws')).
  { unfold teeRead. destruct chunk as [|b chunk].
    - exists pws. by rewrite app_nil_r.
    - destruct Hp as [|r pws' -> Hp']; [by exists []|]. by exists pws'. }
  destruct Ht as (pws' & Hp' & ->).
  assert (Hw : exists cws', Forall (fun r => r = WriteAll) cws' ∧
            clientWrite chunk cws written = (None, written ++ chunk, cws')).
  { unfold clientWrite. destruct chunk as [|b chunk].
    - exists cws. by rewrite app_nil_r.
    - destruct Hc as [|r cws' -> Hc']; [by exists []|]. by exists cws'. }
  destruct Hw as (cws' & Hc' & ->).
  simpl in Hev. destruct Hev as [-> | ->]; simpl.
  - rewrite IH by done. by rewrite !app_assoc.
  - done.
Qed.


(** ** More on the balancer *)

Lemma scanEntries_total es : forall r acc,
  acc <= r < acc + totalWeight es -> is_Some (scanEntries es r acc).
Proof.
  unfold totalWeight.
  induction es as [|[k w] es IH]; intros r acc Hr; simpl in *; [lia|].
  destruct (r <? acc + w) eqn:E; [eauto|].
  apply Z.ltb_ge in E. apply IH. lia.
Qed.

Lemma totalWeight_length (es : list (N * Z)) :
  (forall e, e ∈ es -> 1 <= e.2) -> Z.of_nat (length es) <= totalWeight es.
Proof.
  unfold totalWeight. induction es as [|e es IH]; intros H; simpl; [lia|].
  pose proof (H e (list_elem_of_here _ _)).
  assert (Z.of_nat (length es) <= foldr (fun e acc => e.2 + acc) 0 es).
  { apply IH. intros e' He'. apply H. by apply list_elem_of_further. }
  lia.
Qed.

(** On positive weights the balancer fails on the empty map only. *)
Lemma WeightedRandom_valid (m : gmap N Z) u :
  validWeights m -> WeightedRandom m u ≠ inl ErrNoDraw.
Proof.
  intros Hv. unfold WeightedRandom.
  destruct (map_to_list m) as [|e es] eqn:E; [done|].
  set (T := totalWeight (e :: es)).
  assert (Hlen : Z.of_nat (length (e :: es)) <= T).
  { apply totalWeight_length. intros [k w] Hin. rewrite <- E in Hin.
    apply elem_of_map_to_list in Hin. destruct (Hv k w Hin). simpl. lia. }
  simpl length in Hlen.
  destruct (T <=? 0) eqn:Et; [apply Z.leb_le in Et; lia|].
  apply Z.leb_gt in Et.
  destruct (scanEntries_total (e :: es) (u mod T) 0) as [k Hk].
  { pose proof (Z.mod_pos_bound u T Et). fold T. lia. }
  by rewrite Hk.
Qed.


(** ** More on one round and the whole loop *)

Section MoreDispatchFacts.
Variable style : string.
Variable bf : before.
Variable llmproviders : list ModelWithProvider.t.
Variable providerMap : gmap N Provider.t.
Variable TimeOut_ : Z.
Variable proxyStart : Z.

Local Abbreviation round :=
  (iteration style bf llmproviders providerMap TimeOut_ proxyStart).
Local Abbreviation rounds :=
  (loop style bf llmproviders providerMap TimeOut_ proxyStart).
Local Abbreviation round_continue :=
  (iteration_continue style bf llmproviders providerMap TimeOut_ proxyStart).
Local Abbreviation round_return :=
  (iteration_return style bf llmproviders providerMap TimeOut_ proxyStart).
Local Abbreviation rounds_ind :=
  (loop_rounds_ind style bf llmproviders providerMap TimeOut_ proxyStart).

(** Attempts are numbered by the round counter, without gaps. *)
Lemma loop_numbering world n retry s o s' tr :
  rounds world n retry s = (o, s', tr) ->
  a_retry <$> tr = Z.of_nat <$> seq retry (length tr).
Proof.
  revert n retry s o s' tr. apply rounds_ind.
  - done.
  - intros n retry s o s1 a H.
    destruct (round_return _ _ _ _ _ _ H)
      as (_ & _ & [(-> & _)|(att & B & -> & Hr & _)]); [done|].
    change (option_list (Some att)) with [att].
    rewrite fmap_cons, Hr. reflexivity.
  - intros n retry s s1 a o s2 tr Hit _ IH.
    destruct (round_continue _ _ _ _ _ Hit) as (att & l & -> & Hr & _).
    change (option_list (Some att) ++ tr) with (att :: tr).
    rewrite fmap_cons, Hr, IH. reflexivity.
Qed.

(** Either the run never reached the commit, and the client side is
    untouched; or its last attempt was answered 200, the success row was
    created, the headers were set and flushed, and the pipe was closed with
    the error the run returns. *)
Lemma loop_commit world n retry s o s' tr :
  rounds world n retry s = (o, s', tr) ->
  (sameClientSide s s' ∧ o ≠ Nil ∧
   (Forall failedAttempt tr ∨
    exists pre a Body c,
      tr = pre ++ [a] ∧ Forall failedAttempt pre ∧
      a_result a = ChatResp http_StatusOK Body ∧
      saveChatLog (world (Z.to_nat (a_retry a))) = inl c))
  ∨ (exists pre a Body row err,
       tr = pre ++ [a] ∧ Forall failedAttempt pre ∧
       a_result a = ChatResp http_StatusOK Body ∧
       saveChatLog (world (Z.to_nat (a_retry a))) = inr (ChatLog.ID row) ∧
       chat_logs s' = chat_logs s ++ [row] ∧
       ChatLog.Status row = "success" ∧ ChatLog.Retry row = a_retry a ∧
       header s' = header s ++ responseHeaders bf ∧ flushed s' = true ∧
       pwClosed s' = Some err ∧ o = copyOutcome err).
Proof.
  revert n retry s o s' tr. apply rounds_ind.
  - intros retry s. left. split; [by repeat split|]. split; [done|].
    left. constructor.
  - intros n retry s o s1 a H.
    destruct (round_return _ _ _ _ _ _ H)
      as (_ & _ & [(-> & He & Hsame)|(att & B & -> & Hr & _ & _ & Hres & Hs)]).
    + left. split; [done|]. split; [by destruct He|]. left. constructor.
    + destruct Hs as [(c & Hsv & -> & Hsame)|
                      (logId & err & Hsv & _ & -> & Hh & Hf & Hpw & row & Hrow & Hid & Hst & Hrt)].
      * left. split; [done|]. split; [done|]. right.
        exists [], att, B, c. rewrite Hr, Nat2Z.id. done.
      * right. exists [], att, B, row, err. rewrite Hr, Nat2Z.id, Hid.
        repeat split; try done.
  - intros n retry s s1 a o s2 tr Hit _ IH.
    destruct (round_continue _ _ _ _ _ Hit)
      as (att & l & -> & _ & _ & _ & _ & Hf & _ & _ & Hsame & _).
    destruct Hsame as (Hcl & Hh & Hfl & Hw & Hp & Hpw).
    destruct IH as [(Hsame' & Ho & Htr)|
                    (pre & a & B & row & err & -> & Hpre & Hres & Hsv & Hrow & Hst & Hrt & Hhd & Hfd & Hpc & ->)].
    + left. split.
      { destruct Hsame' as (?&?&?&?&?&?). repeat split; congruence. }
      split; [done|].
      destruct Htr as [Hall|(pre & a & B & c & -> & Hpre & Hres & Hsv)].
      * left. by constructor.
      * right. exists (att :: pre), a, B, c. split; [done|].
        split; [by constructor | done].
    + right. exists (att :: pre), a, B, row, err. split; [done|].
      split; [by constructor|]. repeat split; try done; congruence.
Qed.

Lemma penalty_bounds w :
  1 <= w <= int64_max ->
  1 <= go_sub w (go_div w 3) <= w ∧ (2 <= w -> 2 <= go_sub w (go_div w 3)).
Proof.
  intros Hw. rewrite penalty_value by done. unfold int64_max in Hw.
  pose proof (Z.div_mod w 3 ltac:(lia)) as Hdm.
  pose proof (Z.mod_pos_bound w 3 ltac:(lia)) as Hmod. lia.
Qed.

Lemma penalizedFrom_refl m : validWeights m -> penalizedFrom m m.
Proof.
  intros Hv k w Hk. exists w. split; [done|]. split; [|done].
  destruct (Hv k w Hk). lia.
Qed.

Lemma penalizedFrom_trans m1 m2 m3 :
  penalizedFrom m1 m2 -> penalizedFrom m2 m3 -> penalizedFrom m1 m3.
Proof.
  intros H12 H23 k w3 Hk.
  destruct (H23 k w3 Hk) as (w2 & Hk2 & Hb2 & Hc2).
  destruct (H12 k w2 Hk2) as (w1 & Hk1 & Hb1 & Hc1).
  exists w1. split; [done|]. split; [lia | auto].
Qed.

Lemma penalizedFrom_valid m m' :
  validWeights m -> penalizedFrom m m' -> validWeights m'.
Proof.
  intros Hv Hp k w' Hk. destruct (Hp k w' Hk) as (w & Hw & Hb & _).
  destruct (Hv k w Hw). lia.
Qed.

Lemma round_weights w retry s s1 a :
  validWeights (items s) ->
  round w retry s = (Continue s1, a) ->
  penalizedFrom (items s) (items s1).
Proof.
  intros Hv Hit.
  destruct (round_continue _ _ _ _ _ Hit)
    as (att & l & _ & _ & _ & _ & Hp & _ & _ & _ & _ & [Hm|[Hm _]] & _);
    rewrite Hm; intros k w' Hk.
  - apply lookup_delete_Some in Hk as [_ Hk].
    by apply (penalizedFrom_refl _ Hv).
  - unfold penalize in Hk.
    destruct (decide (a_item att = k)) as [<-|Hne].
    + apply WeightedRandom_lookup in Hp as [w0 Hw0].
      rewrite Hw0 in Hk. simpl in Hk. rewrite lookup_insert_eq in Hk.
      injection Hk as <-. exists w0. split; [done|].
      apply penalty_bounds. by eapply Hv.
    + rewrite lookup_insert_ne in Hk by done.
      by apply (penalizedFrom_refl _ Hv).
Qed.

Lemma loop_weights world n retry s o s' tr :
  rounds world n retry s = (o, s', tr) ->
  validWeights (items s) ->
  penalizedFrom (items s) (items s') ∧
  Forall (fun a => penalizedFrom (items s) (a_pool a)) tr.
Proof.
  revert n retry s o s' tr.
  apply (rounds_ind world (fun _ _ s _ s' tr =>
    validWeights (items s) ->
    penalizedFrom (items s) (items s') ∧
    Forall (fun a => penalizedFrom (items s) (a_pool a)) tr)).
  - intros retry s Hv. split; [by apply penalizedFrom_refl | constructor].
  - intros n retry s o s1 a H Hv.
    destruct (round_return _ _ _ _ _ _ H)
      as (Hi & _ & [(-> & _)|(att & B & -> & _ & Hp & _)]); rewrite Hi.
    + split; [by apply penalizedFrom_refl | constructor].
    + split; [by apply penalizedFrom_refl|]. simpl.
      constructor; [|constructor]. rewrite Hp. by apply penalizedFrom_refl.
  - intros n retry s s1 a o s2 tr Hit _ IH Hv.
    pose proof (round_weights _ _ _ _ _ Hv Hit) as Hstep.
    destruct (round_continue _ _ _ _ _ Hit) as (att & l & -> & _ & Hp & _).
    destruct IH as [IH1 IH2]; [by eapply penalizedFrom_valid|].
    split; [by eapply penalizedFrom_trans|]. simpl. constructor.
    + rewrite Hp. by apply penalizedFrom_refl.
    + eapply Forall_impl; [exact IH2|]. simpl. intros b Hb.
      by eapply penalizedFrom_trans.
Qed.

(** Each attempt that drops its mapping shrinks the pool by one; nothing
    else changes its size. *)
Lemma loop_pool_size world n retry s o s' tr :
  rounds world n retry s = (o, s', tr) ->
  (size (items s') + length (filter droppedAttempt tr))%nat = size (items s).
Proof.
  revert n retry s o s' tr. apply rounds_ind.
  - intros retry s. simpl. lia.
  - intros n retry s o s1 a H.
    destruct (round_return _ _ _ _ _ _ H)
      as (Hi & _ & [(-> & _)|(att & B & -> & _ & _ & _ & Hres & _)]); rewrite Hi.
    + simpl. lia.
    + simpl. rewrite filter_cons_False; [simpl; lia|].
      unfold droppedAttempt. rewrite Hres. simpl. by intros [? _].
  - intros n retry s s1 a o s2 tr Hit _ IH.
    destruct (round_continue _ _ _ _ _ Hit)
      as (att & l & -> & _ & _ & _ & Hp & Hf & _ & _ & _ & Hm & _ & Hpen).
    apply WeightedRandom_lookup in Hp. simpl.
    destruct (decide (droppedAttempt att)) as [Hd|Hd].
    + rewrite filter_cons_True by done. simpl.
      assert (items s1 = delete (a_item att) (items s)) as Hdel.
      { destruct Hm as [?|[_ [Body HB]]]; [done|].
        unfold droppedAttempt in Hd. rewrite HB in Hd. by destruct Hd. }
      rewrite Hdel, map_size_delete_Some in IH by done.
      assert (size (items s) ≠ 0%nat).
      { intros H0. apply map_size_empty_iff in H0. rewrite H0 in Hp.
        rewrite lookup_empty in Hp. by destruct Hp. }
      lia.
    + rewrite filter_cons_False by done.
      assert (exists Body, a_result att = ChatResp http_StatusTooManyRequests Body)
        as [Body HB].
      { unfold droppedAttempt, failedAttempt in *.
        destruct (a_result att) as [e|c Body]; simpl in *; [done|].
        destruct (decide (c = http_StatusTooManyRequests)) as [->|]; [eauto|].
        destruct Hd. done. }
      rewrite (Hpen _ HB) in IH. unfold penalize in IH.
      by rewrite map_size_insert_Some in IH.
Qed.

Lemma round_select_early w retry s :
  timerFired (now s + idle w) (timeoutDuration TimeOut_) (now s + idle w)
    = true ∨ ctxDone w = true ->
  exists o, round w retry s = (Return o (elapse s (idle w)), None) ∧
    (o = Error ErrCancelled ∧ ctxDone w = true
     ∨ o = Error ErrRetryTimeout ∧
       timerFired (now s + idle w) (timeoutDuration TimeOut_)
                  (now s + idle w) = true).
Proof.
  unfold iteration. simpl.
  destruct (ctxDone w), (timerFired _ _ _); simpl; intros [?|?]; try done;
    try destruct (selectFirst w); eexists; (split; [done|]); eauto.
Qed.

(** With a timeout in range, a run that comes to a round on whose entry
    the context is done returns the context's error there. *)
Lemma loop_cancelled world n retry s o s' tr :
  1 <= TimeOut_ <= 9223372036 ->
  rounds world n retry s = (o, s', tr) ->
  (length tr < n)%nat -> Forall failedAttempt tr ->
  ctxDone (world (retry + length tr)%nat) = true ->
  o = Error ErrCancelled.
Proof.
  intros HT. revert n retry s o s' tr.
  apply (rounds_ind world (fun n retry _ o _ tr =>
    (length tr < n)%nat -> Forall failedAttempt tr ->
    ctxDone (world (retry + length tr)%nat) = true ->
    o = Error ErrCancelled)).
  - intros retry s. simpl. lia.
  - intros n retry s o s1 a H.
    destruct (round_return _ _ _ _ _ _ H)
      as (_ & _ & [(-> & He & _)|(att & B & -> & _ & _ & _ & Hres & Hs)]).
    + simpl. rewrite Nat.add_0_r. intros _ _ Hc.
      destruct (round_select_early (world retry) (Z.of_nat retry) s)
        as (o' & Heq & [[-> _]|[_ Hf]]); [by right| |].
      * congruence.
      * by rewrite timer_never_fired in Hf.
    + intros _ Hall _. apply Forall_cons in Hall as [Hf _].
      unfold failedAttempt in Hf. rewrite Hres in Hf. by simpl in Hf.
  - intros n retry s s1 a o s2 tr Hit _ IH.
    destruct (round_continue _ _ _ _ _ Hit)
      as (att & l & -> & _ & _ & _ & _ & Hf & _).
    simpl. rewrite Nat.add_succ_r.
    intros Hlen [_ Hall]%Forall_cons Hc. apply IH; [lia | done | done].
Qed.

(** No attempt is made in a round on whose entry the context is done, nor
    in a later one. *)
Lemma loop_cancelled_bound world n retry s o s' tr i :
  rounds world n retry s = (o, s', tr) ->
  ctxDone (world i) = true -> (retry <= i)%nat ->
  (length tr <= i - retry)%nat.
Proof.
  intros H Hc. revert n retry s o s' tr H.
  apply (rounds_ind world (fun _ retry _ _ _ tr =>
    (retry <= i)%nat -> (length tr <= i - retry)%nat)).
  - intros retry s _. simpl. lia.
  - intros n retry s o s1 a H Hle.
    destruct (decide (i = retry)) as [->|Hne].
    + destruct (round_select_early (world retry) (Z.of_nat retry) s)
        as (o' & Heq & _); [by right|].
      rewrite Heq in H. injection H as _ _ <-. simpl. lia.
    + destruct a; simpl; lia.
  - intros n retry s s1 a o s2 tr Hit _ IH Hle.
    destruct (decide (i = retry)) as [->|Hne].
    + destruct (round_select_early (world retry) (Z.of_nat retry) s)
        as (o' & Heq & _); [by right|].
      rewrite Heq in Hit. discriminate Hit.
    + destruct (round_continue _ _ _ _ _ Hit) as (att & l & -> & _).
      simpl. specialize (IH ltac:(lia)). lia.
Qed.

(** What a round whose provider lookup came back nil must have met. *)
Lemma round_nil_dereference w retry s s1 a :
  round w retry s = (Return (Panic NilDereference) s1, a) ->
  exists item i mp,
    WeightedRandom (items s) (draw w) = inr item ∧
    IndexFunc llmproviders item = Some (i, mp) ∧
    providerMap !! ModelWithProvider.ProviderID mp = None.
Proof.
  unfold iteration. simpl.
  destruct (select _ _ _); [done..|].
  destruct (WeightedRandom (items s) (draw w)) as [e|item] eqn:Hp; [done|].
  destruct (IndexFunc llmproviders item) as [[i mp]|] eqn:Hi; [|done].
  destruct (providerMap !! _) as [p|] eqn:Hpm; [|intros _; by exists item, i, mp].
  destruct (newProvider w style _) as [c|]; [done|].
  intros [= Hc _]. exfalso. revert Hc.
  match goal with |- classify _ _ ?log _ ?res ?st = _ -> _ =>
    destruct (failedResult_or_ok res) as [Hf|[Body HB]];
    [destruct (classify_failed bf w log item res st Hf) as (l & m & -> & _)
    |rewrite HB, classify_ok;
     destruct (succeed_inv bf w log Body st)
       as [(c & _ & ->)|(logId & err & wr & pi & _ & Hcopy & ->)]]
  end; try done.
  intros [= Ho _]. apply copy_outcome in Hcopy. simpl in Hcopy.
  destruct Hcopy as (_ & _ & _ & Hnp). by apply (Hnp NilDereference).
Qed.

Lemma loop_nil_safe world n retry s o s' tr :
  rounds world n retry s = (o, s', tr) ->
  providersKnown llmproviders providerMap (items s) ->
  o ≠ Panic NilDereference.
Proof.
  revert n retry s o s' tr.
  apply (rounds_ind world (fun _ _ s o _ _ =>
    providersKnown llmproviders providerMap (items s) -> o ≠ Panic NilDereference)).
  - done.
  - intros n retry s o s1 a H Hk ->.
    apply round_nil_dereference in H as (item & i & mp & Hp & Hi & Hnone).
    apply WeightedRandom_lookup in Hp.
    destruct (Hk item i mp Hp Hi) as [p Hsome]. congruence.
  - intros n retry s s1 a o s2 tr Hit _ IH Hk. apply IH.
    pose proof (iteration_continue_dom _ _ _ _ _ _ _ _ _ _ _ Hit) as Hsub.
    intros k i mp Hin. apply Hk. apply elem_of_dom, Hsub. by apply elem_of_dom.
Qed.
End MoreDispatchFacts.

Section LogFacts.
Variable style : string.
Variable bf : before.
Variable llmproviders : list ModelWithProvider.t.
Variable providerMap : gmap N Provider.t.
Variable TimeOut_ : Z.
Variable proxyStart : Z.

Local Abbreviation round :=
  (iteration style bf llmproviders providerMap TimeOut_ proxyStart).
Local Abbreviation rounds :=
  (loop style bf llmproviders providerMap TimeOut_ proxyStart).

(** What a round that reached the upstream call logs. *)
Lemma round_logs w retry s st att :
  round w retry s = (st, Some att) ->
  (exists s1 l, st = Continue s1 ∧ retryErrLog s1 = retryErrLog s ++ [l] ∧
                chat_logs s1 = chat_logs s ∧
                failureLogOf style bf llmproviders providerMap att l)
  ∨ (exists o s1, st = Return o s1 ∧ retryErrLog s1 = retryErrLog s ∧
       (chat_logs s1 = chat_logs s
        ∨ exists row, chat_logs s1 = chat_logs s ++ [row] ∧
            namesUpstream style bf llmproviders providerMap att row ∧
            ChatLog.Status row = "success" ∧ ChatLog.Error row = None)).
Proof.
  unfold iteration. simpl.
  destruct (select _ _ _); [done..|].
  destruct (WeightedRandom (items s) (draw w)) as [e|item] eqn:Hp; [done|].
  destruct (IndexFunc llmproviders item) as [[i mp]|] eqn:Hi; [|done].
  destruct (providerMap !! _) as [p|] eqn:Hpm; [|done].
  destruct (newProvider w style _) as [c|]; [done|].
  intros [= <- <-].
  assert (Hnames : forall l,
            ChatLog.Name l = model bf -> ChatLog.Style l = style ->
            ChatLog.ProviderModel l = ModelWithProvider.ProviderModel mp ->
            ChatLog.ProviderName l = Provider.Name p ->
            ChatLog.Retry l = retry ->
            namesUpstream style bf llmproviders providerMap
              (mkAttempt retry (items (elapse s (idle w))) item
                 (chat w (ModelWithProvider.ID mp))) l).
  { intros l ? ? ? ? ?. by exists i, mp, p. }
  unfold classify. destruct (chat w (ModelWithProvider.ID mp)) as [e|code Body].
  - left. eexists _, _. split; [done|]. split; [done|]. split; [done|].
    split; [by apply Hnames | done].
  - case_bool_decide as Hcode.
    + left. case_bool_decide; eexists _, _; (split; [done|]);
        (split; [done|]); (split; [done|]); (split; [by apply Hnames | done]).
    + right. unfold succeed. destruct (saveChatLog w) as [c|logId].
      * eexists _, _. split; [done|]. split; [done|]. by left.
      * simpl. destruct (ioCopy Body _ _ _ _) as [[err wr] pi].
        destruct err as [e|]; eexists _, _; (split; [done|]);
          (split; [done|]); right; eexists; (split; [done|]);
          (split; [by apply Hnames | done]).
Qed.

Lemma loop_logs world n retry s o s' tr :
  rounds world n retry s = (o, s', tr) ->
  exists logs rows,
    retryErrLog s' = retryErrLog s ++ logs ∧
    chat_logs s' = chat_logs s ++ rows ∧
    Forall2 (failureLogOf style bf llmproviders providerMap)
            (filter failedAttempt tr) logs ∧
    (forall row, row ∈ rows ->
       ChatLog.Status row = "success" ∧ ChatLog.Error row = None ∧
       exists a, last tr = Some a ∧
                 namesUpstream style bf llmproviders providerMap a row).
Proof.
  revert n retry s o s' tr.
  apply (loop_rounds_ind style bf llmproviders providerMap TimeOut_ proxyStart).
  - intros retry s. exists [], []. rewrite !app_nil_r.
    split; [done|]. split; [done|]. split; [constructor|].
    intros row Hin. by apply elem_of_nil in Hin.
  - intros n retry s o s1 a H.
    destruct (iteration_return _ _ _ _ _ _ _ _ _ _ _ _ H)
      as (_ & Hl & [(-> & _ & Hsame)|(att & B & -> & _ & _ & _ & Hres & _)]).
    + exists [], []. rewrite !app_nil_r. split; [done|].
      split; [apply Hsame|]. split; [constructor|].
      intros row Hin. by apply elem_of_nil in Hin.
    + assert (Hnf : ¬ failedAttempt att).
      { unfold failedAttempt. rewrite Hres. simpl. by intros ?. }
      destruct (round_logs _ _ _ _ _ H)
        as [(s2 & l & [=] & _)|(o' & s2 & [= <- <-] & _ & Hrows)].
      destruct Hrows as [Hc|(row & Hc & Hn & Hst & He)].
      * exists [], []. rewrite !app_nil_r. split; [done|]. split; [done|].
        simpl. rewrite filter_cons_False by done. split; [constructor|].
        intros row Hin. by apply elem_of_nil in Hin.
      * exists [], [row]. rewrite app_nil_r. split; [done|]. split; [done|].
        simpl. rewrite filter_cons_False by done. split; [constructor|].
        intros row' ->%list_elem_of_singleton. split; [done|]. split; [done|].
        by exists att.
  - intros n retry s s1 a o s2 tr Hit Hloop (logs & rows & Hl & Hc & Hf2 & Hrows).
    destruct (iteration_continue _ _ _ _ _ _ _ _ _ _ _ Hit)
      as (att & l0 & -> & _ & _ & _ & _ & Hf & _).
    destruct (round_logs _ _ _ _ _ Hit)
      as [(s1' & l & [= <-] & Hl1 & Hc1 & Hfl)|(o' & s1' & [=] & _)].
    exists (l :: logs), rows. rewrite Hl, Hl1, Hc, Hc1, <- app_assoc.
    split; [done|]. split; [done|]. simpl.
    rewrite filter_cons_True by done. split; [by constructor|].
    intros row Hin. destruct (Hrows row Hin) as (? & ? & a & Hlast & ?).
    split; [done|]. split; [done|]. exists a. split; [|done].
    destruct tr; [done | exact Hlast].
Qed.
End LogFacts.

Section HealthFacts.
Variable style : string.
Variable bf : before.
Variable llmproviders : list ModelWithProvider.t.
Variable providerMap : gmap N Provider.t.
Variable TimeOut_ : Z.
Variable proxyStart : Z.

Local Abbreviation round :=
  (iteration style bf llmproviders providerMap TimeOut_ proxyStart).
Local Abbreviation rounds :=
  (loop style bf llmproviders providerMap TimeOut_ proxyStart).

(** A healthy round that ends the run ends it with [nil], or because the
    pool is empty. *)
Lemma round_healthy w retry s o s1 a :
  1 <= TimeOut_ <= 9223372036 -> healthyRound style w ->
  validWeights (items s) -> keysLoaded llmproviders (items s) ->
  providersKnown llmproviders providerMap (items s) ->
  round w retry s = (Return o s1, a) ->
  o = Nil ∨ o = Error ErrEmptyPool.
Proof.
  intros HT (Hctx & Hnew & [logId Hsave] & Hpw & Hcw & Hbody) Hv Hk Hp.
  unfold iteration. simpl. rewrite Hctx.
  rewrite (timer_never_fired TimeOut_ (now s + idle w) HT). simpl.
  destruct (WeightedRandom (items s) (draw w)) as [e|item] eqn:Hw.
  { intros [= <- _ _]. apply WeightedRandom_error in Hw as H.
    destruct H as [[-> _]| ->]; [by right|].
    by apply WeightedRandom_valid in Hw. }
  pose proof (WeightedRandom_lookup _ _ _ Hw) as Hin.
  destruct (IndexFunc llmproviders item) as [[i mp]|] eqn:Hi.
  2:{ destruct (keysLoaded_IndexFunc llmproviders (items s) item Hk Hin)
        as [x Hx]. congruence. }
  destruct (providerMap !! _) as [p|] eqn:Hpm.
  2:{ destruct (Hp item i mp Hin Hi) as [x Hx]. congruence. }
  rewrite Hnew.
  match goal with |- (classify _ _ ?log _ ?res ?st, _) = _ -> _ =>
    destruct (failedResult_or_ok res) as [Hf|[Body HB]];
    [destruct (classify_failed bf w log item res st Hf) as (l & m & -> & _)
    |rewrite HB, classify_ok]
  end; [done|].
  unfold succeed. rewrite Hsave. simpl.
  apply IndexFunc_Some in Hi as [_ Hid]. rewrite Hid in HB.
  rewrite (ioCopy_clean Body _ _ _ _ (Hbody _ _ HB) Hpw Hcw).
  intros [= <- _ _]. by left.
Qed.

Lemma loop_healthy world n retry s o s' tr :
  1 <= TimeOut_ <= 9223372036 ->
  (forall i, healthyRound style (world i)) ->
  rounds world n retry s = (o, s', tr) ->
  validWeights (items s) -> keysLoaded llmproviders (items s) ->
  providersKnown llmproviders providerMap (items s) ->
  o = Nil ∨ o = Error ErrEmptyPool ∨ o = Error ErrMaxRetriesReached.
Proof.
  intros HT Hh. revert n retry s o s' tr.
  apply (loop_rounds_ind style bf llmproviders providerMap TimeOut_ proxyStart
           world (fun _ _ s o _ _ =>
    validWeights (items s) -> keysLoaded llmproviders (items s) ->
    providersKnown llmproviders providerMap (items s) ->
    o = Nil ∨ o = Error ErrEmptyPool ∨ o = Error ErrMaxRetriesReached)).
  - intros retry s _ _ _. by right; right.
  - intros n retry s o s1 a H Hv Hk Hp.
    destruct (round_healthy _ _ _ _ _ _ HT (Hh retry) Hv Hk Hp H); eauto.
  - intros n retry s s1 a o s2 tr Hit _ IH Hv Hk Hp.
    pose proof (iteration_continue_dom _ _ _ _ _ _ _ _ _ _ _ Hit) as Hsub.
    apply IH.
    + eapply penalizedFrom_valid; [exact Hv|].
      by eapply round_weights.
    + by eapply keysLoaded_subseteq.
    + intros k i mp Hin. apply Hp. apply elem_of_dom, Hsub. by apply elem_of_dom.
Qed.
End HealthFacts.


(** ** More on whole runs *)

Section CommitFacts.
Variable style : string.
Variable bf : before.
Variable llmproviders : list ModelWithProvider.t.
Variable providerMap : gmap N Provider.t.
Variable TimeOut_ : Z.
Variable proxyStart : Z.

Local Abbreviation rounds :=
  (loop style bf llmproviders providerMap TimeOut_ proxyStart).

(** A run that returns [nil] has given the whole body of its last reply
    to the client and to the pipe alike. *)
Lemma loop_nil world n retry s o s' tr :
  rounds world n retry s = (o, s', tr) -> o = Nil ->
  exists a Body,
    last tr = Some a ∧ a_result a = ChatResp http_StatusOK Body ∧
    written s' = written s ++ bodyBytes Body ∧
    piped s' = piped s ++ bodyBytes Body.
Proof.
  revert n retry s o s' tr.
  apply (loop_rounds_ind style bf llmproviders providerMap TimeOut_ proxyStart
           world (fun _ _ s o s' tr =>
    o = Nil ->
    exists a Body,
      last tr = Some a ∧ a_result a = ChatResp http_StatusOK Body ∧
      written s' = written s ++ bodyBytes Body ∧
      piped s' = piped s ++ bodyBytes Body)).
  - done.
  - intros n retry s o s1 a H ->.
    destruct (iteration_return _ _ _ _ _ _ _ _ _ _ _ _ H)
      as (_ & _ & [(-> & He & _)|(att & B & -> & _ & _ & _ & Hres & Hs)]).
    { inversion He. }
    destruct Hs as [(c & _ & [=] & _)|(logId & err & _ & Hc & Ho & _)].
    destruct err as [e|]; [done|].
    apply ioCopy_nil in Hc as [Hw Hp]. by exists att, B.
  - intros n retry s s1 a o s2 tr Hit _ IH Ho.
    destruct (iteration_continue _ _ _ _ _ _ _ _ _ _ _ Hit)
      as (att & l & -> & _ & _ & _ & _ & _ & _ & _ & Hsame & _).
    destruct Hsame as (_ & _ & _ & Hw & Hp & _).
    destruct (IH Ho) as (a & Body & Hlast & Hres & Hw' & Hp').
    exists a, Body. rewrite Hw', Hp', Hw, Hp. split; [|done].
    simpl. destruct tr; [done | exact Hlast].
Qed.
End CommitFacts.

Lemma errorLogs_retry xs logs :
  Forall2 errorLogOf xs logs -> ChatLog.Retry <$> logs = a_retry <$> xs.
Proof.
  induction 1 as [|a l xs logs (_ & Hr & _) _ IH]; [done|].
  by rewrite !fmap_cons, Hr, IH.
Qed.

Lemma filter_failed_all (tr : list Attempt) :
  Forall failedAttempt tr -> filter failedAttempt tr = tr.
Proof.
  induction 1 as [|x l Hx _ IH]; [done|].
  by rewrite filter_cons_True, IH by done.
Qed.

Lemma filter_failed_snoc pre a Body :
  Forall failedAttempt pre -> a_result a = ChatResp http_StatusOK Body ->
  filter failedAttempt (pre ++ [a]) = pre.
Proof.
  intros Hpre Hres. rewrite filter_app, filter_failed_all by done.
  rewrite filter_cons_False; [by rewrite app_nil_r|].
  unfold failedAttempt. rewrite Hres. simpl. by intros ?.
Qed.

(** X6.  The attempts of a run carry the retry numbers 0, 1, 2, ... without
    a gap, and so do the failure logs it sends, in the order sent. *)
Theorem attempts_numbered_consecutively style bf pool t0 world o s' tr :
  dispatch style bf pool t0 world = (o, s', tr) ->
  a_retry <$> tr = Z.of_nat <$> seq 0 (length tr) ∧
  ChatLog.Retry <$> retryErrLog s'
    = Z.of_nat <$> seq 0 (length (retryErrLog s')).
Proof.
  intros H. apply dispatch_inv in H as [(_ & _ & -> & ->)|[_ H]]; [done|].
  pose proof (loop_numbering _ _ _ _ _ _ _ _ _ _ _ _ _ H) as Hnum.
  split; [exact Hnum|].
  pose proof (loop_accounting _ _ _ _ _ _ _ _ _ _ _ _ _ H)
    as (_ & (logs & Hl & Hf2) & _).
  simpl in Hl. subst logs.
  rewrite (errorLogs_retry _ _ Hf2).
  rewrite <- (Forall2_length _ _ _ Hf2).
  destruct (loop_commit _ _ _ _ _ _ _ _ _ _ _ _ _ H)
    as [(_ & _ & [Hall|(pre & a & B & c & -> & Hpre & Hres & _)])|
        (pre & a & B & row & err & -> & Hpre & Hres & _)].
  - by rewrite filter_failed_all.
  - rewrite (filter_failed_snoc _ _ _ Hpre Hres).
    rewrite fmap_app, length_app, seq_app, fmap_app in Hnum.
    by apply app_inj_1 in Hnum as [? _]; [|rewrite !length_fmap, length_seq].
  - rewrite (filter_failed_snoc _ _ _ Hpre Hres).
    rewrite fmap_app, length_app, seq_app, fmap_app in Hnum.
    by apply app_inj_1 in Hnum as [? _]; [|rewrite !length_fmap, length_seq].
Qed.

Lemma attempts_numbered_consecutively_witness :
  let r := dispatch openai request (pool 5 1 6 3) 0 (fun _ => stalledWorld) in
  a_retry <$> attempts r = Z.of_nat <$> seq 0 (length (attempts r)) ∧
  ChatLog.Retry <$> retryErrLog (final r)
    = Z.of_nat <$> seq 0 (length (retryErrLog (final r))).
Proof.
  intros r.
  apply (attempts_numbered_consecutively openai request (pool 5 1 6 3) 0
           (fun _ => stalledWorld) (outcome r) (final r) (attempts r)).
  vm_compute. reflexivity.
Defined.

(** X7.  A run creates at most one chat-log row; it has one exactly when
    it flushed the response headers, and always when it returns nil.  The
    row has status "success", its retry number is the number of failure
    logs sent before it, and it belongs to the last attempt, which was
    answered 200. *)
Theorem success_row_once style bf pool t0 world o s' tr :
  dispatch style bf pool t0 world = (o, s', tr) ->
  (length (chat_logs s') <= 1)%nat ∧
  (chat_logs s' ≠ [] <-> flushed s' = true) ∧
  (o = Nil -> chat_logs s' ≠ []) ∧
  (forall row, row ∈ chat_logs s' ->
     ChatLog.Status row = "success" ∧
     ChatLog.Retry row = Z.of_nat (length (retryErrLog s')) ∧
     length tr = S (length (retryErrLog s')) ∧
     exists a Body, last tr = Some a ∧
                    a_result a = ChatResp http_StatusOK Body ∧
                    a_retry a = ChatLog.Retry row).
Proof.
  intros H. apply dispatch_inv in H as [(_ & -> & -> & ->)|[_ H]].
  { simpl. split; [lia|]. split; [naive_solver|]. split; [done|].
    intros row Hin. by apply elem_of_nil in Hin. }
  pose proof (loop_numbering _ _ _ _ _ _ _ _ _ _ _ _ _ H) as Hnum.
  pose proof (loop_accounting _ _ _ _ _ _ _ _ _ _ _ _ _ H)
    as (_ & (logs & Hl & Hf2) & _).
  simpl in Hl. subst logs. apply Forall2_length in Hf2.
  destruct (loop_commit _ _ _ _ _ _ _ _ _ _ _ _ _ H)
    as [((Hcl & _ & Hfl & _) & Ho & _)|
        (pre & a & B & row & err & -> & Hpre & Hres & _ & Hrow & Hst & Hrt & _ & Hfl & _)];
    simpl in *.
  - rewrite Hcl, Hfl. simpl. split; [lia|]. split; [naive_solver|].
    split; [done|]. intros row Hin. by apply elem_of_nil in Hin.
  - rewrite Hrow, Hfl. simpl. split; [lia|]. split; [naive_solver|].
    split; [done|].
    intros row' ->%list_elem_of_singleton.
    rewrite (filter_failed_snoc _ _ _ Hpre Hres) in Hf2.
    rewrite fmap_app, length_app, seq_app, fmap_app in Hnum.
    apply app_inj_1 in Hnum as [_ Hlast];
      [|by rewrite !length_fmap, length_seq].
    simpl in Hlast. injection Hlast as Hlast.
    split; [done|]. split; [congruence|]. split; [rewrite length_app; simpl; lia|].
    exists a, B. by rewrite last_snoc.
Qed.

Lemma success_row_once_witness :
  let r := dispatch openai request (pool 3 1 1 1) 0
             (fun _ => world 1 0 (chatAthenB 500)) in
  (length (chat_logs (final r)) <= 1)%nat ∧
  (chat_logs (final r) ≠ [] <-> flushed (final r) = true) ∧
  (outcome r = Nil -> chat_logs (final r) ≠ []) ∧
  (forall row, row ∈ chat_logs (final r) ->
     ChatLog.Status row = "success" ∧
     ChatLog.Retry row = Z.of_nat (length (retryErrLog (final r))) ∧
     length (attempts r) = S (length (retryErrLog (final r))) ∧
     exists a Body, last (attempts r) = Some a ∧
                    a_result a = ChatResp http_StatusOK Body ∧
                    a_retry a = ChatLog.Retry row).
Proof.
  intros r.
  apply (success_row_once openai request (pool 3 1 1 1) 0
           (fun _ => world 1 0 (chatAthenB 500)) (outcome r) (final r)
           (attempts r)).
  vm_compute. reflexivity.
Defined.

(** X8.  Started from positive weights, the pool of a run only ever
    holds keys it started with, each with a weight between 1 and its
    starting weight; a weight that started at 2 or more never drops below
    2.  The same holds for the pool every attempt drew from. *)
Theorem weights_stay_positive style bf pool t0 world o s' tr :
  validWeights (p_items pool) ->
  dispatch style bf pool t0 world = (o, s', tr) ->
  penalizedFrom (p_items pool) (items s') ∧
  Forall (fun a => penalizedFrom (p_items pool) (a_pool a)) tr.
Proof.
  intros Hv H. apply dispatch_inv in H as [(_ & _ & -> & ->)|[_ H]].
  - split; [by apply penalizedFrom_refl | constructor].
  - by apply loop_weights in H.
Qed.

Lemma weights_stay_positive_witness :
  let r := dispatch openai request (pool 5 1 6 3) 0 (fun _ => stalledWorld) in
  items (final r) = <[1%N := 2]> (<[2%N := 3]> ∅) ∧
  penalizedFrom (p_items (pool 5 1 6 3)) (items (final r)) ∧
  Forall (fun a => penalizedFrom (p_items (pool 5 1 6 3)) (a_pool a))
         (attempts r).
Proof.
  intros r. split; [vm_compute; reflexivity|].
  apply (weights_stay_positive openai request (pool 5 1 6 3) 0
           (fun _ => stalledWorld) (outcome r) (final r) (attempts r)).
  - intros k w Hk. unfold int64_max.
    destruct (decide (k = 1%N)) as [->|]; [vm_compute in Hk; simplify_eq; lia|].
    destruct (decide (k = 2%N)) as [->|]; [vm_compute in Hk; simplify_eq; lia|].
    simpl in Hk. rewrite !lookup_insert_ne, lookup_empty in Hk by done. done.
  - vm_compute. reflexivity.
Defined.

(** X9.  The pool loses one mapping for each attempt that met a
    transport error or a status other than 200 and 429, and nothing else
    changes its size: so a run makes at most as many such attempts as the
    pool had mappings. *)
Theorem pool_shrinks_by_dropped_attempts style bf pool t0 world o s' tr :
  dispatch style bf pool t0 world = (o, s', tr) ->
  (size (items s') + length (filter droppedAttempt tr))%nat
  = size (p_items pool) ∧
  (length (filter droppedAttempt tr) <= size (p_items pool))%nat.
Proof.
  intros H. apply dispatch_inv in H as [(_ & _ & -> & ->)|[_ H]].
  - simpl. lia.
  - apply loop_pool_size in H. simpl in H. lia.
Qed.

Lemma pool_shrinks_by_dropped_attempts_witness :
  let r := dispatch openai request (pool 5 1 1 1) 0
             (fun _ => world 1 0 (chatAll 500)) in
  (size (items (final r)) + length (filter droppedAttempt (attempts r)))%nat
  = size (p_items (pool 5 1 1 1)) ∧
  (length (filter droppedAttempt (attempts r)) <= size (p_items (pool 5 1 1 1)))%nat.
Proof.
  intros r.
  apply (pool_shrinks_by_dropped_attempts openai request (pool 5 1 1 1) 0
           (fun _ => world 1 0 (chatAll 500)) (outcome r) (final r)
           (attempts r)).
  vm_compute. reflexivity.
Defined.

(** X10.  A run that never flushed has set no header, written no byte to
    the client nor to the pipe, left the pipe unclosed, and does not return
    nil.  A run that flushed has set exactly the response headers of the
    request's kind and closed the pipe with the very error it returns (nil
    for nil).  A run that returns nil has given the client and the pipe the
    whole body of the last reply. *)
Theorem forwarding_commits_or_leaves_no_trace
    style bf pool t0 world o s' tr :
  dispatch style bf pool t0 world = (o, s', tr) ->
  (flushed s' = false ->
   header s' = [] ∧ written s' = [] ∧ piped s' = [] ∧ pwClosed s' = None ∧
   o ≠ Nil) ∧
  (flushed s' = true ->
   header s' = responseHeaders bf ∧
   exists err, pwClosed s' = Some err ∧ o = copyOutcome err) ∧
  (o = Nil ->
   exists a Body, last tr = Some a ∧
     a_result a = ChatResp http_StatusOK Body ∧
     written s' = bodyBytes Body ∧ piped s' = bodyBytes Body).
Proof.
  intros H. apply dispatch_inv in H as [(_ & -> & -> & ->)|[_ H]].
  { simpl. split; [done|]. split; [done | done]. }
  split; [|split].
  - intros Hfl.
    destruct (loop_commit _ _ _ _ _ _ _ _ _ _ _ _ _ H)
      as [((_ & Hh & _ & Hw & Hp & Hpw) & Ho & _)|
          (pre & a & B & row & err & _ & _ & _ & _ & _ & _ & _ & _ & Hfl' & _)];
      [done | congruence].
  - intros Hfl.
    destruct (loop_commit _ _ _ _ _ _ _ _ _ _ _ _ _ H)
      as [((_ & _ & Hfl' & _) & _)|
          (pre & a & B & row & err & _ & _ & _ & _ & _ & _ & _ & Hh & _ & Hpw & ->)].
    + simpl in Hfl'. congruence.
    + split; [done|]. by exists err.
  - intros Ho.
    destruct (loop_nil _ _ _ _ _ _ _ _ _ _ _ _ _ H Ho)
      as (a & Body & ? & ? & ? & ?). by exists a, Body.
Qed.

Lemma forwarding_commits_or_leaves_no_trace_witness :
  let r := dispatch openai request (pool 3 1 1 1) 0
             (fun _ => world 1 0 (chatAthenB 500)) in
  (flushed (final r) = false ->
   header (final r) = [] ∧ written (final r) = [] ∧ piped (final r) = [] ∧
   pwClosed (final r) = None ∧ outcome r ≠ Nil) ∧
  (flushed (final r) = true ->
   header (final r) = responseHeaders request ∧
   exists err, pwClosed (final r) = Some err ∧ outcome r = copyOutcome err) ∧
  (outcome r = Nil ->
   exists a Body, last (attempts r) = Some a ∧
     a_result a = ChatResp http_StatusOK Body ∧
     written (final r) = bodyBytes Body ∧ piped (final r) = bodyBytes Body).
Proof.
  intros r.
  apply (forwarding_commits_or_leaves_no_trace openai request (pool 3 1 1 1) 0
           (fun _ => world 1 0 (chatAthenB 500)) (outcome r) (final r)
           (attempts r)).
  vm_compute. reflexivity.
Defined.

(** X11.  A run makes no attempt in a round on whose entry the context is
    done, nor in any later round: with the context done at round [i] it
    makes at most [i] attempts.  With a timeout between 1 s and the
    largest that does not overflow, a run that has come to that round
    ([i] attempts, all failed, [i] below [MaxRetry]) returns [ctx.Err()]
    from the [select] of line 160. *)
Theorem cancelled_context_stops_the_retries
    style bf pool t0 world o s' tr i :
  ctxDone (world i) = true ->
  dispatch style bf pool t0 world = (o, s', tr) ->
  (length tr <= i)%nat ∧
  (1 <= p_TimeOut pool <= 9223372036 ->
   Z.of_nat i < p_MaxRetry pool ->
   length tr = i -> Forall failedAttempt tr ->
   o = Error ErrCancelled).
Proof.
  intros Hc H. apply dispatch_inv in H as [(Hneg & _ & _ & ->)|[Hmax H]].
  { split; [simpl; lia|]. intros _ ? _ _. lia. }
  split.
  - pose proof (loop_cancelled_bound _ _ _ _ _ _ _ _ _ _ _ _ _ i H Hc).
    lia.
  - intros HT Hi Hlen Hall.
    apply (loop_cancelled _ _ _ _ _ _ _ _ _ _ _ _ _ HT H); [lia | done |].
    by rewrite Hlen.
Qed.

Lemma cancelled_context_stops_the_retries_witness :
  let r := dispatch openai request (pool 5 1 1 1) 0 cancelledWorld in
  length (attempts r) = 1%nat ∧
  (length (attempts r) <= 1)%nat ∧
  (1 <= p_TimeOut (pool 5 1 1 1) <= 9223372036 ->
   Z.of_nat 1 < p_MaxRetry (pool 5 1 1 1) ->
   length (attempts r) = 1%nat -> Forall failedAttempt (attempts r) ->
   outcome r = Error ErrCancelled).
Proof.
  intros r. split; [vm_compute; reflexivity|].
  apply (cancelled_context_stops_the_retries openai request (pool 5 1 1 1) 0
           cancelledWorld (outcome r) (final r) (attempts r) 1%nat).
  - reflexivity.
  - vm_compute. reflexivity.
Defined.

(** X12.  With [-9223372036 <= TimeOut <= 0], the range in which
    [time.Second * time.Duration(TimeOut)] is zero or negative without
    wrapping around, and [MaxRetry >= 1], the timer of the first [select]
    is ready at once (timer channels of Go 1.23 and later), so the run
    makes no attempt, sends no log and leaves the pool as it was; it
    returns "retry time out", or the context's error if the context is
    done as well.  (Below that range the product wraps around to a
    positive duration and the timer is not ready.) *)
Theorem nonpositive_timeout_never_dispatches
    style bf pool t0 world o s' tr :
  - 9223372036 <= p_TimeOut pool <= 0 ->
  1 <= p_MaxRetry pool ->
  dispatch style bf pool t0 world = (o, s', tr) ->
  tr = [] ∧ retryErrLog s' = [] ∧ items s' = p_items pool ∧
  (o = Error ErrRetryTimeout ∨ o = Error ErrCancelled ∧ ctxDone (world 0%nat) = true) ∧
  (ctxDone (world 0%nat) = false -> o = Error ErrRetryTimeout).
Proof.
  intros HT Hmax H. apply dispatch_inv in H as [(? & _)|[_ H]]; [lia|].
  destruct (Z.to_nat (p_MaxRetry pool)) as [|n] eqn:En; [lia|].
  simpl in H.
  destruct (round_select_early style bf (p_llmproviders pool)
              (p_providerMap pool) (p_TimeOut pool) t0 (world 0%nat) 0
              (initState (p_items pool) t0)) as (o' & Heq & Ho').
  { left. unfold timerFired, timeoutDuration, go_mul.
    rewrite wrap64_id by (unfold in_int64, int64_min, int64_max; lia).
    apply Z.leb_le. lia. }
  change (Z.of_nat 0) with 0 in H. rewrite Heq in H.
  injection H as <- <- <-. simpl.
  split; [done|]. split; [done|]. split; [done|].
  split; [naive_solver|]. intros Hc. destruct Ho' as [[_ ?]|[? _]]; congruence.
Qed.

Lemma nonpositive_timeout_never_dispatches_witness :
  let r := dispatch openai request (pool 3 0 1 1) 0
             (fun _ => world 1 0 (chatAll 200)) in
  attempts r = [] ∧ retryErrLog (final r) = [] ∧
  items (final r) = p_items (pool 3 0 1 1) ∧
  (outcome r = Error ErrRetryTimeout ∨
   outcome r = Error ErrCancelled ∧
   ctxDone (world 1 0 (chatAll 200)) = true) ∧
  (ctxDone (world 1 0 (chatAll 200)) = false ->
   outcome r = Error ErrRetryTimeout).
Proof.
  intros r.
  apply (nonpositive_timeout_never_dispatches openai request (pool 3 0 1 1) 0
           (fun _ => world 1 0 (chatAll 200)) (outcome r) (final r)
           (attempts r)).
  - simpl. lia.
  - simpl. lia.
  - vm_compute. reflexivity.
Defined.

Lemma resolvePool_providersKnown db faults style bf pool :
  resolvePool db faults style bf = inr pool ->
  NoDup (ModelWithProvider.ID <$> p_llmproviders pool) ->
  providersKnown (p_llmproviders pool) (p_providerMap pool) (p_items pool).
Proof.
  unfold resolvePool.
  destruct (ProvidersBymodelsName db faults (model bf)) as [e|lim]; [done|].
  destruct (Providers lim) as [|mp0 l] eqn:El; [done|].
  destruct (failProviders faults); [done|].
  destruct (findProvidersByIDsAndType _ _ _) as [|p ps] eqn:Ep; [done|].
  destruct (checkItems _) as [e|m] eqn:Hc; [done|].
  intros [= <-]. cbn [p_llmproviders p_providerMap p_items].
  apply checkItems_inr in Hc as ->.
  intros Hnd k i mp Hk Hi.
  apply buildItems_keys in Hk as (mp' & Hin' & Hid' & Hkeep).
  apply IndexFunc_Some in Hi as [Hl Hid].
  apply list_elem_of_lookup_2 in Hl.
  rewrite <- (NoDup_fmap_eq _ _ _ _ Hnd Hin' Hl) by congruence.
  by eapply keeps_provider.
Qed.

Section PanicFacts.
Variable style : string.
Variable bf : before.
Variable llmproviders : list ModelWithProvider.t.
Variable providerMap : gmap N Provider.t.
Variable TimeOut_ : Z.
Variable proxyStart : Z.

Lemma loop_panics world n retry s o s' tr p :
  loop style bf llmproviders providerMap TimeOut_ proxyStart world n retry s
    = (o, s', tr) ->
  o = Panic p -> p = IndexOutOfRange ∨ p = NilDereference.
Proof.
  revert n retry s o s' tr.
  apply (loop_rounds_ind style bf llmproviders providerMap TimeOut_ proxyStart
           world (fun _ _ _ o _ _ =>
             o = Panic p -> p = IndexOutOfRange ∨ p = NilDereference)).
  - done.
  - intros n retry s o s1 a H ->.
    destruct (iteration_return _ _ _ _ _ _ _ _ _ _ _ _ H)
      as (_ & _ & [(_ & He & _)|(att & B & _ & _ & _ & _ & _ & Hs)]).
    + inversion He; eauto.
    + destruct Hs as [(c & _ & [=] & _)|(logId & err & _ & Hc & Ho & _)].
      apply copy_outcome in Hc. simpl in Hc.
      destruct Hc as (_ & _ & _ & Hnp). by destruct (Hnp p).
  - done.
Qed.
End PanicFacts.

(** X13.  On a pool built by [resolvePool] from mappings with distinct
    ids, the retry loop of lines 152-303 never panics, however many
    rounds it is given: the index [llmproviders[modelWithProviderIndex]]
    is always in range and [provider] is never nil at
    [provider.Config]. *)
Theorem retry_loop_never_panics
    db faults style bf pool t0 world n o s' tr p :
  resolvePool db faults style bf = inr pool ->
  NoDup (ModelWithProvider.ID <$> p_llmproviders pool) ->
  loop style bf (p_llmproviders pool) (p_providerMap pool) (p_TimeOut pool)
       t0 world n 0 (initState (p_items pool) t0) = (o, s', tr) ->
  o ≠ Panic p.
Proof.
  intros Hr Hnd H ->.
  pose proof (resolvePool_keysLoaded _ _ _ _ _ Hr) as Hkeys.
  pose proof (resolvePool_providersKnown _ _ _ _ _ Hr Hnd) as Hknown.
  destruct (loop_panics _ _ _ _ _ _ _ _ _ _ _ _ _ p H eq_refl) as [-> | ->].
  - by destruct (loop_index_safe _ _ _ _ _ _ _ _ _ _ _ _ _ H Hkeys) as [? _].
  - by apply (loop_nil_safe _ _ _ _ _ _ _ _ _ _ _ _ _ H Hknown).
Qed.

Lemma retry_loop_never_panics_witness :
  let r := loop openai request (p_llmproviders (pool 3 1 1 1))
             (p_providerMap (pool 3 1 1 1)) (p_TimeOut (pool 3 1 1 1)) 0
             (fun _ => world 1 0 (chatAthenB 500)) 3 0
             (initState (p_items (pool 3 1 1 1)) 0) in
  length (attempts r) = 2%nat ∧ outcome r ≠ Panic NilDereference.
Proof.
  intros r. split; [vm_compute; reflexivity|].
  apply (retry_loop_never_panics (store 3 1 1 1) noFaults openai request
           (pool 3 1 1 1) 0 (fun _ => world 1 0 (chatAthenB 500)) 3
           (outcome r) (final r) (attempts r) NilDereference).
  - vm_compute. reflexivity.
  - vm_compute. repeat constructor; set_solver.
  - vm_compute. reflexivity.
Defined.

Lemma firstModel_fold rows : forall acc m,
  foldl (fun acc r =>
           match acc with
           | None => Some r
           | Some a => if (Model.ID r <? Model.ID a)%N then Some r else Some a
           end) acc rows = Some m ->
  (forall r, r ∈ rows -> (Model.ID m <= Model.ID r)%N) ∧
  (forall a, acc = Some a -> (Model.ID m <= Model.ID a)%N).
Proof.
  induction rows as [|r rows IH]; intros acc m; simpl.
  - intros ->. split; [by intros r ?%elem_of_nil|]. intros a [= ->]. lia.
  - intros H. apply IH in H as [Hrows Hacc]. split.
    + intros r' [->|Hin]%elem_of_cons; [|by apply Hrows].
      destruct acc as [a|]; [|by apply Hacc].
      destruct (Model.ID r <? Model.ID a)%N eqn:E; [by apply Hacc|].
      apply N.ltb_ge in E. specialize (Hacc a eq_refl). lia.
    + intros a ->.
      destruct (Model.ID r <? Model.ID a)%N eqn:E.
      * apply N.ltb_lt in E. specialize (Hacc r eq_refl). lia.
      * by apply Hacc.
Qed.

Lemma firstModel_None rows : firstModel rows = None <-> rows = [].
Proof.
  split; [|by intros ->].
  destruct rows as [|r rows]; [done|]. unfold firstModel. simpl.
  assert (forall acc : option Model.t, is_Some acc ->
            is_Some (foldl (fun acc r =>
               match acc with
               | None => Some r
               | Some a => if (Model.ID r <? Model.ID a)%N then Some r else Some a
               end) acc rows)) as H.
  { induction rows as [|r' rows IH]; intros acc Hacc; simpl; [done|].
    apply IH. destruct acc as [a|]; [|eauto].
    destruct (Model.ID r' <? Model.ID a)%N; eauto. }
  intros Hn. destruct (H (Some r)) as [x Hx]; [eauto|]. congruence.
Qed.

(** X14.  Without store faults, [ProvidersBymodelsName] fails with "not
    found model" exactly when no live row bears the name, with "not
    provider for model" only when the live row of that name with the
    least id has no live mapping, and in no other way.  When it succeeds
    the limits are those of that row and the mappings are exactly the
    live rows whose [model_id] is its id, at least one. *)
Theorem ProvidersBymodelsName_result db modelsName :
  let r := ProvidersBymodelsName db noFaults modelsName in
  let first m :=
    m ∈ models db ∧ Model.Name m = modelsName ∧ Model.DeletedAt m = None ∧
    forall m', m' ∈ models db -> Model.Name m' = modelsName ->
               Model.DeletedAt m' = None -> (Model.ID m <= Model.ID m')%N in
  let mappingOf (m : Model.t) mp :=
    mp ∈ model_with_providers db ∧
    ModelWithProvider.ModelID mp = Model.ID m ∧
    ModelWithProvider.DeletedAt mp = None in
  (r = inl ErrModelNotFound <->
   forall m, m ∈ models db -> Model.Name m = modelsName ->
             Model.DeletedAt m ≠ None) ∧
  (r = inl ErrNoMappings ->
   exists m, first m ∧ forall mp, ¬ mappingOf m mp) ∧
  (forall lim, r = inr lim ->
     exists m, first m ∧
       (forall mp, mp ∈ Providers lim <-> mappingOf m mp) ∧
       Providers lim ≠ [] ∧
       MaxRetry lim = Model.MaxRetry m ∧ TimeOut lim = Model.TimeOut m) ∧
  (forall e, r = inl e -> e = ErrModelNotFound ∨ e = ErrNoMappings).
Proof.
  intros r first mappingOf. unfold r, ProvidersBymodelsName. simpl.
  destruct (findModelByName db modelsName) as [m|] eqn:Hm.
  - pose proof (findModelByName_not_deleted _ _ _ Hm) as (Hin & Hname & Hdel).
    unfold findModelByName in Hm.
    pose proof (firstModel_fold _ _ _ Hm) as [Hmin _].
    assert (Hfirst : first m).
    { repeat (split; [done|]). intros m' Hin' Hn' Hd'. apply Hmin.
      by apply list_elem_of_filter. }
    destruct (findMappingsByModelID db (Model.ID m)) as [|mp l] eqn:El.
    + split; [split; [done|]; intros Hall; by destruct (Hall m)|].
      split.
      { intros _. exists m. split; [done|]. intros mp Hmp.
        apply findMappings_elem in Hmp. rewrite El in Hmp.
        by apply elem_of_nil in Hmp. }
      split; [done|]. intros e [= <-]. by right.
    + split; [split; [done|]; intros Hall; by destruct (Hall m)|].
      split; [done|]. split; [|done].
      intros lim [= <-]. exists m. simpl. split; [done|].
      split; [|done]. intros mp'. rewrite <- El. apply findMappings_elem.
  - unfold findModelByName in Hm. apply firstModel_None in Hm.
    split.
    { split; [|done]. intros _ m Hin Hname Hdel.
      assert (m ∈ filter (fun r => Model.Name r = modelsName ∧
                                   Model.DeletedAt r = None) (models db))
        as Hf by by apply list_elem_of_filter.
      rewrite Hm in Hf. by apply elem_of_nil in Hf. }
    split; [done|]. split; [done|]. intros e [= <-]. by left.
Qed.

(** X15.  Each failure log, in order, names the request's model and
    style, the retry number of its attempt, and the provider model and
    provider name of the mapping that attempt selected, with status
    "error" and the error text of the reply (the status and body for a
    reply, the error for a failed call).  The success row names the
    upstream of the last attempt and carries no error. *)
Theorem logs_name_the_upstream style bf pool t0 world o s' tr :
  dispatch style bf pool t0 world = (o, s', tr) ->
  Forall2 (failureLogOf style bf (p_llmproviders pool) (p_providerMap pool))
          (filter failedAttempt tr) (retryErrLog s') ∧
  (forall row, row ∈ chat_logs s' ->
     ChatLog.Status row = "success" ∧ ChatLog.Error row = None ∧
     exists a, last tr = Some a ∧
       namesUpstream style bf (p_llmproviders pool) (p_providerMap pool) a row).
Proof.
  intros H. apply dispatch_inv in H as [(_ & _ & -> & ->)|[_ H]].
  { simpl. split; [constructor|]. intros row Hin. by apply elem_of_nil in Hin. }
  apply loop_logs in H as (logs & rows & Hl & Hc & Hf2 & Hrows).
  simpl in Hl, Hc. by subst.
Qed.

Lemma logs_name_the_upstream_witness :
  let r := dispatch openai request (pool 3 1 1 1) 0
             (fun _ => world 1 0 (chatAthenB 500)) in
  (ChatLog.ProviderName <$> retryErrLog (final r) = ["A"] ∧
   ChatLog.ProviderName <$> chat_logs (final r) = ["B"]) ∧
  Forall2 (failureLogOf openai request (p_llmproviders (pool 3 1 1 1))
             (p_providerMap (pool 3 1 1 1)))
          (filter failedAttempt (attempts r)) (retryErrLog (final r)) ∧
  (forall row, row ∈ chat_logs (final r) ->
     ChatLog.Status row = "success" ∧ ChatLog.Error row = None ∧
     exists a, last (attempts r) = Some a ∧
       namesUpstream openai request (p_llmproviders (pool 3 1 1 1))
         (p_providerMap (pool 3 1 1 1)) a row).
Proof.
  intros r. split; [split; vm_compute; reflexivity|].
  apply (logs_name_the_upstream openai request (pool 3 1 1 1) 0
           (fun _ => world 1 0 (chatAthenB 500)) (outcome r) (final r)
           (attempts r)).
  vm_compute. reflexivity.
Defined.

(** X16.  On a pool built by [resolvePool] from mappings with distinct
    ids and positive weights, with a timeout in range, when nothing around
    the run fails (the context is never done, the upstream client can be
    built, the store takes the row, the pipe and the client take every
    write, a body sent with status 200 is read without error), the run
    ends in one of three ways: it returns nil after zero or more failed
    attempts and one answered 200, whose whole body the client and the
    pipe have received; or every attempt failed and the pool ran empty
    before [MaxRetry] attempts; or every attempt failed and there were
    exactly [MaxRetry] of them. *)
Theorem healthy_run_succeeds_or_exhausts
    db faults style bf pool t0 world o s' tr :
  resolvePool db faults style bf = inr pool ->
  NoDup (ModelWithProvider.ID <$> p_llmproviders pool) ->
  validWeights (p_items pool) ->
  1 <= p_TimeOut pool <= 9223372036 ->
  0 <= p_MaxRetry pool ->
  (forall i, healthyRound style (world i)) ->
  dispatch style bf pool t0 world = (o, s', tr) ->
  (o = Nil ∧
   exists pre a Body,
     tr = pre ++ [a] ∧ Forall failedAttempt pre ∧
     a_result a = ChatResp http_StatusOK Body ∧
     written s' = bodyBytes Body ∧ piped s' = bodyBytes Body)
  ∨ (o = Error ErrEmptyPool ∧ Forall failedAttempt tr ∧ items s' = ∅ ∧
     Z.of_nat (length tr) < p_MaxRetry pool)
  ∨ (o = Error ErrMaxRetriesReached ∧ Forall failedAttempt tr ∧
     Z.of_nat (length tr) = p_MaxRetry pool).
Proof.
  intros Hr Hnd Hv HT Hmax Hh H.
  pose proof (resolvePool_keysLoaded _ _ _ _ _ Hr) as Hkeys.
  pose proof (resolvePool_providersKnown _ _ _ _ _ Hr Hnd) as Hknown.
  apply dispatch_inv in H as [(? & _)|[_ H]]; [lia|].
  pose proof (loop_accounting _ _ _ _ _ _ _ _ _ _ _ _ _ H)
    as (_ & _ & Hmaxr & Hempty).
  destruct (loop_healthy _ _ _ _ _ _ _ _ _ _ _ _ _ HT Hh H Hv Hkeys Hknown)
    as [-> | [-> | ->]].
  - left. split; [done|].
    destruct (loop_nil _ _ _ _ _ _ _ _ _ _ _ _ _ H eq_refl)
      as (a' & Body' & Hlast & Hres' & Hw & Hp).
    destruct (loop_commit _ _ _ _ _ _ _ _ _ _ _ _ _ H)
      as [(_ & Ho & _)|(pre & a & B & row & err & -> & Hpre & Hres & _)];
      [done|].
    rewrite last_snoc in Hlast. injection Hlast as <-.
    exists pre, a, Body'. simpl in Hw, Hp. done.
  - right; left. destruct (Hempty eq_refl) as (? & ? & ?).
    split; [done|]. split; [done|]. split; [done|]. lia.
  - right; right. destruct Hmaxr as [Hm _].
    destruct (Hm eq_refl) as [? ?]. split; [done|]. split; [done|]. lia.
Qed.

Lemma healthy_run_succeeds_or_exhausts_witness :
  let r := dispatch openai request (pool 3 1 1 1) 0
             (fun _ => world 1 0 (chatAthenB 500)) in
  (outcome r = Nil ∧
   exists pre a Body,
     attempts r = pre ++ [a] ∧ Forall failedAttempt pre ∧
     a_result a = ChatResp http_StatusOK Body ∧
     written (final r) = bodyBytes Body ∧ piped (final r) = bodyBytes Body)
  ∨ (outcome r = Error ErrEmptyPool ∧ Forall failedAttempt (attempts r) ∧
     items (final r) = ∅ ∧
     Z.of_nat (length (attempts r)) < p_MaxRetry (pool 3 1 1 1))
  ∨ (outcome r = Error ErrMaxRetriesReached ∧
     Forall failedAttempt (attempts r) ∧
     Z.of_nat (length (attempts r)) = p_MaxRetry (pool 3 1 1 1)).
Proof.
  intros r.
  apply (healthy_run_succeeds_or_exhausts (store 3 1 1 1) noFaults openai
           request (pool 3 1 1 1) 0 (fun _ => world 1 0 (chatAthenB 500))
           (outcome r) (final r) (attempts r)).
  - vm_compute. reflexivity.
  - vm_compute. repeat constructor; set_solver.
  - intros k w Hk. unfold int64_max.
    destruct (decide (k = 1%N)) as [->|]; [vm_compute in Hk; simplify_eq; lia|].
    destruct (decide (k = 2%N)) as [->|]; [vm_compute in Hk; simplify_eq; lia|].
    simpl in Hk. rewrite !lookup_insert_ne, lookup_empty in Hk by done. done.
  - simpl. lia.
  - simpl. lia.
  - intros i. unfold healthyRound. simpl.
    split; [done|]. split; [done|]. split; [by eexists|].
    split; [constructor|]. split; [constructor|].
    intros k Body Hc. unfold chatAthenB in Hc.
    destruct (k =? 1)%N; [discriminate Hc|]. injection Hc as <-.
    apply Forall_cons. split; [by left | apply Forall_nil_2].
  - vm_compute. reflexivity.
Defined.
